(** * Code Historian: the hybrid retrieval-and-ranking engine

    A shallow embedding of [SearchEngine] ([src/services/search.ts]), of
    [RerankerService] ([src/services/reranker.ts]) and of the query-enrichment
    helpers [parseTimeExpression] and [extractFilePatterns] of the utilities
    module, with the properties of the specification stated and proved over
    it.  Further down: other helpers of the utilities module ([retry],
    [batchArray], paths, labels) and the cache and the mean pooling of the
    embedding service ([src/services/embedding.ts]).

    Modelling conventions.
    - A JavaScript [number] that carries a score or a weight is an exact
      rational ([Q]); rounding, NaN and infinities of IEEE doubles are outside
      the model.  Equality of scores is [Qeq] ([==]).  Where a value
      comes out of a decoded JSON body it is a [json] value, a number or
      not.
    - Ranks, list positions and result limits are [nat]; timestamps are [Z]
      (milliseconds).
    - A string is a [string] of 8-bit code units; text processing runs over
      [list ascii].
    - [T | undefined] and [T | null] are [option T]; [a ?? b] is [nullish].
    - A call that may throw (or a promise that may reject) returns a
      [Result]; [try { .. } catch { .. }] is [catch].
    - The external collaborators (embedding provider, vector index, metadata
      store, reranker backend, clock) are the fields of an environment
      record [Env].
    - What the language leaves to the JavaScript engine - the order
      [Array.prototype.sort] produces with a comparator that is not a
      consistent one - is a field of a record [Runtime]; statements that
      depend on it hold for every engine whose sort leaves an array with
      the elements it had ([permutes]). *)

From Stdlib Require Import QArith Qminmax Qabs Lqa Lia ZArith.
From Stdlib Require Import String Ascii List Bool Arith.
From Stdlib Require Import Sorting.Permutation Sorting.Sorted.
Import ListNotations.

Open Scope Q_scope.

(* ------------------------------------------------------------------ *)
(** * JavaScript helpers *)

(** [a ?? b] *)
Definition nullish {A : Type} (a : option A) (b : A) : A :=
  match a with
  | Some x => x
  | None => b
  end.

(** [x > y] and [x >= y] on numbers. *)
Definition Qgtb (x y : Q) : bool := negb (Qle_bool x y).
Definition Qgeb (x y : Q) : bool := Qle_bool y x.

Definition Qnat (n : nat) : Q := inject_Z (Z.of_nat n).

(** [Math.min(h, ...t)] and [Math.max(h, ...t)] of a non-empty argument
    list. *)
Definition Math_min (h : Q) (t : list Q) : Q := fold_left Qmin t h.
Definition Math_max (h : Q) (t : list Q) : Q := fold_left Qmax t h.

(** A thrown [Error] carries its message. *)
Inductive Error : Type :=
| mkError (message : string).

Inductive Result (A : Type) : Type :=
| Ok (a : A)
| Throw (e : Error).
Arguments Ok {A} a.
Arguments Throw {A} e.

Definition bind {A B : Type} (m : Result A) (f : A -> Result B) : Result B :=
  match m with
  | Ok a => f a
  | Throw e => Throw e
  end.

(** [try { m } catch (error) { h error }] *)
Definition catch {A : Type} (m : Result A) (h : Error -> Result A) : Result A :=
  match m with
  | Ok a => Ok a
  | Throw e => h e
  end.

Declare Scope result_scope.
Delimit Scope result_scope with result.
Notation "x <- m ;; k" := (bind m (fun x => k))
  (at level 61, m at next level, right associativity) : result_scope.

(** [Array.prototype.sort(cmp)] for a comparator that is a consistent one:
    a stable sort; [cmp a b <= 0] keeps [a] before [b].  The result is the
    one the language standard fixes; the model is the stable insertion
    sort.  [Array_sort], further down, is the sort for any comparator. *)
Section Sort.
Context {A : Type} (cmp : A -> A -> Q).

Fixpoint insert_sorted (x : A) (l : list A) : list A :=
  match l with
  | [] => [x]
  | y :: l' => if Qle_bool (cmp x y) 0 then x :: y :: l'
               else y :: insert_sorted x l'
  end.

Fixpoint sort (l : list A) : list A :=
  match l with
  | [] => []
  | x :: l' => insert_sorted x (sort l')
  end.
End Sort.

(** [arr.slice(0, n)] *)
Definition slice0 {A : Type} (n : nat) (l : list A) : list A := firstn n l.

(** ** Values decoded from JSON, and the JavaScript engine

    What [JSON.parse] builds: the values a backend can put where the code
    expects a number or a string.  An absent property ([undefined]) is
    [None] of an [option json]. *)
#[warnings="-register-all"] Inductive json : Type :=
| JNull
| JBool (b : bool)
| JNum (n : Q)
| JStr (s : string)
| JArr (elements : list json)
| JObj (members : list (string * json)).

(** The engine the code runs on, where the language leaves the outcome to
    the implementation or where it is not modelled further. *)
Record Runtime : Type := mkRuntime {
  (** the order [Array.prototype.sort] leaves an array in when the
      comparator is not a consistent one *)
  implementation_sort : forall A : Type, (A -> A -> Q) -> list A -> list A;
  (** [ToNumber] of a value that is not a number: 0 for [null], 1 for
      [true], the number a string spells, and so on; [None] is [NaN] *)
  coerce : json -> option Q;
  (** whether every array has a property of this name by inheritance
      ([map], [constructor], ...) *)
  inherited : string -> bool
}.

(** [ToNumber(v)]; [None] is [NaN], and [undefined] gives [NaN]. *)
Definition ToNumber (rt : Runtime) (v : option json) : option Q :=
  match v with
  | Some (JNum n) => Some n
  | Some other => coerce rt other
  | None => None
  end.

(** [x - y] on numbers that may be [NaN] *)
Definition minus (x y : option Q) : option Q :=
  match x, y with
  | Some a, Some b => Some (a - b)
  | _, _ => None
  end.

(** What [Array.prototype.sort] makes of the value its comparator returns:
    [NaN] counts as [+0]. *)
Definition nan_zero (v : option Q) : Q := nullish v 0.

(** A consistent comparator for the elements of [l], as the language
    standard defines it (ECMA-262, Array.prototype.sort): no call returns
    [NaN]; [a =CF a]; [a =CF b] implies [b =CF a]; and [=CF], [<CF] and
    [>CF] are transitive - where [a =CF b], [a <CF b] and [a >CF b] say that
    the comparator returns zero, a negative or a positive number for [a]
    and [b]. *)
Section Consistent.
Context {A : Type} (cmp : A -> A -> option Q).

Definition eqCF (a b : A) : bool := Qeq_bool (nan_zero (cmp a b)) 0.
Definition ltCF (a b : A) : bool := negb (Qle_bool 0 (nan_zero (cmp a b))).
Definition gtCF (a b : A) : bool := negb (Qle_bool (nan_zero (cmp a b)) 0).

Definition never_NaN (l : list A) : bool :=
  forallb (fun a =>
    forallb (fun b => match cmp a b with Some _ => true | None => false end)
      l) l.

Definition consistent (l : list A) : bool :=
  never_NaN l
  && forallb (fun a =>
       eqCF a a
       && forallb (fun b =>
            implb (eqCF a b) (eqCF b a)
            && forallb (fun c =>
                 implb (eqCF a b && eqCF b c) (eqCF a c)
                 && implb (ltCF a b && ltCF b c) (ltCF a c)
                 && implb (gtCF a b && gtCF b c) (gtCF a c))
                 l)
            l)
       l.
End Consistent.

(** [array.sort(cmp)] for any comparator.  With a consistent comparator the
    standard fixes the result: sorted, and stable.  Otherwise the order is
    implementation-defined. *)
Definition Array_sort (rt : Runtime) {A : Type} (cmp : A -> A -> option Q)
  (l : list A) : list A :=
  if consistent cmp l
  then sort (fun a b => nan_zero (cmp a b)) l
  else implementation_sort rt A (fun a b => nan_zero (cmp a b)) l.

(** [Map<string, V>]: keys in insertion order; [set] on a present key
    replaces the value in place. *)
Module JsMap.
Section Defs.
Context {V : Type}.
Definition t := list (string * V).

Definition empty : t := [].

Fixpoint get (m : t) (k : string) : option V :=
  match m with
  | [] => None
  | (k', v) :: m' => if String.eqb k k' then Some v else get m' k
  end.

Fixpoint set (m : t) (k : string) (v : V) : t :=
  match m with
  | [] => [(k, v)]
  | (k', v') :: m' =>
      if String.eqb k k' then (k', v) :: m' else (k', v') :: set m' k v
  end.

(** [new Map(entries)] *)
Definition of_entries (es : list (string * V)) : t :=
  fold_left (fun m kv => set m (fst kv) (snd kv)) es empty.

Definition values (m : t) : list V := List.map snd m.
Definition keys (m : t) : list string := List.map fst m.
End Defs.
Arguments t : clear implicits.
End JsMap.

(* ------------------------------------------------------------------ *)
(** * Constants: [SEARCH_DEFAULTS] and [RERANKER_DEFAULTS] *)

Module SEARCH_DEFAULTS.
Definition VECTOR_WEIGHT : Q := 0.6.
Definition KEYWORD_WEIGHT : Q := 0.4.
Definition RRF_K : Q := 60.
Definition RERANK_TOP_K : nat := 50.
Definition MAX_RESULTS : nat := 20.
Definition MIN_VECTOR_SCORE : Q := 0.3.
Definition MIN_KEYWORD_SCORE : Q := 0.1.
End SEARCH_DEFAULTS.

Module RERANKER_DEFAULTS.
Definition TOP_K : nat := 10.
End RERANKER_DEFAULTS.

(* ------------------------------------------------------------------ *)
(** * Data model: the core types and the records of [search.ts] *)

Record ChangeRecord : Type := mkChange {
  c_id : string;
  c_timestamp : Z;
  c_filePath : string;
  c_diff : string;
  c_symbols : list string;
  c_summary : option string
}.

Record VectorSearchResult : Type := mkVSR {
  v_id : string;
  v_changeId : string;
  v_score : Q;
  v_distance : Q
}.

(** An element of the lexical leg: [{ change: ChangeRecord; rank: number }]. *)
Record KeywordResult : Type := mkKR {
  k_change : ChangeRecord;
  k_rank : Q
}.

Record HybridSearchParams : Type := mkParams {
  vectorWeight : Q;
  keywordWeight : Q;
  rerankTopK : nat
}.

Record RankedResult : Type := mkRanked {
  changeId : string;
  vectorRank : option nat;
  keywordRank : option nat;
  vectorScore : option Q;
  keywordScore : option Q;
  normalizedVectorScore : option Q;
  normalizedKeywordScore : option Q;
  rrfScore : Q;
  rerankerScore : option json
}.

(** [{ id: string; score: number }] *)
Record Scored : Type := mkScored {
  s_id : string;
  s_score : Q
}.

(** [{ id: string; score: number; normalizedScore: number }] *)
Record Normalized : Type := mkNormalized {
  n_id : string;
  n_score : Q;
  normalizedScore : Q
}.

Record NormalizedScores : Type := mkNS {
  results : list Normalized;
  ns_min : Q;
  ns_max : Q
}.

(* ------------------------------------------------------------------ *)
(** * Score normalizer: [SearchEngine.normalizeScores] *)

Definition normalizeScores (rs : list Scored) (minThreshold : Q)
  : NormalizedScores :=
  match List.map s_score rs with
  | [] => mkNS [] 0 0
  | h :: t =>
      let min := Math_min h t in
      let max := Math_max h t in
      let range := max - min in
      let normalized :=
        List.map (fun r =>
          mkNormalized (s_id r) (s_score r)
            (if Qgtb range 0 then (s_score r - min) / range else 1)) rs in
      let filtered :=
        List.filter (fun r => Qgeb (normalizedScore r) minThreshold)
          normalized in
      mkNS filtered min max
  end.

(* ------------------------------------------------------------------ *)
(** * Rank fusion: [SearchEngine.reciprocalRankFusion] *)

(** A rank is truthy when it is defined and not zero. *)
Definition truthy_rank (r : option nat) : bool :=
  match r with
  | Some (S _) => true
  | _ => false
  end.

Definition set_rrfScore (r : RankedResult) (s : Q) : RankedResult :=
  mkRanked (changeId r) (vectorRank r) (keywordRank r) (vectorScore r)
    (keywordScore r) (normalizedVectorScore r) (normalizedKeywordScore r)
    s (rerankerScore r).

Definition set_rerankerScore (r : RankedResult) (s : option json)
  : RankedResult :=
  mkRanked (changeId r) (vectorRank r) (keywordRank r) (vectorScore r)
    (keywordScore r) (normalizedVectorScore r) (normalizedKeywordScore r)
    (rrfScore r) s.

(** [arr.forEach((x, index) => ..)] over a state [S]. *)
Fixpoint forEach_from {A S : Type} (f : S -> A -> nat -> S)
  (index : nat) (l : list A) (s : S) : S :=
  match l with
  | [] => s
  | x :: l' => forEach_from f (Datatypes.S index) l' (f s x index)
  end.

Definition forEach {A S : Type} (f : S -> A -> nat -> S) (l : list A) (s : S)
  : S := forEach_from f 0 l s.

Section Fusion.
Variable params : HybridSearchParams.
Variable normalizedVector normalizedKeyword : NormalizedScores.

Definition normalizedVectorMap : JsMap.t Q :=
  JsMap.of_entries
    (List.map (fun r => (n_id r, normalizedScore r)) (results normalizedVector)).

Definition normalizedKeywordMap : JsMap.t Q :=
  JsMap.of_entries
    (List.map (fun r => (n_id r, normalizedScore r)) (results normalizedKeyword)).

(** Body of the first [forEach]. *)
Definition processVector (scoreMap : JsMap.t RankedResult)
  (result : VectorSearchResult) (index : nat) : JsMap.t RankedResult :=
  let k := SEARCH_DEFAULTS.RRF_K in
  let rank := (index + 1)%nat in
  let rrfContribution := vectorWeight params * (1 / (k + Qnat rank)) in
  let normalizedScore :=
    nullish (JsMap.get normalizedVectorMap (v_changeId result)) 0 in
  JsMap.set scoreMap (v_changeId result)
    (mkRanked (v_changeId result) (Some rank) None (Some (v_score result))
       None (Some normalizedScore) None rrfContribution None).

(** Body of the second [forEach]. *)
Definition processKeyword (scoreMap : JsMap.t RankedResult)
  (result : KeywordResult) (index : nat) : JsMap.t RankedResult :=
  let k := SEARCH_DEFAULTS.RRF_K in
  let rank := (index + 1)%nat in
  let rrfContribution := keywordWeight params * (1 / (k + Qnat rank)) in
  let normalizedScore :=
    nullish (JsMap.get normalizedKeywordMap (c_id (k_change result))) 0 in
  match JsMap.get scoreMap (c_id (k_change result)) with
  | Some existing =>
      JsMap.set scoreMap (c_id (k_change result))
        (mkRanked (changeId existing) (vectorRank existing) (Some rank)
           (vectorScore existing) (Some (Qabs (k_rank result)))
           (normalizedVectorScore existing) (Some normalizedScore)
           (rrfScore existing + rrfContribution) (rerankerScore existing))
  | None =>
      JsMap.set scoreMap (c_id (k_change result))
        (mkRanked (c_id (k_change result)) None (Some rank) None
           (Some (Qabs (k_rank result))) None (Some normalizedScore)
           rrfContribution None)
  end.

Definition overlapBoost (result : RankedResult) : Q :=
  1 + 0.2 * Qmin 1 (nullish (normalizedVectorScore result) 0
                    * nullish (normalizedKeywordScore result) 0).

(** Body of the [for .. of scoreMap] loop. *)
Definition boost (result : RankedResult) : RankedResult :=
  if truthy_rank (vectorRank result) && truthy_rank (keywordRank result)
  then set_rrfScore result (rrfScore result * overlapBoost result)
  else result.

(** The score map after the two [forEach] loops. *)
Definition scoreMap_collected (vectorResults : list VectorSearchResult)
  (keywordResults : list KeywordResult) : JsMap.t RankedResult :=
  forEach processKeyword keywordResults
    (forEach processVector vectorResults JsMap.empty).

(** The score map after the overlap boost. *)
Definition scoreMap_boosted (vectorResults : list VectorSearchResult)
  (keywordResults : list KeywordResult) : JsMap.t RankedResult :=
  List.map (fun kv => (fst kv, boost (snd kv)))
    (scoreMap_collected vectorResults keywordResults).

Definition reciprocalRankFusion (vectorResults : list VectorSearchResult)
  (keywordResults : list KeywordResult) : list RankedResult :=
  let ranked := JsMap.values (scoreMap_boosted vectorResults keywordResults) in
  sort (fun a b => rrfScore b - rrfScore a) ranked.
End Fusion.

(** The fusion as [search] runs it: both legs normalized with the per-leg
    thresholds of [SEARCH_DEFAULTS]. *)
Definition normalizedVectorOf (vectorResults : list VectorSearchResult)
  : NormalizedScores :=
  normalizeScores
    (List.map (fun r => mkScored (v_changeId r) (v_score r)) vectorResults)
    SEARCH_DEFAULTS.MIN_VECTOR_SCORE.

Definition normalizedKeywordOf (keywordResults : list KeywordResult)
  : NormalizedScores :=
  normalizeScores
    (List.map (fun r => mkScored (c_id (k_change r)) (k_rank r)) keywordResults)
    SEARCH_DEFAULTS.MIN_KEYWORD_SCORE.

Definition fuse (params : HybridSearchParams)
  (vectorResults : list VectorSearchResult)
  (keywordResults : list KeywordResult) : list RankedResult :=
  reciprocalRankFusion params (normalizedVectorOf vectorResults)
    (normalizedKeywordOf keywordResults) vectorResults keywordResults.



(* ------------------------------------------------------------------ *)
(** * Strings and regular expressions *)

Definition text := list ascii.

Definition chars (s : string) : text := list_ascii_of_string s.
Definition str (t : text) : string := string_of_list_ascii t.

Definition code (c : ascii) : nat := nat_of_ascii c.

Definition in_range (lo hi : nat) (c : ascii) : bool :=
  (lo <=? code c)%nat && (code c <=? hi)%nat.

Definition is_upper (c : ascii) : bool := in_range 65 90 c.
Definition is_lower (c : ascii) : bool := in_range 97 122 c.
Definition is_digit (c : ascii) : bool := in_range 48 57 c.

(** [\w] *)
Definition is_word (c : ascii) : bool :=
  is_upper c || is_lower c || is_digit c || (code c =? 95)%nat.

(** [\s], and the characters [trim] strips: tab, line feed, vertical tab,
    form feed, carriage return, space and no-break space. *)
Definition is_space (c : ascii) : bool :=
  in_range 9 13 c || (code c =? 32)%nat || (code c =? 160)%nat.

(** [toLowerCase] on one code unit: the letters A-Z, and the upper-case
    letters of the Latin-1 supplement. *)
Definition lower_char (c : ascii) : ascii :=
  if is_upper c then ascii_of_nat (code c + 32)
  else if in_range 192 222 c && negb (code c =? 215)%nat
       then ascii_of_nat (code c + 32)
  else c.

(** The canonical form an ignore-case pattern compares by: only the ASCII
    letters fold, since a character outside ASCII never canonicalizes to
    one inside. *)
Definition canonical (c : ascii) : ascii :=
  if is_lower c then ascii_of_nat (code c - 32) else c.

Definition toLowerCase (s : string) : string :=
  str (List.map lower_char (chars s)).

Fixpoint starts_with (p s : text) : bool :=
  match p, s with
  | [], _ => true
  | _ :: _, [] => false
  | a :: p', b :: s' => Ascii.eqb a b && starts_with p' s'
  end.

Fixpoint includes_text (s sub : text) : bool :=
  starts_with sub s ||
  match s with
  | [] => false
  | _ :: s' => includes_text s' sub
  end.

(** [s.includes(sub)] *)
Definition includes (s sub : string) : bool :=
  includes_text (chars s) (chars sub).

(** [s.slice(0, n)] *)
Definition slice_str (n : nat) (s : string) : string := str (firstn n (chars s)).

(** [parts.join(sep)] *)
Fixpoint join (sep : string) (parts : list string) : string :=
  match parts with
  | [] => EmptyString
  | [p] => p
  | p :: ps => (p ++ sep ++ join sep ps)%string
  end.

(** [s.split(c)] for a one-character separator. *)
Fixpoint split_char_text (c : ascii) (cur : text) (s : text) : list text :=
  match s with
  | [] => [rev cur]
  | x :: s' => if Ascii.eqb x c then rev cur :: split_char_text c [] s'
               else split_char_text c (x :: cur) s'
  end.

Definition split_char (c : ascii) (s : string) : list string :=
  List.map str (split_char_text c [] (chars s)).

Fixpoint drop_space (s : text) : text :=
  match s with
  | [] => []
  | c :: s' => if is_space c then drop_space s' else s
  end.

(** [s.trim()] *)
Definition trim_text (s : text) : text := rev (drop_space (rev (drop_space s))).
Definition trim (s : string) : string := str (trim_text (chars s)).

(** [[...new Set(l)]]: the first occurrence of each element, in order. *)
Fixpoint dedupe (seen : list string) (l : list string) : list string :=
  match l with
  | [] => []
  | x :: l' => if existsb (String.eqb x) seen then dedupe seen l'
               else x :: dedupe (x :: seen) l'
  end.

(** [parseInt(digits, 10)] on a run of decimal digits. *)
Definition parseInt (digits : text) : Z :=
  fold_left (fun acc c => (acc * 10 + Z.of_nat (code c - 48))%Z) digits 0%Z.

(** Double quote and line feed. *)
Definition dquote : ascii := ascii_of_nat 34.
Definition newline : ascii := ascii_of_nat 10.

(** ** Regular expressions

    The fragment the source's patterns are written in, with the matching
    order of a backtracking engine: alternatives left to right, quantifiers
    greedy.  No capturing group of the source stands under a quantifier, and
    the captures of a quantified body are not recorded. *)
Inductive regex : Type :=
| Eps
| Chr (p : ascii -> bool)
| Seq (r1 r2 : regex)
| Alt (r1 r2 : regex)
| Opt (r : regex)
| Star (r : regex)
| Plus (r : regex)
| Group (r : regex).

(** A way to match: the texts captured and the input left over. *)
Definition outcome : Type := list text * text.

(** Greedy iteration of [step], at most [n] times, each round consuming
    input. *)
Fixpoint iterate (step : text -> list outcome) (n : nat) (s : text)
  : list outcome :=
  match n with
  | O => [([], s)]
  | S n' =>
      flat_map (fun o : outcome =>
                  if (length (snd o) <? length s)%nat
                  then iterate step n' (snd o) else [])
               (step s)
      ++ [([], s)]
  end.

(** All the ways [r] matches a prefix of [s], in the engine's order of
    preference. *)
Fixpoint run (r : regex) (s : text) : list outcome :=
  match r with
  | Eps => [([], s)]
  | Chr p =>
      match s with
      | c :: s' => if p c then [([], s')] else []
      | [] => []
      end
  | Seq r1 r2 =>
      flat_map (fun o1 : outcome =>
                  List.map (fun o2 : outcome => (fst o1 ++ fst o2, snd o2))
                    (run r2 (snd o1)))
               (run r1 s)
  | Alt r1 r2 => run r1 s ++ run r2 s
  | Opt r1 => run r1 s ++ [([], s)]
  | Star r1 => iterate (run r1) (length s) s
  | Plus r1 =>
      flat_map (fun o1 : outcome =>
                  List.map (fun o2 : outcome => ([], snd o2))
                    (iterate (run r1) (length (snd o1)) (snd o1)))
               (run r1 s)
  | Group r1 =>
      List.map (fun o : outcome =>
                  (firstn (length s - length (snd o)) s :: fst o, snd o))
               (run r1 s)
  end.

(** A successful search: the text skipped, the text matched, the captures
    and the text after the match. *)
Record found : Type := mkFound {
  f_before : text;
  f_match : text;
  f_captures : list text;
  f_after : text
}.

(** [re.exec(s)]: the leftmost match, and at that position the preferred
    one. *)
Fixpoint exec_from (r : regex) (skipped : text) (s : text) : option found :=
  match run r s with
  | o :: _ =>
      Some (mkFound (rev skipped) (firstn (length s - length (snd o)) s)
              (fst o) (snd o))
  | [] =>
      match s with
      | [] => None
      | c :: s' => exec_from r (c :: skipped) s'
      end
  end.

Definition exec (r : regex) (s : text) : option found := exec_from r [] s.

(** [re.test(s)] *)
Definition test (r : regex) (s : string) : bool :=
  match exec r (chars s) with
  | Some _ => true
  | None => false
  end.

(** [s.match(re)] for a pattern with the [g] flag: every match, left to
    right; after an empty match the search resumes one character on. *)
Fixpoint match_all_fuel (fuel : nat) (r : regex) (s : text) : list text :=
  match fuel with
  | O => []
  | S fuel' =>
      match exec r s with
      | None => []
      | Some f =>
          f_match f ::
          match f_match f, f_after f with
          | [], [] => []
          | [], _ :: rest => match_all_fuel fuel' r rest
          | _ :: _, rest => match_all_fuel fuel' r rest
          end
      end
  end.

Definition match_all (r : regex) (s : string) : list string :=
  List.map str (match_all_fuel (S (String.length s)) r (chars s)).

(** [s.replace(re, rep)] for a pattern with the [g] flag. *)
Fixpoint replace_all_fuel (fuel : nat) (r : regex) (rep : text) (s : text)
  : text :=
  match fuel with
  | O => s
  | S fuel' =>
      match exec r s with
      | None => s
      | Some f =>
          f_before f ++ rep ++
          match f_match f, f_after f with
          | [], [] => []
          | [], c :: rest => c :: replace_all_fuel fuel' r rep rest
          | _ :: _, rest => replace_all_fuel fuel' r rep rest
          end
      end
  end.

Definition replace_all (r : regex) (rep : string) (s : string) : string :=
  str (replace_all_fuel (S (String.length s)) r (chars rep) (chars s)).

(** [s.split(re)]: [cur] holds, reversed, the piece being read; a separator
    that is empty at the start of a piece does not split. *)
Fixpoint split_fuel (fuel : nat) (r : regex) (cur : text) (s : text)
  : list text :=
  match fuel with
  | O => [rev cur ++ s]
  | S fuel' =>
      match s with
      | [] => [rev cur]
      | c :: s' =>
          match run r s with
          | o :: _ =>
              if (length (snd o) =? length s)%nat && (length cur =? 0)%nat
              then split_fuel fuel' r (c :: cur) s'
              else rev cur :: split_fuel fuel' r [] (snd o)
          | [] => split_fuel fuel' r (c :: cur) s'
          end
      end
  end.

Definition split (r : regex) (s : string) : list string :=
  match chars s with
  | [] => match run r [] with
          | _ :: _ => []
          | [] => [EmptyString]
          end
  | _ => List.map str (split_fuel (2 * String.length s + 1) r [] (chars s))
  end.

(** Pattern atoms. *)
Definition lit (c : ascii) : regex := Chr (Ascii.eqb c).
Definition lit_i (c : ascii) : regex :=
  Chr (fun x => Ascii.eqb (canonical x) (canonical c)).

(** A literal word, and a literal word under the [i] flag. *)
Definition word (w : string) : regex :=
  fold_right (fun c r => Seq (lit c) r) Eps (chars w).
Definition word_i (w : string) : regex :=
  fold_right (fun c r => Seq (lit_i c) r) Eps (chars w).

Definition re_space : regex := Chr is_space.
Definition re_digit : regex := Chr is_digit.

(* ------------------------------------------------------------------ *)
(** * Query enrichment: [parseTimeExpression], [extractFilePatterns] *)

Record TimeRange : Type := mkRange {
  tr_start : Z;
  tr_end : Z
}.

Record SearchFilters : Type := mkFilters {
  timeRange : option TimeRange;
  filePatterns : option (list string);
  languages : option (list string);
  eventTypes : option (list string);
  symbols : option (list string);
  branches : option (list string);
  sessions : option (list string)
}.

Definition no_filters : SearchFilters :=
  mkFilters None None None None None None None.

Module Millis.
Open Scope Z_scope.
Definition hour : Z := 60 * 60 * 1000.
Definition day : Z := 24 * 60 * 60 * 1000.
Definition week : Z := 7 * day.
Definition month : Z := 30 * day.
End Millis.

(** [/(\d+)\s*<unit>s?\s*ago/i] *)
Definition re_ago (unit : string) : regex :=
  Seq (Group (Plus re_digit))
    (Seq (Star re_space)
       (Seq (word_i unit)
          (Seq (Opt (lit_i "s"))
             (Seq (Star re_space) (word_i "ago"))))).

(** [/<first>\s*<second>/i] *)
Definition re_two_words (first second : string) : regex :=
  Seq (word_i first) (Seq (Star re_space) (word_i second)).

(** The pattern table of [parseTimeExpression]; a handler receives the
    captured groups. *)
Definition time_patterns (now : Z) : list (regex * (list text -> TimeRange)) :=
  let count (caps : list text) : Z := parseInt (nth 0 caps []) in
  [ (word_i "today", fun _ => mkRange (now - Millis.day) now);
    (word_i "yesterday",
      fun _ => mkRange (now - 2 * Millis.day) (now - Millis.day));
    (re_two_words "this" "week", fun _ => mkRange (now - Millis.week) now);
    (re_two_words "last" "week",
      fun _ => mkRange (now - 2 * Millis.week) (now - Millis.week));
    (re_two_words "this" "month", fun _ => mkRange (now - Millis.month) now);
    (re_two_words "last" "month",
      fun _ => mkRange (now - 2 * Millis.month) (now - Millis.month));
    (re_ago "hour",
      fun caps => mkRange (now - count caps * 60 * 60 * 1000) now);
    (re_ago "day", fun caps => mkRange (now - count caps * Millis.day) now);
    (re_ago "week", fun caps => mkRange (now - count caps * Millis.week) now)
  ]%Z.

Fixpoint first_match {A : Type} (patterns : list (regex * (list text -> A)))
  (s : text) : option A :=
  match patterns with
  | [] => None
  | (pattern, handler) :: rest =>
      match exec pattern s with
      | Some f => Some (handler (f_captures f))
      | None => first_match rest s
      end
  end.

(** [parseTimeExpression(expr)], with the reading [now] of the clock. *)
Definition parseTimeExpression (now : Z) (expr : string) : option TimeRange :=
  first_match (time_patterns now) (chars expr).

Definition is_letter (c : ascii) : bool := is_upper c || is_lower c.

(** [/(?:in|from|file[s]?)\s+([^\s,]+(?:\.[a-z]+)?)/gi] *)
Definition re_file : regex :=
  Seq (Alt (word_i "in")
         (Alt (word_i "from") (Seq (word_i "file") (Opt (lit_i "s")))))
    (Seq (Plus re_space)
       (Group
          (Seq (Plus (Chr (fun c => negb (is_space c || Ascii.eqb c ","))))
             (Opt (Seq (lit ".") (Plus (Chr is_letter))))))).

Definition languageKeywords : list (string * string) :=
  [ ("typescript", "**/*.ts"); ("javascript", "**/*.js");
    ("python", "**/*.py"); ("java", "**/*.java"); ("rust", "**/*.rs");
    ("go", "**/*.go"); ("ruby", "**/*.rb"); ("php", "**/*.php");
    ("css", "**/*.css"); ("html", "**/*.html") ]%string.

Definition extractFilePatterns (query : string) : list string :=
  let fileMatch := match_all re_file query in
  let explicit :=
    flat_map (fun m =>
                let parts := split (Plus re_space) m in
                if (1 <? length parts)%nat
                then [("**/" ++ last parts EmptyString ++ "*")%string]
                else [])
             fileMatch in
  let byLanguage :=
    flat_map (fun kp : string * string =>
                if includes (toLowerCase query) (fst kp) then [snd kp] else [])
             languageKeywords in
  dedupe [] (explicit ++ byLanguage).

(** [SearchEngine.enrichFilters] *)
Definition enrichFilters (now : Z) (query : string)
  (filters : option SearchFilters) : SearchFilters :=
  let enriched := nullish filters no_filters in
  let enriched :=
    match parseTimeExpression now query, timeRange enriched with
    | Some tr, None =>
        mkFilters (Some tr) (filePatterns enriched) (languages enriched)
          (eventTypes enriched) (symbols enriched) (branches enriched)
          (sessions enriched)
    | _, _ => enriched
    end in
  let patterns := extractFilePatterns query in
  if (0 <? length patterns)%nat
  then mkFilters (timeRange enriched)
         (Some (nullish (filePatterns enriched) [] ++ patterns))
         (languages enriched) (eventTypes enriched) (symbols enriched)
         (branches enriched) (sessions enriched)
  else enriched.
From Stdlib Require Import DecimalString.

(* ------------------------------------------------------------------ *)
(** * Reranker ([src/services/reranker.ts]) *)

Record RerankerDocument : Type := mkDoc {
  d_id : string;
  d_text : string;
  originalScore : option Q
}.

(** [RerankedResult].  As the interface declares it, the id is a string and
    the score a number ([RerankedResult]).  What the service builds from a
    decoded JSON body is not checked against the interface: there the id
    may be [undefined] and the score any value ([RerankedValue]). *)
Record Reranked (I S : Type) : Type := mkReranked {
  r_id : I;
  r_score : S;
  r_originalScore : option Q
}.
Arguments mkReranked {I S} r_id r_score r_originalScore.
Arguments r_id {I S} r.
Arguments r_score {I S} r.
Arguments r_originalScore {I S} r.

Definition RerankedResult : Type := Reranked string Q.
Definition RerankedValue : Type := Reranked (option string) (option json).

(** A result that keeps to the interface, as the value it is at run time. *)
Definition as_value (r : RerankedResult) : RerankedValue :=
  mkReranked (Some (r_id r)) (Some (JNum (r_score r))) (r_originalScore r).

Inductive Provider : Type := huggingface | local | cohere.

Record RerankerConfig : Type := mkConfig {
  provider : Provider;
  model : string;
  apiKey : option string;
  rc_topK : nat
}.

Record RerankerService : Type := mkReranker {
  config : RerankerConfig;
  enabled : bool
}.

(** Truthiness of an optional string: defined and not empty. *)
Definition truthy_string (s : option string) : bool :=
  match s with
  | Some (String _ _) => true
  | _ => false
  end.

(** [RerankerService.isEnabled] *)
Definition isEnabled (svc : RerankerService) : bool :=
  enabled svc && truthy_string (apiKey (config svc)).

(** ** Reading a decoded body *)

(** [v.name], for a name that no prototype defines ([label], [score],
    [results], [index], [relevance_score]): the property of an object, the
    last one of that name in the text, and [undefined] on every other value.
    Reading a property of [null] throws; the callers see to that case. *)
Definition member (name : string) (v : json) : option json :=
  match v with
  | JObj members => JsMap.get (JsMap.of_entries members) name
  | _ => None
  end.

Definition TypeError : Error := mkError "TypeError".

(** [item.label === 'LABEL_1' || item.label === 'entailment' ||
    item.label === '1'] *)
Definition is_positive (item : json) : bool :=
  match member "label" item with
  | Some (JStr l) =>
      String.eqb l "LABEL_1" || String.eqb l "entailment" || String.eqb l "1"
  | _ => false
  end.

(** [first.find(item => ..)]; reading [label] of [null] throws. *)
Fixpoint find_positive (items : list json) : Result (option json) :=
  match items with
  | [] => Ok None
  | JNull :: _ => Throw TypeError
  | item :: rest =>
      if is_positive item then Ok (Some item) else find_positive rest
  end.

(** [x?.score] *)
Definition score_of (x : option json) : option json :=
  match x with
  | Some v => member "score" v
  | None => None
  end.

(** [RerankerService.extractScoreFromResult]; the result [JNull] is
    [null].  A [score] that is there is returned as it is, whatever its
    type. *)
Definition extractScoreFromResult (result : json) : Result json :=
  match result with
  | JNum n => Ok (JNum n)
  | JArr [] => Ok JNull
  | JArr (first :: _) =>
      match first with
      | JNum n => Ok (JNum n)
      | JArr items =>
          match find_positive items with
          | Throw e => Throw e
          | Ok positive =>
              match score_of positive with
              | Some score => Ok score
              | None =>
                  match score_of (hd_error items) with
                  | Some score => Ok score
                  | None => Ok JNull
                  end
              end
          end
      | _ =>
          match score_of (Some first) with
          | Some score => Ok score
          | None => Ok JNull
          end
      end
  | JObj _ =>
      match member "score" result with
      | Some score => Ok score
      | None => Ok JNull
      end
  | _ => Ok JNull
  end.

(** ** The scoring backend *)

(** What a [fetch] to the scoring endpoint comes to: it rejects, or it
    answers with a status that is not ok (and a body text), or with an ok
    status and a body that [json()] decodes or fails to decode. *)
Inductive response : Type :=
| Rejected (e : Error)
| NotOk (status : nat) (text : Result string)
| OkBody (body : Result json).

(** The two request bodies [rerankWithHuggingFace] sends. *)
Inductive hf_request : Type :=
| TextPair (text text_pair : string)
| Separated (inputs : string).

(** What the [fetch] to the Cohere endpoint comes to. *)
Inductive cohere_response : Type :=
| CRejected (e : Error)
| CNotOk (status : nat) (text : string)
| COkBody (body : Result json).

Record Backend : Type := mkBackend {
  (** the answer to the request sent for the document at position [n] *)
  hf_fetch : nat -> hf_request -> response;
  cohere_fetch : string -> list string -> nat -> cohere_response;
  (** the engine the service runs on *)
  runtime : Runtime
}.

(** [RerankerService.passthroughRerank].  The scores are the documents'
    own, numbers all of them: the comparator is a consistent one and the
    entries keep to the interface. *)
Definition passthroughRerank (documents : list RerankerDocument) (topK : nat)
  : list RerankedValue :=
  List.map as_value
    (slice0 topK
       (sort (fun a b => r_score b - r_score a)
          (List.map (fun doc =>
                       mkReranked (d_id doc) (nullish (originalScore doc) 0)
                         (originalScore doc))
             documents))).

(** The body of the loop of [rerankWithHuggingFace] for the document at
    position [n]: the value pushed for it.  Every failure inside the inner
    [try], and a score that is [null], pushes the document's own score. *)
Definition hf_score (backend : Backend) (query : string) (n : nat)
  (doc : RerankerDocument) : json :=
  let fallback := JNum (nullish (originalScore doc) 0) in
  let from_body (body : Result json) : json :=
    match body with
    | Throw _ => fallback
    | Ok result =>
        match extractScoreFromResult result with
        | Throw _ => fallback
        | Ok JNull => fallback
        | Ok score => score
        end
    end in
  match hf_fetch backend n (TextPair query (slice_str 512 (d_text doc))) with
  | Rejected _ => fallback
  | OkBody body => from_body body
  | NotOk _ _ =>
      match hf_fetch backend n
              (Separated (query ++ " [SEP] " ++ slice_str 512 (d_text doc)))
      with
      | Rejected _ => fallback
      | NotOk _ _ => fallback
      | OkBody body => from_body body
      end
  end.

Definition hf_scores (backend : Backend) (query : string)
  (documents : list RerankerDocument) : list json :=
  forEach (fun scores doc n => scores ++ [hf_score backend query n doc])
    documents [].

(** [documents.map((doc, idx) => ({ id, score: scores[idx] ?? 0,
    originalScore }))] *)
Fixpoint zip_scores (idx : nat) (scores : list json)
  (documents : list RerankerDocument) : list RerankedValue :=
  match documents with
  | [] => []
  | doc :: rest =>
      mkReranked (Some (d_id doc))
        (Some match nth_error scores idx with
              | Some JNull | None => JNum 0
              | Some score => score
              end)
        (originalScore doc)
      :: zip_scores (S idx) scores rest
  end.

(** [(a, b) => b.score - a.score] on values *)
Definition compareScores (rt : Runtime) (a b : RerankedValue) : option Q :=
  minus (ToNumber rt (r_score b)) (ToNumber rt (r_score a)).

(** [RerankerService.rerankWithHuggingFace] *)
Definition rerankWithHuggingFace (svc : RerankerService) (backend : Backend)
  (query : string) (documents : list RerankerDocument) (topK : nat)
  : list RerankedValue :=
  if negb (truthy_string (apiKey (config svc)))
  then passthroughRerank documents topK
  else
    let scores := hf_scores backend query documents in
    let reranked := zip_scores 0 scores documents in
    slice0 topK
      (Array_sort (runtime backend) (compareScores (runtime backend))
         reranked).

(** ** Indexing the documents with a decoded value *)

(** The decimal numeral of a position. *)
Definition numeral (n : nat) : string :=
  NilZero.string_of_uint (Nat.to_uint n).

(** The natural number a number is, if it is one. *)
Definition as_nat (n : Q) : option nat :=
  let r := Qred n in
  if (Qden r =? 1)%positive && (0 <=? Qnum r)%Z
  then Some (Z.to_nat (Qnum r))
  else None.

Definition join_keys (keys : list (option string)) : option string :=
  if forallb (fun k => match k with Some _ => true | None => false end) keys
  then Some (join "," (List.map (fun k => nullish k EmptyString) keys))
  else None.

(** [ToPropertyKey(v)], the text a value is looked up by.  [None] stands
    for a text with the numeral of a number that is not a natural number in
    it: the numeral of no position and the name of no property. *)
Fixpoint property_key (v : json) : option string :=
  match v with
  | JNull => Some "null"%string
  | JBool true => Some "true"%string
  | JBool false => Some "false"%string
  | JNum n => option_map numeral (as_nat n)
  | JStr s => Some s
  | JArr elements =>
      join_keys
        (List.map (fun e => match e with
                            | JNull => Some EmptyString
                            | _ => property_key e
                            end)
           elements)
  | JObj _ => Some "[object Object]"%string
  end.

(** What [documents[index]] is: a document, a value that is no document
    (the length of the array, an inherited method), or [undefined]. *)
Inductive looked_up : Type :=
| Document (doc : RerankerDocument)
| NotDocument
| Undefined.

Definition at_position (documents : list RerankerDocument) (i : nat)
  : looked_up :=
  match nth_error documents i with
  | Some doc => Document doc
  | None => Undefined
  end.

(** [documents[index]] *)
Definition element_at (rt : Runtime) (documents : list RerankerDocument)
  (index : option json) : looked_up :=
  match index with
  | Some (JNum n) =>
      match as_nat n with
      | Some i => at_position documents i
      | None => Undefined
      end
  | _ =>
      match match index with
            | Some v => property_key v
            | None => Some "undefined"%string
            end
      with
      | None => Undefined
      | Some key =>
          match find (fun i => String.eqb key (numeral i))
                  (seq 0 (length documents))
          with
          | Some i => at_position documents i
          | None =>
              if String.eqb key "length" || inherited rt key
              then NotDocument else Undefined
          end
      end
  end.

(** [result.results.map(r => ({ id: documents[r.index].id, score:
    r.relevance_score, originalScore: documents[r.index].originalScore }))]:
    reading [index] of [null] throws, and so does reading [id] of
    [undefined]; a value that is no document has neither [id] nor
    [originalScore]. *)
Fixpoint cohere_results (rt : Runtime) (documents : list RerankerDocument)
  (rs : list json) : Result (list RerankedValue) :=
  match rs with
  | [] => Ok []
  | JNull :: _ => Throw TypeError
  | r :: rest =>
      match element_at rt documents (member "index" r) with
      | Undefined => Throw TypeError
      | found =>
          match cohere_results rt documents rest with
          | Throw e => Throw e
          | Ok out =>
              Ok (match found with
                  | Document doc =>
                      mkReranked (Some (d_id doc))
                        (member "relevance_score" r) (originalScore doc)
                  | _ => mkReranked None (member "relevance_score" r) None
                  end
                  :: out)
          end
      end
  end.

(** [RerankerService.rerankWithCohere]: a failed request, a status that is
    not ok, a body that does not decode, a body without a [results] array
    and an element that throws all end in [passthroughRerank]. *)
Definition rerankWithCohere (svc : RerankerService) (backend : Backend)
  (query : string) (documents : list RerankerDocument) (topK : nat)
  : list RerankedValue :=
  if negb (truthy_string (apiKey (config svc)))
  then passthroughRerank documents topK
  else
    let model :=
      if truthy_string (Some (model (config svc))) then model (config svc)
      else "rerank-english-v3.0"%string in
    match cohere_fetch backend model (List.map d_text documents) topK with
    | COkBody (Ok result) =>
        match member "results" result with
        | Some (JArr rs) =>
            match cohere_results (runtime backend) documents rs with
            | Ok reranked => reranked
            | Throw _ => passthroughRerank documents topK
            end
        | _ => passthroughRerank documents topK
        end
    | _ => passthroughRerank documents topK
    end.

(** [RerankerService.rerank] *)
Definition rerank (svc : RerankerService) (backend : Backend)
  (query : string) (documents : list RerankerDocument) (topK : option nat)
  : list RerankedValue :=
  if negb (enabled svc) || (length documents =? 0)%nat
  then List.map (fun doc =>
                   as_value
                     (mkReranked (d_id doc) (nullish (originalScore doc) 0)
                        (originalScore doc)))
         documents
  else
    let limit := nullish topK (rc_topK (config svc)) in
    match provider (config svc) with
    | huggingface => rerankWithHuggingFace svc backend query documents limit
    | cohere => rerankWithCohere svc backend query documents limit
    | local => passthroughRerank documents limit
    end.

(** [prepareDocumentForReranking] *)
Definition prepareDocumentForReranking (change : ChangeRecord) : string :=
  let parts := [("File: " ++ c_filePath change)%string] in
  let parts :=
    if (0 <? length (c_symbols change))%nat
    then parts ++ [("Symbols: " ++ join ", " (c_symbols change))%string]
    else parts in
  let parts :=
    match c_summary change with
    | Some (String c s) => parts ++ [("Summary: " ++ String c s)%string]
    | _ => parts
    end in
  let diffPreview := slice_str 500 (c_diff change) in
  let parts :=
    match diffPreview with
    | String _ _ => parts ++ [("Changes: " ++ diffPreview)%string]
    | EmptyString => parts
    end in
  join (String newline EmptyString) parts.

(* ------------------------------------------------------------------ *)
(** * The search engine ([src/services/search.ts]) *)

Record VectorRecord : Type := mkVectorRecord {
  vr_changeId : string;
  vr_vector : list Q
}.

Record SearchHighlight : Type := mkHighlight {
  field : string;
  snippet : string;
  matchedTerms : list string
}.

Record SearchResult : Type := mkResult {
  sr_change : ChangeRecord;
  sr_score : Q;
  sr_vectorScore : option Q;
  sr_keywordScore : option Q;
  highlights : option (list SearchHighlight)
}.

Record SearchQuery : Type := mkQuery {
  naturalLanguage : string;
  q_filters : option SearchFilters;
  q_hybridParams : option HybridSearchParams
}.

(** The collaborators of the engine. *)
Record Env : Type := mkEnv {
  (** [Date.now()] *)
  now : Z;
  (** [EmbeddingService.embed] *)
  embed : string -> Result (list Q);
  (** [VectorStore.search] *)
  vectorStore_search :
    list Q -> nat -> option SearchFilters -> Result (list VectorSearchResult);
  (** [VectorStore.getVectorByChangeId] *)
  getVectorByChangeId : string -> Result (option VectorRecord);
  (** [MetadataDatabase.searchChanges] *)
  searchChanges : string -> string -> nat -> Result (list KeywordResult);
  (** [MetadataDatabase.getChange] *)
  getChange : string -> Result (option ChangeRecord);
  (** the HTTP endpoints of the reranker *)
  backend : Backend
}.

Record SearchEngine : Type := mkEngine {
  workspaceId : string;
  useReranker : bool;
  reranker : RerankerService
}.

Open Scope result_scope.

(** [EmbeddingService.embedQuery] *)
Definition embedQuery (env : Env) (query : string) : Result (list Q) :=
  embed env ("search query: " ++ query).

(** [SearchEngine.vectorSearch] *)
Definition vectorSearch (env : Env) (query : string) (topK : nat)
  (filters : option SearchFilters) : Result (list VectorSearchResult) :=
  catch
    (queryVector <- embedQuery env query ;;
     results <- vectorStore_search env queryVector topK filters ;;
     Ok results)
    (fun _ => Ok []).

(** The character class of [prepareFTSQuery]: quote, double quote, star,
    the two parentheses, caret and hyphen. *)
Definition re_fts_special : regex :=
  Chr (fun c => existsb (Ascii.eqb c)
                  ["'"%char; dquote; "*"%char; "("%char; ")"%char; "^"%char;
                   "-"%char]).

(** The terms [prepareFTSQuery] splits the query into, before it drops the
    short ones. *)
Definition fts_tokens (query : string) : list string :=
  split (Plus re_space) (trim (replace_all re_fts_special " " query)).

(** [SearchEngine.prepareFTSQuery] *)
Definition prepareFTSQuery (query : string) : string :=
  let cleaned :=
    join " OR "
      (List.map (fun term =>
                   (String dquote term ++ String dquote "*")%string)
         (List.filter (fun term => (1 <? String.length term)%nat)
            (fts_tokens query))) in
  match cleaned with
  | EmptyString => query
  | _ => cleaned
  end.

(** [SearchEngine.keywordSearch] *)
Definition keywordSearch (engine : SearchEngine) (env : Env) (query : string)
  (topK : nat) : Result (list KeywordResult) :=
  catch
    (let ftsQuery := prepareFTSQuery query in
     results <- searchChanges env (workspaceId engine) ftsQuery topK ;;
     Ok results)
    (fun _ => Ok []).

(** [SearchEngine.extractQueryTerms] *)
Definition extractQueryTerms (query : string) : list string :=
  List.filter (fun term => (2 <? String.length term)%nat)
    (split (Plus re_space)
       (replace_all (Chr (fun c => negb (is_word c || is_space c))) " "
          (toLowerCase query))).

Definition mentions (haystack term : string) : bool :=
  includes (toLowerCase haystack) (toLowerCase term).

(** [SearchEngine.generateHighlights] *)
Definition generateHighlights (change : ChangeRecord) (queryTerms : list string)
  : list SearchHighlight :=
  let pathMatches := List.filter (mentions (c_filePath change)) queryTerms in
  let h1 :=
    if (0 <? length pathMatches)%nat
    then [mkHighlight "filePath" (c_filePath change) pathMatches] else [] in
  let symbolMatches :=
    List.filter (fun symbol => existsb (mentions symbol) queryTerms)
      (c_symbols change) in
  let h2 :=
    if (0 <? length symbolMatches)%nat
    then [mkHighlight "symbols" (join ", " symbolMatches) symbolMatches]
    else [] in
  let diffLines := split_char newline (c_diff change) in
  let matchingLines :=
    slice0 5
      (List.filter (fun line => existsb (mentions line) queryTerms) diffLines) in
  let h3 :=
    if (0 <? length matchingLines)%nat
    then [mkHighlight "diff" (join (String newline EmptyString) matchingLines)
            (List.filter
               (fun term => existsb (fun line => mentions line term)
                              matchingLines)
               queryTerms)]
    else [] in
  let h4 :=
    match c_summary change with
    | Some (String c s) =>
        let summaryMatches :=
          List.filter (mentions (String c s)) queryTerms in
        if (0 <? length summaryMatches)%nat
        then [mkHighlight "summary" (String c s) summaryMatches] else []
    | _ => []
    end in
  h1 ++ h2 ++ h3 ++ h4.

(** A [for .. of] loop that reads the metadata store for each element and
    pushes a value for the records it finds. *)
Fixpoint collect {A B : Type} (env : Env) (key : A -> string)
  (make : A -> ChangeRecord -> B) (l : list A) : Result (list B) :=
  match l with
  | [] => Ok []
  | x :: l' =>
      change <- getChange env (key x) ;;
      rest <- collect env key make l' ;;
      Ok (match change with
          | Some c => make x c :: rest
          | None => rest
          end)
  end.

(** [SearchEngine.hydrateResults] *)
Definition hydrateResults (env : Env) (rankedResults : list RankedResult)
  (query : string) (limit : nat) : Result (list SearchResult) :=
  let queryTerms := extractQueryTerms query in
  collect env changeId
    (fun ranked change =>
       mkResult change (rrfScore ranked) (vectorScore ranked)
         (keywordScore ranked)
         (Some (generateHighlights change queryTerms)))
    (slice0 limit rankedResults).

(** The comparator of the sort in [applyReranking]. *)
Definition compareReranked (rt : Runtime) (a b : RankedResult) : option Q :=
  match rerankerScore a, rerankerScore b with
  | Some ra, Some rb => minus (ToNumber rt (Some rb)) (ToNumber rt (Some ra))
  | _, _ => Some (rrfScore b - rrfScore a)
  end.

(** [new Map(reranked.map(r => [r.id, r.score]))].  The keys looked up are
    change ids, so an entry under the key [undefined] is never found and
    is left out. *)
Definition rerankerScoreMap (reranked : list RerankedValue)
  : JsMap.t (option json) :=
  JsMap.of_entries
    (flat_map (fun r => match r_id r with
                        | Some id => [(id, r_score r)]
                        | None => []
                        end)
       reranked).

(** [rerankerScoreMap.get(id)]: a score that is [undefined] and a missing
    entry are the same to the caller. *)
Definition score_for (reranked : list RerankedValue) (id : string)
  : option json :=
  match JsMap.get (rerankerScoreMap reranked) id with
  | Some score => score
  | None => None
  end.

(** The part of [applyReranking] after the documents are prepared. *)
Definition rerankAndSort (engine : SearchEngine) (env : Env) (query : string)
  (rankedResults : list RankedResult) (documents : list RerankerDocument)
  : list RankedResult :=
  let reranked :=
    rerank (reranker engine) (backend env) query documents
      (Some SEARCH_DEFAULTS.MAX_RESULTS) in
  let updatedResults :=
    List.map (fun r => set_rerankerScore r (score_for reranked (changeId r)))
      rankedResults in
  Array_sort (runtime (backend env))
    (compareReranked (runtime (backend env))) updatedResults.

(** [SearchEngine.applyReranking] *)
Definition applyReranking (engine : SearchEngine) (env : Env) (query : string)
  (rankedResults : list RankedResult) : Result (list RankedResult) :=
  catch
    (documents <-
       collect env changeId
         (fun result change =>
            mkDoc (changeId result) (prepareDocumentForReranking change)
              (Some (rrfScore result)))
         (slice0 RERANKER_DEFAULTS.TOP_K rankedResults) ;;
     if (length documents =? 0)%nat then Ok rankedResults
     else Ok (rerankAndSort engine env query rankedResults documents))
    (fun _ => Ok rankedResults).

(** [SearchEngine.search] *)
Definition search (engine : SearchEngine) (env : Env) (query : SearchQuery)
  : Result (list SearchResult) :=
  catch
    (let enrichedFilters :=
       enrichFilters (now env) (naturalLanguage query) (q_filters query) in
     let hybridParams :=
       mkParams
         (nullish (option_map vectorWeight (q_hybridParams query))
            SEARCH_DEFAULTS.VECTOR_WEIGHT)
         (nullish (option_map keywordWeight (q_hybridParams query))
            SEARCH_DEFAULTS.KEYWORD_WEIGHT)
         (nullish (option_map rerankTopK (q_hybridParams query))
            SEARCH_DEFAULTS.RERANK_TOP_K) in
     vectorResults <-
       vectorSearch env (naturalLanguage query) (rerankTopK hybridParams)
         (Some enrichedFilters) ;;
     keywordResults <-
       keywordSearch engine env (naturalLanguage query)
         (rerankTopK hybridParams) ;;
     let normalizedVector := normalizedVectorOf vectorResults in
     let normalizedKeyword := normalizedKeywordOf keywordResults in
     let rankedResults :=
       reciprocalRankFusion hybridParams normalizedVector normalizedKeyword
         vectorResults keywordResults in
     finalRanked <-
       (if useReranker engine && isEnabled (reranker engine)
           && (0 <? length rankedResults)%nat
        then applyReranking engine env (naturalLanguage query) rankedResults
        else Ok rankedResults) ;;
     results <-
       hydrateResults env finalRanked (naturalLanguage query)
         SEARCH_DEFAULTS.MAX_RESULTS ;;
     Ok results)
    (fun error => Throw error).

(** [SearchEngine.findSimilar] *)
Definition findSimilar (env : Env) (changeId : string) (topK : nat)
  : Result (list SearchResult) :=
  change <- getChange env changeId ;;
  match change with
  | None => Throw (mkError ("Change not found: " ++ changeId))
  | Some _ =>
      vectorRecord <- getVectorByChangeId env changeId ;;
      match vectorRecord with
      | None => Throw (mkError ("No embedding found for change: " ++ changeId))
      | Some record =>
          similar <- vectorStore_search env (vr_vector record) (topK + 1) None ;;
          let filtered :=
            List.filter (fun r => negb (String.eqb (v_changeId r) changeId))
              similar in
          collect env v_changeId
            (fun result relatedChange =>
               mkResult relatedChange (v_score result) (Some (v_score result))
                 None None)
            (slice0 topK filtered)
      end
  end.

Close Scope result_scope.

(* ------------------------------------------------------------------ *)
(** * Further operations of the reranker service *)

Module Reranker.

(** [RerankerService.normalizeScores] *)
Definition normalizeScores (results : list RerankedResult)
  : list RerankedResult :=
  match List.map r_score results with
  | [] => []
  | h :: t =>
      let minScore := Math_min h t in
      let maxScore := Math_max h t in
      let range := maxScore - minScore in
      if Qeq_bool range 0
      then List.map (fun r => mkReranked (r_id r) 1 (r_originalScore r))
             results
      else List.map (fun r =>
                       mkReranked (r_id r) ((r_score r - minScore) / range)
                         (r_originalScore r))
             results
  end.

(** [Partial<RerankerConfig>]: the properties an update carries. *)
Record PartialConfig : Type := mkPartial {
  p_provider : option Provider;
  p_model : option string;
  p_apiKey : option string;
  p_topK : option nat
}.

(** [RerankerService.updateConfig]: [Object.assign(this.config, config)]. *)
Definition updateConfig (svc : RerankerService) (update : PartialConfig)
  : RerankerService :=
  mkReranker
    (mkConfig (nullish (p_provider update) (provider (config svc)))
       (nullish (p_model update) (model (config svc)))
       (match p_apiKey update with
        | Some key => Some key
        | None => apiKey (config svc)
        end)
       (nullish (p_topK update) (rc_topK (config svc))))
    (enabled svc).

(** [RerankerService.setEnabled] *)
Definition setEnabled (svc : RerankerService) (on : bool) : RerankerService :=
  mkReranker (config svc) on.

End Reranker.

(** [SearchEngine.setRerankerEnabled] *)
Definition setRerankerEnabled (engine : SearchEngine) (on : bool)
  (apiKey : option string) : SearchEngine :=
  let svc :=
    if truthy_string apiKey
    then Reranker.updateConfig (reranker engine)
           (Reranker.mkPartial None None apiKey None)
    else reranker engine in
  mkEngine (workspaceId engine) on (Reranker.setEnabled svc on).

(** [SearchEngine.updateRerankerConfig] *)
Definition updateRerankerConfig (engine : SearchEngine)
  (update : Reranker.PartialConfig) : SearchEngine :=
  mkEngine (workspaceId engine) (useReranker engine)
    (Reranker.updateConfig (reranker engine) update).
From Stdlib Require Import DecimalString.

(* ------------------------------------------------------------------ *)
(** * Utilities (src/utils)

    A [number] that the source uses as a length, an index or a count of
    milliseconds is an integer here; where the source does not restrict
    its sign it is a [Z], negative values included. *)

(** How a promise settles: fulfilled with a value, or rejected with what was
    thrown - an [Error], or [undefined] ([None]). *)

Inductive Settled (T : Type) : Type :=
| Fulfilled (value : T)
| RejectedWith (reason : option Error).
Arguments Fulfilled {T} value.
Arguments RejectedWith {T} reason.

(** A run of [retry]: how it settled, how often [fn] was called, and for
    how many milliseconds it slept in between. *)
Record Attempted (T : Type) : Type := mkAttempted {
  settled : Settled T;
  calls : nat;
  slept : Z
}.
Arguments mkAttempted {T} settled calls slept.
Arguments settled {T} a.
Arguments calls {T} a.
Arguments slept {T} a.

Section Utilities.
Local Open Scope Z_scope.

(** [`${n}`] for an integer [n] *)
Definition show (n : Z) : string := NilZero.string_of_int (Z.to_int n).

(** [s.substring(0, n)]: a negative [n] counts as 0. *)
Definition substring0 (n : Z) (s : string) : string :=
  str (firstn (Z.to_nat n) (chars s)).

(** [s.substring(n)] *)
Definition substring_from (n : nat) (s : string) : string :=
  str (skipn n (chars s)).

(** [s.startsWith(p)] *)
Definition startsWith (s p : string) : bool := starts_with (chars p) (chars s).

(** The index arguments of [Array.prototype.slice]: a negative index counts
    from the end, and both ends are clamped to the array. *)
Definition relative_index (len i : Z) : Z :=
  if i <? 0 then Z.max (len + i) 0 else Z.min i len.

(** [array.slice(from, to)] *)
Definition slice {T : Type} (array : list T) (from to : Z) : list T :=
  let len := Z.of_nat (length array) in
  let k := relative_index len from in
  let final := relative_index len to in
  firstn (Z.to_nat (final - k)) (skipn (Z.to_nat k) array).

(** ** Paths *)

Definition backslash : ascii := ascii_of_nat 92.

(** [normalizePath]: [filePath.replace(/\\/g, '/')] *)
Definition normalizePath (filePath : string) : string :=
  replace_all (lit backslash) "/" filePath.

(** [getRelativePath] *)
Definition getRelativePath (absolutePath workspaceRoot : string) : string :=
  let normalized := normalizePath absolutePath in
  let normalizedRoot := normalizePath workspaceRoot in
  if startsWith normalized normalizedRoot
  then substring_from (String.length normalizedRoot + 1) normalized
  else normalized.

(** ** Relative time

    [Date.now()] is the parameter [now]; [Math.floor(x / c)] on integers is
    the floor division of [Z]. *)

Definition plural (n : Z) : string := if 1 <? n then "s" else EmptyString.

(** [formatRelativeTime] *)
Definition formatRelativeTime (now timestamp : Z) : string :=
  let diff := now - timestamp in
  let seconds := diff / 1000 in
  let minutes := seconds / 60 in
  let hours := minutes / 60 in
  let days := hours / 24 in
  let weeks := days / 7 in
  let months := days / 30 in
  if seconds <? 60 then "just now"%string
  else if minutes <? 60
  then (show minutes ++ " minute" ++ plural minutes ++ " ago")%string
  else if hours <? 24
  then (show hours ++ " hour" ++ plural hours ++ " ago")%string
  else if days <? 7
  then (show days ++ " day" ++ plural days ++ " ago")%string
  else if weeks <? 4
  then (show weeks ++ " week" ++ plural weeks ++ " ago")%string
  else (show months ++ " month" ++ plural months ++ " ago")%string.

(** ** Text *)

(** [truncateText] *)
Definition truncateText (text : string) (maxLength : Z) : string :=
  if Z.of_nat (String.length text) <=? maxLength
  then text
  else (substring0 (maxLength - 3) text ++ "...")%string.

(** ** Batches

    The [for] loop of [batchArray], every test of its condition costing one
    unit of fuel: [None] is a loop still running when the fuel is spent. *)

Fixpoint batchArray_from {T : Type} (fuel : nat) (array : list T)
  (batchSize i : Z) (batches : list (list T)) : option (list (list T)) :=
  match fuel with
  | O => None
  | S fuel' =>
      if i <? Z.of_nat (length array)
      then batchArray_from fuel' array batchSize (i + batchSize)
             (batches ++ [slice array i (i + batchSize)])
      else Some batches
  end.

(** [batchArray] *)
Definition batchArray {T : Type} (fuel : nat) (array : list T)
  (batchSize : Z) : option (list (list T)) :=
  batchArray_from fuel array batchSize 0 [].

(** ** Retrying *)

(** The [for] loop of [retry]; [fn attempt] is the way the call of [fn]
    made in the iteration [attempt] settles, [remaining] the number of
    iterations left. *)
Fixpoint retry_from {T : Type} (fn : nat -> Result T) (maxRetries : nat)
  (baseDelay : Z) (remaining attempt : nat) (lastError : option Error)
  (asleep : Z) : Attempted T :=
  match remaining with
  | O => mkAttempted (RejectedWith lastError) attempt asleep
  | S remaining' =>
      match fn attempt with
      | Ok value => mkAttempted (Fulfilled value) (S attempt) asleep
      | Throw error =>
          let asleep' :=
            if (attempt <? maxRetries - 1)%nat
            then asleep + baseDelay * 2 ^ Z.of_nat attempt
            else asleep in
          retry_from fn maxRetries baseDelay remaining' (S attempt)
            (Some error) asleep'
      end
  end.

(** [retry] *)
Definition retry {T : Type} (fn : nat -> Result T) (maxRetries : nat)
  (baseDelay : Z) : Attempted T :=
  retry_from fn maxRetries baseDelay maxRetries 0%nat None 0.

End Utilities.

(* ------------------------------------------------------------------ *)
(** * The embedding service (src/services/embedding.ts)

    A provider is its [embed] call: for a text and the number of the attempt
    within one [retry], the vector it returns or the error it throws.
    [generateContentHash] (SHA-256 of the text, in hexadecimal) is a
    parameter. *)

Module Embedding.

Definition Provider : Type := string -> nat -> Result (list Q).

Record EmbeddingService : Type := mkService {
  provider : option Provider;
  providerName : string;
  embeddingCache : JsMap.t (list Q)
}.

(** [Map.prototype.delete] *)
Definition delete (cache : JsMap.t (list Q)) (key : string)
  : JsMap.t (list Q) :=
  filter (fun entry => negb (String.eqb (fst entry) key)) cache.

(** The cache limit of [embed]: beyond 1000 entries the first key in
    insertion order is deleted, if it is truthy. *)
Definition limit (cache : JsMap.t (list Q)) : JsMap.t (list Q) :=
  if (1000 <? length cache)%nat
  then match JsMap.keys cache with
       | firstKey :: _ =>
           if truthy_string (Some firstKey) then delete cache firstKey
           else cache
       | [] => cache
       end
  else cache.

Section Service.
Variable generateContentHash : string -> string.

(** [EmbeddingService.embed]: how the call settles, and the service after
    it. *)
Definition embed (svc : EmbeddingService) (text : string)
  : Settled (list Q) * EmbeddingService :=
  match provider svc with
  | None =>
      (RejectedWith (Some (mkError
         ("Embedding provider not configured. Please configure your "
          ++ providerName svc ++ " API key in Settings > Embedding Settings."))),
       svc)
  | Some p =>
      let cacheKey := generateContentHash text in
      match JsMap.get (embeddingCache svc) cacheKey with
      | Some cached => (Fulfilled cached, svc)
      | None =>
          match settled (retry (p text) 3 1000) with
          | Fulfilled embedding =>
              (Fulfilled embedding,
               mkService (provider svc) (providerName svc)
                 (limit (JsMap.set (embeddingCache svc) cacheKey embedding)))
          | RejectedWith reason => (RejectedWith reason, svc)
          end
      end
  end.

(** [EmbeddingService.embedQuery] *)
Definition embedQuery (svc : EmbeddingService) (query : string)
  : Settled (list Q) * EmbeddingService :=
  embed svc ("search query: " ++ query).

(** [EmbeddingService.checkAvailability] *)
Definition checkAvailability (svc : EmbeddingService)
  : bool * EmbeddingService :=
  match embed svc "test" with
  | (Fulfilled _, svc') => (true, svc')
  | (RejectedWith _, svc') => (false, svc')
  end.

End Service.

(** [EmbeddingService.clearCache] *)
Definition clearCache (svc : EmbeddingService) : EmbeddingService :=
  mkService (provider svc) (providerName svc) JsMap.empty.

End Embedding.

(* ------------------------------------------------------------------ *)
(** * Mean pooling (class HuggingFaceEmbeddingProvider)

    The body the inference API answers with is a vector, or one vector per
    token.  An entry of the pooled vector is a number or [NaN] ([None]):
    adding [undefined], the entry a token does not have, gives [NaN]. *)

Module HuggingFaceEmbeddingProvider.

Inductive Payload : Type :=
| Flat (vector : list Q)
| Nested (tokens : list (list Q)).

Definition number : Type := option Q.

(** [a + b], with [b] possibly [undefined] *)
Definition plus (a : number) (b : option Q) : number :=
  match a, b with
  | Some x, Some y => Some (x + y)
  | _, _ => None
  end.

(** [v / n] *)
Definition over (n : nat) (v : number) : number :=
  match v with
  | Some x => Some (x / Qnat n)
  | None => None
  end.

(** [for (let i = 0; i < dimensions; i++) result[i] += token[i]] *)
Definition add_token (dimensions : nat) (result : list number)
  (token : list Q) : list number :=
  List.map (fun i => plus (nth i result None) (nth_error token i))
    (seq 0 dimensions).

(** [meanPool] *)
Definition meanPool (embedding : Payload) : list number :=
  match embedding with
  | Flat vector => List.map Some vector
  | Nested [] => []
  | Nested ((first :: _) as tokens) =>
      let dimensions := length first in
      let result := repeat (Some 0) dimensions in
      let result := fold_left (add_token dimensions) tokens result in
      List.map (over (length tokens)) result
  end.

End HuggingFaceEmbeddingProvider.
(* ------------------------------------------------------------------ *)
(** * Vocabulary of the statements *)

Definition vector_ids (vs : list VectorSearchResult) : list string :=
  List.map v_changeId vs.

Definition keyword_ids (ks : list KeywordResult) : list string :=
  List.map (fun r => c_id (k_change r)) ks.

(** The RRF contribution of a leg with weight [w] at 0-based position
    [index], that is at rank [index + 1]. *)
Definition contribution (w : Q) (index : nat) : Q :=
  w * (1 / (SEARCH_DEFAULTS.RRF_K + Qnat (index + 1))).

Definition nv_lookup (nv : NormalizedScores) (id : string) : Q :=
  nullish (JsMap.get (normalizedVectorMap nv) id) 0.

Definition nk_lookup (nk : NormalizedScores) (id : string) : Q :=
  nullish (JsMap.get (normalizedKeywordMap nk) id) 0.

(** The entry the vector pass stores for the result [v] at position
    [index]. *)
Definition vector_entry (params : HybridSearchParams) (nv : NormalizedScores)
  (v : VectorSearchResult) (index : nat) : RankedResult :=
  mkRanked (v_changeId v) (Some (index + 1)%nat) None (Some (v_score v)) None
    (Some (nv_lookup nv (v_changeId v))) None
    (contribution (vectorWeight params) index) None.

(** The entry the keyword pass stores for the result [r] at position
    [index], given the entry [existing] found under its id. *)
Definition keyword_entry (params : HybridSearchParams) (nk : NormalizedScores)
  (existing : option RankedResult) (r : KeywordResult) (index : nat)
  : RankedResult :=
  match existing with
  | Some ex =>
      mkRanked (changeId ex) (vectorRank ex) (Some (index + 1)%nat)
        (vectorScore ex) (Some (Qabs (k_rank r)))
        (normalizedVectorScore ex) (Some (nk_lookup nk (c_id (k_change r))))
        (rrfScore ex + contribution (keywordWeight params) index)
        (rerankerScore ex)
  | None =>
      mkRanked (c_id (k_change r)) None (Some (index + 1)%nat) None
        (Some (Qabs (k_rank r))) None (Some (nk_lookup nk (c_id (k_change r))))
        (contribution (keywordWeight params) index) None
  end.

(** What the score map records about candidate [id] once the vector
    results [vs] and the keyword results [ks] have been processed. *)
Definition entry_ok (nv nk : NormalizedScores)
  (vs : list VectorSearchResult) (ks : list KeywordResult)
  (id : string) (e : RankedResult) : Prop :=
  changeId e = id
  /\ (truthy_rank (vectorRank e) = true <-> In id (vector_ids vs))
  /\ (truthy_rank (keywordRank e) = true <-> In id (keyword_ids ks))
  /\ (In id (vector_ids vs) ->
      normalizedVectorScore e = Some (nv_lookup nv id))
  /\ (In id (keyword_ids ks) ->
      normalizedKeywordScore e = Some (nk_lookup nk id))
  /\ (In id (vector_ids vs) \/ In id (keyword_ids ks))
  /\ (~ In id (vector_ids vs) -> vectorScore e = None).

Definition map_ok (nv nk : NormalizedScores)
  (vs : list VectorSearchResult) (ks : list KeywordResult)
  (m : JsMap.t RankedResult) : Prop :=
  forall id,
    match JsMap.get m id with
    | Some e => entry_ok nv nk vs ks id e
    | None => ~ In id (vector_ids vs) /\ ~ In id (keyword_ids ks)
    end.

(** The raw scores of a candidate are those of hits of the legs: its
    vector score is the similarity of a vector hit of its id, its keyword
    score the absolute value of the rank of a lexical hit of its id, and a
    score is [undefined] exactly when the leg has no hit of that id. *)
Definition raw_vector_score (vs : list VectorSearchResult) (id : string)
  (score : option Q) : Prop :=
  match score with
  | Some s => exists v, In v vs /\ v_changeId v = id /\ v_score v = s
  | None => ~ In id (vector_ids vs)
  end.

Definition raw_keyword_score (ks : list KeywordResult) (id : string)
  (score : option Q) : Prop :=
  match score with
  | Some s =>
      exists k, In k ks /\ c_id (k_change k) = id /\ s = Qabs (k_rank k)
  | None => ~ In id (keyword_ids ks)
  end.

Definition raw_scores_ok (vs : list VectorSearchResult)
  (ks : list KeywordResult) (m : JsMap.t RankedResult) : Prop :=
  forall id e, JsMap.get m id = Some e ->
    raw_vector_score vs id (vectorScore e)
    /\ raw_keyword_score ks id (keywordScore e).

(** The normalized score a leg holds for candidate [id] after
    [normalizeScores]: that of its entry for [id] (of the last one, should
    there be several), and 0 when the leg has no entry for [id] - it did not
    return the candidate, or the threshold dropped it. *)
Definition leg_score (ns : NormalizedScores) (id : string) : Q :=
  match find (fun r => String.eqb (n_id r) id) (rev (results ns)) with
  | Some r => normalizedScore r
  | None => 0
  end.

Definition unit_scores (ns : NormalizedScores) : Prop :=
  forall e, In e (results ns) -> 0 <= normalizedScore e <= 1.

Definition two_scores : list Scored := [mkScored "a" 0.9; mkScored "b" 0.5].

Definition default_params : HybridSearchParams :=
  mkParams SEARCH_DEFAULTS.VECTOR_WEIGHT SEARCH_DEFAULTS.KEYWORD_WEIGHT
    SEARCH_DEFAULTS.RERANK_TOP_K.

Definition change_of_id (id : string) : ChangeRecord :=
  mkChange id 0 EmptyString EmptyString [] None.


(** The legs of the second example scenario of the specification. *)
Definition vector_leg_ab : list VectorSearchResult :=
  [mkVSR "v1" "a" 0.9 0.1; mkVSR "v2" "b" 0.5 0.5].

Definition keyword_leg_bc : list KeywordResult :=
  [mkKR (change_of_id "b") 1; mkKR (change_of_id "c") 2].

(** Two vector hits and three lexical hits ranked by position: ["c"] is
    the best vector hit and the second lexical hit. *)
Definition vector_leg_ca : list VectorSearchResult :=
  [mkVSR "v1" "c" 0.9 0.1; mkVSR "v2" "a" 0.5 0.5].

Definition keyword_leg_bcd : list KeywordResult :=
  [mkKR (change_of_id "b") 1; mkKR (change_of_id "c") 2;
   mkKR (change_of_id "d") 3].

(** A vector leg that returns the change ["a"] twice, under two vectors,
    and a lexical leg that does the same. *)
Definition vector_leg_aa : list VectorSearchResult :=
  [mkVSR "v1" "a" 0.9 0.1; mkVSR "v2" "a" 0.8 0.2].

Definition keyword_leg_aa : list KeywordResult :=
  [mkKR (change_of_id "a") 1; mkKR (change_of_id "a") 2].

(** An engine with the reranker switched off, and collaborators that hold
    no data. *)
Definition plain_engine : SearchEngine :=
  mkEngine "ws" false (mkReranker (mkConfig huggingface "BAAI/bge-reranker-base" None 10) true).

(** An engine for the examples: it sorts by insertion whatever the
    comparator, reads [null] and [false] as 0 and [true] as 1, and knows
    three inherited names. *)
Definition reference_runtime : Runtime :=
  mkRuntime (fun A cmp l => sort cmp l)
    (fun v => match v with
              | JNull | JBool false => Some 0
              | JBool true => Some 1
              | _ => None
              end)
    (fun name =>
       existsb (String.eqb name) ["constructor"; "map"; "toString"]%string).

(** The engine leaves an array it sorts with the elements it had. *)
Definition permutes (rt : Runtime) : Prop :=
  forall (A : Type) (cmp : A -> A -> Q) (l : list A),
    Permutation (implementation_sort rt A cmp l) l.

(** What a consistent comparator gives for elements of the list. *)
Record consistent_order {A : Type} (cmp : A -> A -> option Q) (l : list A)
  : Prop := mkConsistentOrder {
  co_reflexive : forall a, In a l -> nan_zero (cmp a a) == 0;
  co_symmetric : forall a b, In a l -> In b l ->
    nan_zero (cmp a b) == 0 -> nan_zero (cmp b a) == 0;
  co_eq : forall a b c, In a l -> In b l -> In c l ->
    nan_zero (cmp a b) == 0 -> nan_zero (cmp b c) == 0 ->
    nan_zero (cmp a c) == 0;
  co_lt : forall a b c, In a l -> In b l -> In c l ->
    nan_zero (cmp a b) < 0 -> nan_zero (cmp b c) < 0 ->
    nan_zero (cmp a c) < 0;
  co_gt : forall a b c, In a l -> In b l -> In c l ->
    0 < nan_zero (cmp a b) -> 0 < nan_zero (cmp b c) ->
    0 < nan_zero (cmp a c)
}.

Definition silent_backend : Backend :=
  mkBackend (fun _ _ => Rejected (mkError "offline"))
    (fun _ _ _ => CRejected (mkError "offline")) reference_runtime.

Definition empty_env : Env :=
  mkEnv 0 (fun _ => Ok []) (fun _ _ _ => Ok []) (fun _ => Ok None)
    (fun _ _ _ => Ok []) (fun _ => Ok None) silent_backend.

(** The request [keywordSearch] sends to the lexical store for the
    expression [ftsQuery]. *)
Definition lexical_request (engine : SearchEngine) (env : Env)
  (ftsQuery : string) (topK : nat) : Result (list KeywordResult) :=
  catch (bind (searchChanges env (workspaceId engine) ftsQuery topK)
           (fun results => Ok results))
    (fun _ => Ok []).

(** The payload [rerankWithHuggingFace] gets to decode for the document at
    position [n]: the body of the first answer, or of the answer to the
    second request format when the first status is not ok. *)
Definition hf_payload (backend : Backend) (query : string) (n : nat)
  (doc : RerankerDocument) : option json :=
  match hf_fetch backend n (TextPair query (slice_str 512 (d_text doc))) with
  | OkBody (Ok p) => Some p
  | NotOk _ _ =>
      match hf_fetch backend n
              (Separated (query ++ " [SEP] " ++ slice_str 512 (d_text doc)))
      with
      | OkBody (Ok p) => Some p
      | _ => None
      end
  | _ => None
  end.

(** A payload from which no score is to be had: [extractScoreFromResult]
    returns [null] for it, or throws. *)
Definition unparseable (p : json) : Prop :=
  forall score, extractScoreFromResult p = Ok score -> score = JNull.

(** The values pushed for [documents], the first of them at position
    [idx]. *)
Fixpoint hf_scores_from (backend : Backend) (query : string) (idx : nat)
  (documents : list RerankerDocument) : list json :=
  match documents with
  | [] => []
  | doc :: rest =>
      hf_score backend query idx doc
      :: hf_scores_from backend query (S idx) rest
  end.

(** The documents paired with the values pushed for them. *)
Fixpoint scored_from (backend : Backend) (query : string) (idx : nat)
  (documents : list RerankerDocument) : list RerankedValue :=
  match documents with
  | [] => []
  | doc :: rest =>
      mkReranked (Some (d_id doc)) (Some (hf_score backend query idx doc))
        (originalScore doc)
      :: scored_from backend query (S idx) rest
  end.

(** A payload from which no numeric relevance score can be extracted: what
    [extractScoreFromResult] returns for it, if it returns, is no number. *)
Definition no_numeric_score (p : json) : Prop :=
  forall n, extractScoreFromResult p <> Ok (JNum n).

(** A reranker service with a credential, and a backend that answers the
    document at position 1 with the body [{"score": "high"}], the one at
    position 0 with the number [0.9] and every other one with [0.7]. *)
Definition keyed_reranker : RerankerService :=
  mkReranker (mkConfig huggingface "BAAI/bge-reranker-base" (Some "hf_key"%string) 10)
    true.

Definition high_score : json := JObj [("score"%string, JStr "high")].

Definition one_bad_backend (rt : Runtime) : Backend :=
  mkBackend
    (fun n _ => OkBody (Ok match n with
                           | 0%nat => JNum 0.9
                           | 1%nat => high_score
                           | _ => JNum 0.7
                           end))
    (fun _ _ _ => CRejected (mkError "offline")) rt.

(** A backend whose answer for the document at position 1 is no JSON, and
    which answers the others as [one_bad_backend] does. *)
Definition one_garbled_backend (rt : Runtime) : Backend :=
  mkBackend
    (fun n _ => match n with
                | 0%nat => OkBody (Ok (JNum 0.9))
                | 1%nat => OkBody (Throw (mkError "Unexpected token"))
                | _ => OkBody (Ok (JNum 0.7))
                end)
    (fun _ _ _ => CRejected (mkError "offline")) rt.

Definition doc_a : RerankerDocument := mkDoc "a" "File: a.ts" (Some 0.02).
Definition doc_b : RerankerDocument := mkDoc "b" "File: b.ts" (Some 0.015).
Definition doc_c : RerankerDocument := mkDoc "c" "File: c.ts" (Some 0.01).

Definition three_docs : list RerankerDocument := [doc_a; doc_b; doc_c].

(** The entry a document is ranked by when no reranker score is to be had:
    its own score, or 0 when it has none. *)
Definition fallback_entry (doc : RerankerDocument) : RerankedResult :=
  mkReranked (d_id doc) (nullish (originalScore doc) 0) (originalScore doc).

(** The number a reranker score is, if it is one. *)
Definition score_number (v : option json) : option Q :=
  match v with
  | Some (JNum n) => Some n
  | _ => None
  end.

(** The score the specification ranks a candidate by after reranking: the
    reranker score where one was assigned, the fusion score otherwise. *)
Definition effectiveScore (r : RankedResult) : Q :=
  nullish (score_number (rerankerScore r)) (rrfScore r).

Definition by_effective_score (a b : RankedResult) : Prop :=
  effectiveScore b <= effectiveScore a.

(** The order [applyReranking] sorts a pair by: the numbers the reranker
    scores are when both candidates carry one, the fusion scores
    otherwise. *)
Definition ordered_pair (rt : Runtime) (a b : RankedResult) : Prop :=
  match rerankerScore a, rerankerScore b with
  | Some ra, Some rb =>
      match ToNumber rt (Some ra), ToNumber rt (Some rb) with
      | Some x, Some y => y <= x
      | _, _ => True
      end
  | _, _ => rrfScore b <= rrfScore a
  end.

(** The score the reranker returned under [id]: that of the last of its
    entries with that id, and [undefined] when it returned none. *)
Definition returned_score (reranked : list RerankedValue) (id : string)
  : option json :=
  match find (fun e => match r_id e with
                       | Some i => String.eqb i id
                       | None => false
                       end)
          (rev reranked)
  with
  | Some e => r_score e
  | None => None
  end.

(** Two entries for the same candidate, with the same fusion score and the
    same raw scores; the reranker score apart. *)
Definition same_candidate (r r0 : RankedResult) : Prop :=
  changeId r = changeId r0 /\ rrfScore r = rrfScore r0
  /\ vectorScore r = vectorScore r0 /\ keywordScore r = keywordScore r0.

(** The candidates as [applyReranking] sorts them: each with the score the
    reranker returned under its id. *)
Definition with_scores (reranked : list RerankedValue)
  (rankedResults : list RankedResult) : list RankedResult :=
  List.map (fun r => set_rerankerScore r (score_for reranked (changeId r)))
    rankedResults.

(** The documents [applyReranking] prepares from the head of the fused
    ranking. *)
Definition rerank_documents (env : Env) (rankedResults : list RankedResult)
  : Result (list RerankerDocument) :=
  collect env changeId
    (fun result change =>
       mkDoc (changeId result) (prepareDocumentForReranking change)
         (Some (rrfScore result)))
    (slice0 RERANKER_DEFAULTS.TOP_K rankedResults).

(** Eleven vector hits, a metadata store that knows every id, and a scoring
    backend that answers the document at position [n] with the relevance
    [1 / (200 + n)]. *)
Definition eleven_hits : list VectorSearchResult :=
  List.map (fun p : string * Q => mkVSR (fst p) (fst p) (snd p) (1 - snd p))
    [ ("c01", 0.95); ("c02", 0.90); ("c03", 0.85); ("c04", 0.80);
      ("c05", 0.75); ("c06", 0.70); ("c07", 0.65); ("c08", 0.60);
      ("c09", 0.55); ("c10", 0.50); ("c11", 0.45) ]%string.

Definition rerank_engine : SearchEngine := mkEngine "ws" true keyed_reranker.

Definition rerank_env : Env :=
  mkEnv 0 (fun _ => Ok []) (fun _ _ _ => Ok eleven_hits) (fun _ => Ok None)
    (fun _ _ _ => Ok []) (fun id => Ok (Some (change_of_id id)))
    (mkBackend (fun n _ => OkBody (Ok (JNum (1 / (200 + Qnat n)))))
       (fun _ _ _ => CRejected (mkError "offline")) reference_runtime).

(** [w], read without regard to case, is a prefix of [s]. *)
Fixpoint prefix_i (w s : text) : bool :=
  match w, s with
  | [], _ => true
  | _ :: _, [] => false
  | a :: w', b :: s' =>
      Ascii.eqb (canonical b) (canonical a) && prefix_i w' s'
  end.

(** The query contains the word [w], in any mix of upper and lower case. *)
Definition contains_word (query w : string) : Prop :=
  exists before after,
    chars query = before ++ after /\ prefix_i (chars w) after = true.

(** The local midnight at or before [now], in a time zone [tz] milliseconds
    east of UTC, and the calendar day before the one [now] falls in. *)
Definition day_start (tz now : Z) : Z := (now - (now + tz) mod Millis.day)%Z.

Definition previous_calendar_day (tz now : Z) : TimeRange :=
  mkRange (day_start tz now - Millis.day) (day_start tz now).

(** 2024-06-01 12:00:00 UTC. *)
Definition noon_june_first : Z := 1717243200000.

Definition parser_query : string := "fixed bug in parser.ts yesterday".

(** The vector leg throws: the embedding provider fails, or the vector
    index does. *)
Definition vector_leg_throws (env : Env) (query : string) (topK : nat)
  (filters : option SearchFilters) : Prop :=
  (exists e, embedQuery env query = Throw e)
  \/ (exists v e, embedQuery env query = Ok v
                  /\ vectorStore_search env v topK filters = Throw e).

(** The environment with a vector leg that finds nothing. *)
Definition without_vector_leg (env : Env) : Env :=
  mkEnv (now env) (fun _ => Ok []) (fun _ _ _ => Ok [])
    (getVectorByChangeId env) (searchChanges env) (getChange env)
    (backend env).

(** The metadata store answers every lookup. *)
Definition store_answers (env : Env) : Prop :=
  forall id e, getChange env id <> Throw e.

(** The candidate pool size [search] passes to both legs. *)
Definition pool_size (query : SearchQuery) : nat :=
  nullish (option_map rerankTopK (q_hybridParams query))
    SEARCH_DEFAULTS.RERANK_TOP_K.

(** An environment whose embedding provider refuses the connection and
    whose lexical store finds the changes ["b"] and ["c"]. *)
Definition refused_env : Env :=
  mkEnv 0 (fun _ => Throw (mkError "ECONNREFUSED")) (fun _ _ _ => Ok [])
    (fun _ => Ok None) (fun _ _ _ => Ok keyword_leg_bc)
    (fun id => Ok (Some (change_of_id id))) silent_backend.


(* ------------------------------------------------------------------ *)
(** * Vocabulary of the further statements *)

(** Descending order of the fusion score. *)
Definition by_fusion_score (a b : RankedResult) : Prop :=
  rrfScore b <= rrfScore a.

(** The lexical store ranks its hits by position: the hit at 0-based
    position [i] carries rank [i + 1] ([MetadataDatabase.searchChanges]). *)
Definition ranked_by_position (ks : list KeywordResult) : Prop :=
  forall i r, nth_error ks i = Some r -> k_rank r == Qnat (i + 1).

(** The entry [normalizeScores] builds for [r] when it scales between [min]
    and [max]. *)
Definition scaled (min max : Q) (r : Scored) : Normalized :=
  mkNormalized (s_id r) (s_score r)
    (if Qgtb (max - min) 0 then (s_score r - min) / (max - min) else 1).




(** The entry carries the id and the [originalScore] of one of the
    documents. *)
Definition names_document (docs : list RerankerDocument) (r : RerankedValue)
  : Prop :=
  exists d, In d docs /\ r_id r = Some (d_id d)
            /\ r_originalScore r = originalScore d.

(** The items of the [results] array of the answer [rerankWithCohere] gets
    for the documents; none when the request fails or the answer has no
    such array. *)
Definition cohere_items (svc : RerankerService) (backend : Backend)
  (docs : list RerankerDocument) (topK : option nat) : list json :=
  let model :=
    if truthy_string (Some (model (config svc))) then model (config svc)
    else "rerank-english-v3.0"%string in
  match cohere_fetch backend model (List.map d_text docs)
          (nullish topK (rc_topK (config svc)))
  with
  | COkBody (Ok result) =>
      match member "results" result with
      | Some (JArr rs) => rs
      | _ => []
      end
  | _ => []
  end.

(** Every item has a number as its [index]. *)
Definition numeric_indices (items : list json) : Prop :=
  forall item, In item items -> exists n, member "index" item = Some (JNum n).

(** A Cohere service with a credential, and a backend whose answer holds
    one item with the index ["length"]. *)
Definition cohere_reranker : RerankerService :=
  mkReranker (mkConfig cohere "rerank-english-v3.0" (Some "co_key"%string) 10)
    true.

Definition length_backend : Backend :=
  mkBackend (fun _ _ => Rejected (mkError "offline"))
    (fun _ _ _ =>
       COkBody
         (Ok (JObj [("results"%string,
                     JArr [JObj [("index"%string, JStr "length");
                                 ("relevance_score"%string, JNum 0.9)]])])))
    reference_runtime.

(** A backend whose answer ranks the document at position 1 first. *)
Definition cohere_backend : Backend :=
  mkBackend (fun _ _ => Rejected (mkError "offline"))
    (fun _ _ _ =>
       COkBody
         (Ok (JObj [("results"%string,
                     JArr [JObj [("index"%string, JNum 1);
                                 ("relevance_score"%string, JNum 0.9)];
                           JObj [("index"%string, JNum 0);
                                 ("relevance_score"%string, JNum 0.4)]])])))
    reference_runtime.

(** The labels [extractScoreFromResult] takes for the positive class. *)
Definition positive_label (l : string) : bool :=
  String.eqb l "LABEL_1" || String.eqb l "entailment" || String.eqb l "1".

(** An item that is not the positive class: not [null], and without a
    positive label. *)
Definition not_positive (item : json) : Prop :=
  item <> JNull /\ is_positive item = false.

(** An item of the positive class with the given [score] property. *)
Definition labelled (l : string) (score : option json) (item : json) : Prop :=
  positive_label l = true
  /\ member "label" item = Some (JStr l)
  /\ member "score" item = score.

(** The weights and the pool size [search] runs a query with. *)
Definition search_params (query : SearchQuery) : HybridSearchParams :=
  mkParams
    (nullish (option_map vectorWeight (q_hybridParams query))
       SEARCH_DEFAULTS.VECTOR_WEIGHT)
    (nullish (option_map keywordWeight (q_hybridParams query))
       SEARCH_DEFAULTS.KEYWORD_WEIGHT)
    (pool_size query).

(** The filters [search] passes to the vector leg. *)
Definition search_filters (env : Env) (query : SearchQuery)
  : option SearchFilters :=
  Some (enrichFilters (now env) (naturalLanguage query) (q_filters query)).

(** [search] applies the reranker. *)
Definition reranking_on (engine : SearchEngine) : bool :=
  useReranker engine && isEnabled (reranker engine).

(** The lexical leg throws. *)
Definition keyword_leg_throws (engine : SearchEngine) (env : Env)
  (query : string) (topK : nat) : Prop :=
  exists e,
    searchChanges env (workspaceId engine) (prepareFTSQuery query) topK
    = Throw e.

(** Descending order of the score of a search result. *)
Definition by_result_score (a b : SearchResult) : Prop :=
  sr_score b <= sr_score a.

(** An environment in which both retrieval legs fail. *)
Definition broken_env : Env :=
  mkEnv 0 (fun _ => Throw (mkError "ECONNREFUSED"))
    (fun _ _ _ => Ok []) (fun _ => Ok None)
    (fun _ _ _ => Throw (mkError "Database not initialized"))
    (fun _ => Throw (mkError "Database not initialized")) silent_backend.

(** An environment with two vector hits and two lexical hits, whose
    metadata store knows every id. *)
Definition small_env : Env :=
  mkEnv 0 (fun _ => Ok [0.1; 0.2]) (fun _ _ _ => Ok vector_leg_ab)
    (fun id => Ok (Some (mkVectorRecord id [0.1; 0.2])))
    (fun _ _ _ => Ok keyword_leg_bc)
    (fun id => Ok (Some (change_of_id id))) silent_backend.

(** An environment whose metadata store knows the change ["a"] but whose
    vector index holds no embedding for it. *)
Definition unembedded_env : Env :=
  mkEnv 0 (fun _ => Ok []) (fun _ _ _ => Ok []) (fun _ => Ok None)
    (fun _ _ _ => Ok []) (fun id => Ok (Some (change_of_id id)))
    silent_backend.

(** A range that does not reach past [now] and is not inverted. *)
Definition past_window (now : Z) (r : TimeRange) : Prop :=
  (tr_start r <= tr_end r <= now)%Z.

(** The characters [prepareFTSQuery] blanks. *)
Definition fts_special (c : ascii) : bool :=
  existsb (Ascii.eqb c)
    ["'"%char; dquote; "*"%char; "("%char; ")"%char; "^"%char; "-"%char].

(** A character that is safe inside a quoted term: neither one of the
    special characters nor white space. *)
Definition fts_clean (c : ascii) : Prop :=
  fts_special c = false /\ is_space c = false.

(** A term as [prepareFTSQuery] writes it: in double quotes, with a
    star. *)
Definition quoted (term : string) : string :=
  (String dquote term ++ String dquote "*")%string.

(** The terms [prepareFTSQuery] keeps. *)
Definition fts_terms (query : string) : list string :=
  List.filter (fun term => (1 <? String.length term)%nat) (fts_tokens query).

(** A character of a highlighting term: a lower-case letter, a digit or an
    underscore. *)
Definition term_char (c : ascii) : Prop :=
  is_word c = true /\ is_upper c = false.


(* ------------------------------------------------------------------ *)
(** * Vocabulary of the statements on the utilities *)

(** The call throws. *)
Definition fails {T : Type} (r : Result T) : Prop := exists e, r = Throw e.

(** The service with another provider in place, cache and configuration
    as they are. *)
Definition with_provider (svc : Embedding.EmbeddingService)
  (p : Embedding.Provider) : Embedding.EmbeddingService :=
  Embedding.mkService (Some p) (Embedding.providerName svc)
    (Embedding.embeddingCache svc).

(** The cache holds at most 1000 entries, none of them under the empty
    key. *)
Definition cache_within_limit (svc : Embedding.EmbeddingService) : Prop :=
  (length (Embedding.embeddingCache svc) <= 1000)%nat
  /\ Forall (fun key => key <> EmptyString)
       (JsMap.keys (Embedding.embeddingCache svc)).

(** A provider that throws on the first two attempts and returns the
    vector [0.5, 0.25] on the third. *)
Definition flaky_provider : Embedding.Provider :=
  fun _ attempt =>
    match attempt with
    | 0%nat => Throw (mkError "timeout")
    | 1%nat => Throw (mkError "busy")
    | _ => Ok [0.5; 0.25]
    end.

(** A provider that is down. *)
Definition dead_provider : Embedding.Provider :=
  fun _ _ => Throw (mkError "down").

(** A stand-in for the content hash in examples. *)
Definition example_hash (content : string) : string :=
  ("h:" ++ content)%string.

Definition fresh_service (p : Embedding.Provider)
  : Embedding.EmbeddingService :=
  Embedding.mkService (Some p) "huggingface" JsMap.empty.

(** What [normalizePath] makes of one character. *)
Definition unslash (c : ascii) : ascii :=
  if Ascii.eqb backslash c then "/"%char else c.

(** The text holds no backslash. *)
Definition no_backslash (s : string) : Prop :=
  Forall (fun c => c <> backslash) (chars s).

(** The batch holds at least one and at most [batchSize] elements. *)
Definition batch_within {T : Type} (batchSize : Z) (batch : list T) : Prop :=
  (0 < Z.of_nat (length batch) <= batchSize)%Z.

(** The batch holds exactly [batchSize] elements. *)
Definition full_batch {T : Type} (batchSize : Z) (batch : list T) : Prop :=
  Z.of_nat (length batch) = batchSize.

(** The entries the tokens hold at index [i], in the order of the tokens:
    [None] as soon as one of the tokens is too short to have one. *)
Fixpoint column (i : nat) (tokens : list (list Q)) : option (list Q) :=
  match tokens with
  | [] => Some []
  | token :: rest =>
      match nth_error token i, column i rest with
      | Some x, Some col => Some (x :: col)
      | _, _ => None
      end
  end.

(** The sum of a column, added up from 0 in the order of the tokens. *)
Definition total (col : list Q) : Q := fold_left Qplus col 0.
(* ================================================================== *)
(** * Properties *)

(** ** Numbers *)

Lemma Qgtb_true (x y : Q) : Qgtb x y = true <-> y < x.
Proof.
  unfold Qgtb. rewrite negb_true_iff.
  split; intros H.
  - apply Qnot_le_lt. intros Hle. apply Qle_bool_iff in Hle. congruence.
  - destruct (Qle_bool x y) eqn:E; [|reflexivity].
    apply Qle_bool_iff in E. exfalso. apply (Qlt_not_le _ _ H E).
Qed.

Lemma Qgtb_false (x y : Q) : Qgtb x y = false <-> x <= y.
Proof.
  unfold Qgtb. rewrite negb_false_iff. apply Qle_bool_iff.
Qed.

Lemma Qgeb_true (x y : Q) : Qgeb x y = true <-> y <= x.
Proof. unfold Qgeb. apply Qle_bool_iff. Qed.

Lemma Math_min_le_head (t : list Q) (h : Q) : Math_min h t <= h.
Proof.
  unfold Math_min. revert h.
  induction t as [|x t IH]; intros h; simpl.
  - apply Qle_refl.
  - eapply Qle_trans; [apply IH | apply Q.le_min_l].
Qed.

Lemma Math_min_le_In (t : list Q) (h x : Q) : In x t -> Math_min h t <= x.
Proof.
  unfold Math_min. revert h.
  induction t as [|y t IH]; intros h Hin; simpl in *.
  - contradiction.
  - destruct Hin as [->|Hin].
    + eapply Qle_trans; [apply (Math_min_le_head t) | apply Q.le_min_r].
    + apply IH, Hin.
Qed.

Lemma Math_max_ge_head (t : list Q) (h : Q) : h <= Math_max h t.
Proof.
  unfold Math_max. revert h.
  induction t as [|x t IH]; intros h; simpl.
  - apply Qle_refl.
  - eapply Qle_trans; [apply Q.le_max_l | apply IH].
Qed.

Lemma Math_max_ge_In (t : list Q) (h x : Q) : In x t -> x <= Math_max h t.
Proof.
  unfold Math_max. revert h.
  induction t as [|y t IH]; intros h Hin; simpl in *.
  - contradiction.
  - destruct Hin as [->|Hin].
    + eapply Qle_trans; [apply Q.le_max_r | apply (Math_max_ge_head t)].
    + apply IH, Hin.
Qed.

(** [Math.min] returns one of its arguments. *)
Lemma Math_min_In (t : list Q) (h : Q) : In (Math_min h t) (h :: t).
Proof.
  unfold Math_min. revert h.
  induction t as [|x t IH]; intros h; simpl.
  - now left.
  - destruct (IH (Qmin h x)) as [E|E].
    + rewrite <- E.
      unfold Qmin, GenericMinMax.gmin.
      destruct (h ?= x); [now left | now left | right; now left].
    + right; right; exact E.
Qed.

Lemma Math_max_In (t : list Q) (h : Q) : In (Math_max h t) (h :: t).
Proof.
  unfold Math_max. revert h.
  induction t as [|x t IH]; intros h; simpl.
  - now left.
  - destruct (IH (Qmax h x)) as [E|E].
    + rewrite <- E.
      unfold Qmax, GenericMinMax.gmax.
      destruct (h ?= x); [now left | right; now left | now left].
    + right; right; exact E.
Qed.

(** ** normalizeScores *)

(** The lower and upper bound [normalizeScores] scales with are the least
    and the greatest raw score of the input. *)
Lemma normalizeScores_min_max (rs : list Scored) (thr : Q) (r : Scored) :
  In r rs ->
  ns_min (normalizeScores rs thr) <= s_score r
  /\ s_score r <= ns_max (normalizeScores rs thr)
  /\ In (ns_min (normalizeScores rs thr)) (List.map s_score rs)
  /\ In (ns_max (normalizeScores rs thr)) (List.map s_score rs).
Proof.
  intros Hin. unfold normalizeScores.
  destruct rs as [|r0 rs']; [contradiction|].
  cbn [List.map ns_min ns_max].
  repeat split.
  - destruct Hin as [->|Hin].
    + apply Math_min_le_head.
    + apply Math_min_le_In, in_map, Hin.
  - destruct Hin as [->|Hin].
    + apply Math_max_ge_head.
    + apply Math_max_ge_In, in_map, Hin.
  - apply Math_min_In.
  - apply Math_max_In.
Qed.

(** Every entry of the output is an input entry with its scaled score. *)
Lemma normalizeScores_entry (rs : list Scored) (thr : Q) (e : Normalized) :
  In e (results (normalizeScores rs thr)) ->
  let min := ns_min (normalizeScores rs thr) in
  let max := ns_max (normalizeScores rs thr) in
  exists r, In r rs /\ n_id e = s_id r /\ n_score e = s_score r
    /\ normalizedScore e
       = (if Qgtb (max - min) 0 then (s_score r - min) / (max - min) else 1)
    /\ thr <= normalizedScore e.
Proof.
  unfold normalizeScores.
  destruct rs as [|r0 rs']; [intros []|].
  cbn [List.map results ns_min ns_max].
  intros Hin. apply filter_In in Hin. destruct Hin as [Hin Hthr].
  change (In e (List.map (fun r => mkNormalized (s_id r) (s_score r)
    (if Qgtb (Math_max (s_score r0) (List.map s_score rs')
              - Math_min (s_score r0) (List.map s_score rs')) 0
     then (s_score r - Math_min (s_score r0) (List.map s_score rs'))
          / (Math_max (s_score r0) (List.map s_score rs')
             - Math_min (s_score r0) (List.map s_score rs'))
     else 1)) (r0 :: rs'))) in Hin.
  apply in_map_iff in Hin. destruct Hin as [r [<- Hr]].
  exists r. cbn. repeat split; try assumption.
  apply Qgeb_true in Hthr. exact Hthr.
Qed.

(** The scaled score of an output entry lies in the unit interval. *)
Lemma normalizeScores_unit (rs : list Scored) (thr : Q) (e : Normalized) :
  In e (results (normalizeScores rs thr)) -> 0 <= normalizedScore e <= 1.
Proof.
  intros Hin.
  destruct (normalizeScores_entry rs thr e Hin) as (r & Hr & _ & _ & Hn & _).
  pose proof (normalizeScores_min_max rs thr r Hr) as (Hlo & Hhi & _).
  rewrite Hn.
  destruct (Qgtb _ 0) eqn:Hrange.
  - apply Qgtb_true in Hrange. split.
    + apply Qle_shift_div_l; [exact Hrange|]. lra.
    + apply Qle_shift_div_r; [exact Hrange|]. lra.
  - split; lra.
Qed.

(** C4. For a non-empty input, every entry of the output of
    [normalizeScores] carries a [normalizedScore] within [0, 1]; it is
    [(score - min) / (max - min)] for the least and greatest raw score
    [min] and [max] of the input when these differ, and [1] when they are
    equal; in particular it is [1] when all raw scores are equal. *)
Theorem normalizeScores_bounds (rs : list Scored) (thr : Q) (e : Normalized) :
  rs <> [] ->
  In e (results (normalizeScores rs thr)) ->
  let min := ns_min (normalizeScores rs thr) in
  let max := ns_max (normalizeScores rs thr) in
  (forall r, In r rs -> min <= s_score r <= max)
  /\ In min (List.map s_score rs) /\ In max (List.map s_score rs)
  /\ 0 <= normalizedScore e <= 1
  /\ (~ max == min -> normalizedScore e == (n_score e - min) / (max - min))
  /\ (max == min -> normalizedScore e == 1)
  /\ ((forall a b, In a rs -> In b rs -> s_score a == s_score b) ->
      normalizedScore e == 1).
Proof.
  intros Hne Hin min max.
  destruct (normalizeScores_entry rs thr e Hin) as (r & Hr & _ & Hsc & Hn & _).
  fold min max in Hn.
  pose proof (normalizeScores_min_max rs thr r Hr) as (Hlo & Hhi & Hmin & Hmax).
  fold min max in Hlo, Hhi, Hmin, Hmax.
  assert (Hle : min <= max) by (eapply Qle_trans; eassumption).
  split; [|split; [exact Hmin|split; [exact Hmax|]]].
  { intros r' Hr'.
    pose proof (normalizeScores_min_max rs thr r' Hr') as (H1 & H2 & _).
    split; assumption. }
  destruct (Qgtb (max - min) 0) eqn:Hrange.
  - apply Qgtb_true in Hrange.
    assert (Hpos : 0 < max - min) by exact Hrange.
    assert (Hnz : ~ max - min == 0) by (intros E; rewrite E in Hpos; apply (Qlt_irrefl 0 Hpos)).
    split; [|split; [|split]].
    + apply (normalizeScores_unit rs thr e Hin).
    + intros _. rewrite Hn, Hsc. reflexivity.
    + intros E. exfalso. lra.
    + intros Hall. exfalso.
      apply in_map_iff in Hmin. destruct Hmin as [a [Ea Ha]].
      apply in_map_iff in Hmax. destruct Hmax as [b [Eb Hb]].
      pose proof (Hall a b Ha Hb) as Hab. rewrite Ea, Eb in Hab. lra.
  - apply Qgtb_false in Hrange.
    assert (E : max == min) by lra.
    rewrite Hn.
    split; [split; lra|].
    split; [intros Hd; contradiction|].
    split; intros _; reflexivity.
Qed.

Lemma normalizeScores_bounds_witness :
  let e := mkNormalized "a" 0.9 ((0.9 - 0.5) / (0.9 - 0.5)) in
  0 <= normalizedScore e <= 1.
Proof.
  intros e.
  assert (Hne : two_scores <> []) by discriminate.
  assert (Hin : In e (results (normalizeScores two_scores 0.3)))
    by (vm_compute; left; reflexivity).
  exact (proj1 (proj2 (proj2 (proj2
    (normalizeScores_bounds two_scores 0.3 e Hne Hin))))).
Defined.

(** ** Maps and sorting *)

Module JsMapFacts.
Import JsMap.
Section Facts.
Context {V : Type}.
Implicit Types (m : JsMap.t V) (k : string) (v : V).

Lemma get_set_same m k v : get (set m k v) k = Some v.
Proof.
  induction m as [|[k' v'] m IH]; simpl.
  - now rewrite String.eqb_refl.
  - destruct (String.eqb k k') eqn:E; simpl; rewrite E; auto.
Qed.

Lemma get_set_other m k k' v : k <> k' -> get (set m k v) k' = get m k'.
Proof.
  intros Hne.
  induction m as [|[k0 v0] m IH]; simpl.
  - destruct (String.eqb k' k) eqn:E; [|reflexivity].
    apply String.eqb_eq in E. congruence.
  - destruct (String.eqb k k0) eqn:E; simpl.
    + apply String.eqb_eq in E. subst k0.
      destruct (String.eqb k' k) eqn:E'; [|reflexivity].
      apply String.eqb_eq in E'. congruence.
    + now rewrite IH.
Qed.

Lemma get_Some_In m k v : get m k = Some v -> In (k, v) m.
Proof.
  induction m as [|[k0 v0] m IH]; simpl; [discriminate|].
  destruct (String.eqb k k0) eqn:E.
  - apply String.eqb_eq in E. intros [= ->]. left. now subst.
  - intros H. right. auto.
Qed.

Lemma get_None_keys m k : get m k = None <-> ~ In k (keys m).
Proof.
  induction m as [|[k0 v0] m IH]; simpl.
  - tauto.
  - destruct (String.eqb k k0) eqn:E.
    + apply String.eqb_eq in E. subst. split; [discriminate|]. tauto.
    + apply String.eqb_neq in E. rewrite IH. split.
      * intros H [H'|H']; [congruence|tauto].
      * tauto.
Qed.

Lemma keys_set m k v :
  keys (set m k v)
  = match get m k with Some _ => keys m | None => keys m ++ [k] end.
Proof.
  induction m as [|[k0 v0] m IH]; simpl; [reflexivity|].
  destruct (String.eqb k k0) eqn:E; simpl; [reflexivity|].
  unfold keys in *. rewrite IH. now destruct (get m k).
Qed.

Lemma NoDup_keys_set m k v : NoDup (keys m) -> NoDup (keys (set m k v)).
Proof.
  intros Hnd. rewrite keys_set.
  destruct (get m k) eqn:E; [exact Hnd|].
  apply get_None_keys in E.
  apply NoDup_rev in Hnd. rewrite <- (rev_involutive (keys m ++ [k])).
  apply NoDup_rev. rewrite rev_app_distr. simpl.
  constructor; [|exact Hnd].
  intros Hin. apply E. now apply in_rev.
Qed.

Lemma In_get m k v : NoDup (keys m) -> In (k, v) m -> get m k = Some v.
Proof.
  induction m as [|[k0 v0] m IH]; simpl; [tauto|].
  intros Hnd [[= -> ->]|Hin].
  - now rewrite String.eqb_refl.
  - inversion Hnd as [|? ? Hnot Hnd']; subst.
    destruct (String.eqb k k0) eqn:E.
    + apply String.eqb_eq in E. subst. exfalso. apply Hnot.
      change k0 with (fst (k0, v)). now apply in_map.
    + auto.
Qed.
End Facts.
End JsMapFacts.

Section SortFacts.
Context {A : Type} (cmp : A -> A -> Q).

Lemma insert_sorted_perm (x : A) (l : list A) :
  Permutation (insert_sorted cmp x l) (x :: l).
Proof.
  induction l as [|y l IH]; simpl.
  - apply Permutation_refl.
  - destruct (Qle_bool (cmp x y) 0).
    + apply Permutation_refl.
    + eapply perm_trans; [apply perm_skip, IH | apply perm_swap].
Qed.

Lemma sort_perm (l : list A) : Permutation (sort cmp l) l.
Proof.
  induction l as [|x l IH]; simpl.
  - apply perm_nil.
  - eapply perm_trans; [apply insert_sorted_perm | apply perm_skip, IH].
Qed.

Lemma sort_In (l : list A) (x : A) : In x (sort cmp l) <-> In x l.
Proof.
  split; apply Permutation_in; [|apply Permutation_sym]; apply sort_perm.
Qed.

Lemma sort_length (l : list A) : length (sort cmp l) = length l.
Proof. apply Permutation_length, sort_perm. Qed.
End SortFacts.

Lemma forEach_from_snoc {A S : Type} (f : S -> A -> nat -> S)
  (l : list A) (x : A) (i : nat) (s : S) :
  forEach_from f i (l ++ [x]) s = f (forEach_from f i l s) x (i + length l)%nat.
Proof.
  revert i s. induction l as [|y l IH]; intros i s; simpl.
  - now rewrite Nat.add_0_r.
  - rewrite IH. f_equal. lia.
Qed.

Lemma forEach_snoc {A S : Type} (f : S -> A -> nat -> S)
  (l : list A) (x : A) (s : S) :
  forEach f (l ++ [x]) s = f (forEach f l s) x (length l).
Proof. unfold forEach. now rewrite forEach_from_snoc. Qed.

(** ** Rank fusion *)

Section FusionFacts.
Import JsMap JsMapFacts.
Variable params : HybridSearchParams.
Variable nv nk : NormalizedScores.
Local Abbreviation vector_entry := (vector_entry params nv).
Local Abbreviation keyword_entry := (keyword_entry params nk).

Lemma processVector_eq m v i :
  processVector params nv m v i = set m (v_changeId v) (vector_entry v i).
Proof. reflexivity. Qed.

Lemma processKeyword_eq m r i :
  processKeyword params nk m r i
  = set m (c_id (k_change r))
      (keyword_entry (get m (c_id (k_change r))) r i).
Proof.
  unfold processKeyword, keyword_entry.
  now destruct (get m (c_id (k_change r))).
Qed.

(** *** The vector pass *)

Lemma vector_pass_other vs i m id :
  ~ In id (vector_ids vs) ->
  get (forEach_from (processVector params nv) i vs m) id = get m id.
Proof.
  revert i m. induction vs as [|v vs IH]; intros i m Hnot; simpl.
  - reflexivity.
  - rewrite IH by (intros H; apply Hnot; now right).
    rewrite processVector_eq. apply get_set_other.
    intros E. apply Hnot. now left.
Qed.

Lemma vector_pass_at vs i m j v :
  NoDup (vector_ids vs) ->
  nth_error vs j = Some v ->
  get (forEach_from (processVector params nv) i vs m) (v_changeId v)
  = Some (vector_entry v (i + j)).
Proof.
  revert i m j. induction vs as [|x vs IH]; intros i m j Hnd Hnth.
  - destruct j; discriminate.
  - simpl in Hnd. inversion Hnd as [|? ? Hnot Hnd']; subst.
    destruct j as [|j]; simpl in Hnth |- *.
    + injection Hnth as ->.
      rewrite vector_pass_other by exact Hnot.
      rewrite processVector_eq, get_set_same. now rewrite Nat.add_0_r.
    + rewrite (IH (S i) _ j Hnd' Hnth). do 2 f_equal. lia.
Qed.

Lemma vector_pass_keys vs i m :
  NoDup (keys m) ->
  NoDup (keys (forEach_from (processVector params nv) i vs m)).
Proof.
  revert i m. induction vs as [|v vs IH]; intros i m Hnd; simpl.
  - exact Hnd.
  - apply IH. rewrite processVector_eq. now apply NoDup_keys_set.
Qed.

(** *** The keyword pass *)

Lemma keyword_pass_other ks i m id :
  ~ In id (keyword_ids ks) ->
  get (forEach_from (processKeyword params nk) i ks m) id = get m id.
Proof.
  revert i m. induction ks as [|r ks IH]; intros i m Hnot; simpl.
  - reflexivity.
  - rewrite IH by (intros H; apply Hnot; now right).
    rewrite processKeyword_eq. apply get_set_other.
    intros E. apply Hnot. now left.
Qed.

Lemma keyword_pass_at ks i m j r :
  NoDup (keyword_ids ks) ->
  nth_error ks j = Some r ->
  get (forEach_from (processKeyword params nk) i ks m) (c_id (k_change r))
  = Some (keyword_entry (get m (c_id (k_change r))) r (i + j)).
Proof.
  revert i m j. induction ks as [|x ks IH]; intros i m j Hnd Hnth.
  - destruct j; discriminate.
  - simpl in Hnd. inversion Hnd as [|? ? Hnot Hnd']; subst.
    destruct j as [|j]; simpl in Hnth |- *.
    + injection Hnth as ->.
      rewrite keyword_pass_other by exact Hnot.
      rewrite processKeyword_eq, get_set_same. now rewrite Nat.add_0_r.
    + rewrite (IH (S i) _ j Hnd' Hnth).
      rewrite processKeyword_eq.
      assert (Hne : c_id (k_change x) <> c_id (k_change r)).
      { intros E. apply Hnot. rewrite E.
        apply nth_error_In in Hnth.
        unfold keyword_ids.
        change (c_id (k_change r))
          with ((fun r0 => c_id (k_change r0)) r).
        now apply in_map. }
      rewrite (get_set_other _ _ _ _ Hne).
      do 2 f_equal. lia.
Qed.

Lemma keyword_pass_keys ks i m :
  NoDup (keys m) ->
  NoDup (keys (forEach_from (processKeyword params nk) i ks m)).
Proof.
  revert i m. induction ks as [|r ks IH]; intros i m Hnd; simpl.
  - exact Hnd.
  - apply IH. rewrite processKeyword_eq. now apply NoDup_keys_set.
Qed.

Lemma collected_keys vs ks :
  NoDup (keys (scoreMap_collected params nv nk vs ks)).
Proof.
  unfold scoreMap_collected, forEach.
  apply keyword_pass_keys, vector_pass_keys. constructor.
Qed.
End FusionFacts.

Section FusionInvariant.
Import JsMap JsMapFacts.
Variable params : HybridSearchParams.
Variable nv nk : NormalizedScores.
Local Abbreviation map_ok := (map_ok nv nk).

Lemma truthy_rank_succ (n : nat) : truthy_rank (Some (n + 1)%nat) = true.
Proof. now rewrite Nat.add_1_r. Qed.

Lemma vector_ids_snoc vs x id :
  In id (vector_ids (vs ++ [x])) <-> In id (vector_ids vs) \/ v_changeId x = id.
Proof.
  unfold vector_ids. rewrite map_app, in_app_iff. cbn. tauto.
Qed.

Lemma keyword_ids_snoc ks x id :
  In id (keyword_ids (ks ++ [x])) <->
  In id (keyword_ids ks) \/ c_id (k_change x) = id.
Proof.
  unfold keyword_ids. rewrite map_app, in_app_iff. cbn. tauto.
Qed.

Lemma vector_pass_ok vs :
  map_ok vs [] (forEach (processVector params nv) vs empty).
Proof.
  induction vs as [|x vs IH] using rev_ind.
  - intros id. cbn. tauto.
  - intros id. rewrite forEach_snoc, processVector_eq.
    pose proof (vector_ids_snoc vs x id) as Hsn.
    destruct (string_dec (v_changeId x) id) as [E|E].
    + subst id. rewrite get_set_same.
      unfold entry_ok. cbn [vector_entry changeId vectorRank keywordRank
        normalizedVectorScore normalizedKeywordScore vectorScore].
      rewrite truthy_rank_succ. cbn [truthy_rank keyword_ids List.map In].
      repeat split; try tauto; try discriminate.
    + rewrite (get_set_other _ _ _ _ E).
      specialize (IH id).
      destruct (get (forEach (processVector params nv) vs empty) id) as [e|].
      * destruct IH as (H1 & H2 & H3 & H4 & H5 & H6 & H7).
        unfold entry_ok. repeat split; try tauto.
      * tauto.
Qed.

Lemma keyword_pass_ok vs ks m0 :
  map_ok vs [] m0 ->
  map_ok vs ks (forEach (processKeyword params nk) ks m0).
Proof.
  intros H0.
  induction ks as [|x ks IH] using rev_ind.
  - exact H0.
  - intros id. rewrite forEach_snoc, processKeyword_eq.
    pose proof (keyword_ids_snoc ks x id) as Hsn.
    set (m := forEach (processKeyword params nk) ks m0) in *.
    destruct (string_dec (c_id (k_change x)) id) as [E|E].
    + subst id. rewrite get_set_same.
      specialize (IH (c_id (k_change x))).
      destruct (get m (c_id (k_change x))) as [e|].
      * destruct IH as (H1 & H2 & H3 & H4 & H5 & H6 & H7).
        unfold entry_ok. cbn [keyword_entry changeId vectorRank keywordRank
          normalizedVectorScore normalizedKeywordScore vectorScore].
        rewrite truthy_rank_succ.
        repeat split; try tauto.
      * destruct IH as [H1 H2].
        unfold entry_ok. cbn [keyword_entry changeId vectorRank keywordRank
          normalizedVectorScore normalizedKeywordScore vectorScore].
        rewrite truthy_rank_succ. cbn [truthy_rank].
        repeat split; try tauto; try discriminate.
    + rewrite (get_set_other _ _ _ _ E).
      specialize (IH id).
      destruct (get m id) as [e|].
      * destruct IH as (H1 & H2 & H3 & H4 & H5 & H6 & H7).
        unfold entry_ok. repeat split; try tauto.
      * tauto.
Qed.

Lemma collected_ok vs ks :
  map_ok vs ks (scoreMap_collected params nv nk vs ks).
Proof. apply keyword_pass_ok, vector_pass_ok. Qed.

Lemma get_boosted vs ks id :
  get (scoreMap_boosted params nv nk vs ks) id
  = option_map boost (get (scoreMap_collected params nv nk vs ks) id).
Proof.
  unfold scoreMap_boosted.
  induction (scoreMap_collected params nv nk vs ks) as [|[k0 e0] m IH];
    simpl; [reflexivity|].
  destruct (String.eqb id k0); [reflexivity | exact IH].
Qed.

(** The fused ranking holds exactly the boosted entries of the score
    map. *)
Lemma fusion_In vs ks e :
  In e (reciprocalRankFusion params nv nk vs ks) <->
  exists id e0,
    get (scoreMap_collected params nv nk vs ks) id = Some e0 /\ e = boost e0.
Proof.
  unfold reciprocalRankFusion. rewrite sort_In.
  unfold values, scoreMap_boosted. rewrite map_map. cbn [snd].
  rewrite in_map_iff. split.
  - intros [[id e0] [<- Hin]]. exists id, e0. split; [|reflexivity].
    apply In_get; [apply collected_keys | exact Hin].
  - intros (id & e0 & Hget & ->). exists (id, e0). split; [reflexivity|].
    now apply get_Some_In.
Qed.

Lemma boost_changeId e : changeId (boost e) = changeId e.
Proof. unfold boost. now destruct (_ && _). Qed.

(** Each candidate occurs once in the fused ranking. *)
Lemma fusion_unique vs ks e e' :
  In e (reciprocalRankFusion params nv nk vs ks) ->
  In e' (reciprocalRankFusion params nv nk vs ks) ->
  changeId e = changeId e' -> e = e'.
Proof.
  intros He He' Hid.
  apply fusion_In in He. destruct He as (id & e0 & Hg & ->).
  apply fusion_In in He'. destruct He' as (id' & e0' & Hg' & ->).
  rewrite !boost_changeId in Hid.
  pose proof (collected_ok vs ks id) as H. rewrite Hg in H.
  pose proof (collected_ok vs ks id') as H'. rewrite Hg' in H'.
  destruct H as [H _], H' as [H' _].
  assert (id = id') by congruence. subst id'.
  congruence.
Qed.
End FusionInvariant.

Section FusionTheorems.
Import JsMap JsMapFacts.

Lemma fold_set_get {V : Type} (es : list (string * V)) (m : JsMap.t V)
  (id : string) (x : V) :
  get (fold_left (fun m kv => set m (fst kv) (snd kv)) es m) id = Some x ->
  In (id, x) es \/ get m id = Some x.
Proof.
  revert m. induction es as [|[k0 v0] es IH]; intros m H; simpl in *.
  - now right.
  - destruct (IH _ H) as [Hin|Hget]; [left; now right|].
    destruct (string_dec k0 id) as [E|E].
    + subst. rewrite get_set_same in Hget. injection Hget as ->.
      left. now left.
    + rewrite (get_set_other _ _ _ _ E) in Hget. now right.
Qed.

Lemma of_entries_get {V : Type} (es : list (string * V)) (id : string) (x : V) :
  get (of_entries es) id = Some x -> In (id, x) es.
Proof.
  intros H. destruct (fold_set_get es empty id x H) as [Hin|Hget];
    [exact Hin | discriminate].
Qed.

Lemma normalizeScores_unit_scores rs thr : unit_scores (normalizeScores rs thr).
Proof. intros e. apply normalizeScores_unit. Qed.

Lemma nv_lookup_unit nv id : unit_scores nv -> 0 <= nv_lookup nv id <= 1.
Proof.
  intros Hu. unfold nv_lookup.
  destruct (get (normalizedVectorMap nv) id) as [x|] eqn:E; cbn; [|lra].
  apply of_entries_get, in_map_iff in E.
  destruct E as [e [[= _ <-] He]]. now apply Hu.
Qed.

Lemma nk_lookup_unit nk id : unit_scores nk -> 0 <= nk_lookup nk id <= 1.
Proof.
  intros Hu. unfold nk_lookup.
  destruct (get (normalizedKeywordMap nk) id) as [x|] eqn:E; cbn; [|lra].
  apply of_entries_get, in_map_iff in E.
  destruct E as [e [[= _ <-] He]]. now apply Hu.
Qed.

Lemma overlap_factor_bounds (a b : Q) :
  0 <= a <= 1 -> 0 <= b <= 1 ->
  1 <= 1 + 0.2 * Qmin 1 (a * b) <= 1.2.
Proof.
  intros Ha Hb.
  assert (H0 : 0 <= a * b) by (apply Qmult_le_0_compat; tauto).
  assert (H1 : Qmin 1 (a * b) <= 1) by apply Q.le_min_l.
  assert (H2 : 0 <= Qmin 1 (a * b)) by (apply Q.min_glb; lra).
  split; lra.
Qed.
End FusionTheorems.

(* ------------------------------------------------------------------ *)
(** * The sort of the engine *)

Lemma forallb_ext_in {A : Type} (f g : A -> bool) (l : list A) :
  (forall x, In x l -> f x = g x) -> forallb f l = forallb g l.
Proof.
  induction l as [|x l IH]; intros H; cbn; [reflexivity|].
  rewrite (H x (or_introl eq_refl)), IH; [reflexivity|].
  intros y Hy. apply H. now right.
Qed.

Lemma insert_sorted_In {A : Type} (cmp : A -> A -> Q) (x z : A)
  (l : list A) :
  In z (insert_sorted cmp x l) <-> z = x \/ In z l.
Proof.
  split.
  - intros H. apply (Permutation_in _ (insert_sorted_perm cmp x l)) in H.
    destruct H as [<-|H]; [now left | now right].
  - intros H.
    apply (Permutation_in _ (Permutation_sym (insert_sorted_perm cmp x l))).
    destruct H as [->|H]; [now left | now right].
Qed.

Lemma insert_sorted_ext_in {A : Type} (cmp cmp' : A -> A -> Q) (x : A)
  (l : list A) :
  (forall y, In y l -> cmp x y = cmp' x y) ->
  insert_sorted cmp x l = insert_sorted cmp' x l.
Proof.
  induction l as [|y l IH]; intros H; cbn; [reflexivity|].
  rewrite (H y (or_introl eq_refl)), IH; [reflexivity|].
  intros z Hz. apply H. now right.
Qed.

Lemma sort_ext_in {A : Type} (cmp cmp' : A -> A -> Q) (l : list A) :
  (forall a b, In a l -> In b l -> cmp a b = cmp' a b) ->
  sort cmp l = sort cmp' l.
Proof.
  induction l as [|x l IH]; intros H; cbn [sort]; [reflexivity|].
  rewrite <- IH by (intros a b Ha Hb; apply H; now right).
  apply insert_sorted_ext_in. intros y Hy. apply H; [now left|].
  right. now apply (sort_In cmp l y).
Qed.

Lemma insert_sorted_map {A B : Type} (g : A -> B) (cmpB : B -> B -> Q)
  (cmpA : A -> A -> Q) (x : A) (l : list A) :
  (forall a b, cmpB (g a) (g b) = cmpA a b) ->
  insert_sorted cmpB (g x) (List.map g l)
  = List.map g (insert_sorted cmpA x l).
Proof.
  intros H. induction l as [|y l IH]; cbn; [reflexivity|].
  rewrite H. destruct (Qle_bool (cmpA x y) 0); cbn; [reflexivity|].
  now rewrite IH.
Qed.

Lemma sort_map {A B : Type} (g : A -> B) (cmpB : B -> B -> Q)
  (cmpA : A -> A -> Q) (l : list A) :
  (forall a b, cmpB (g a) (g b) = cmpA a b) ->
  sort cmpB (List.map g l) = List.map g (sort cmpA l).
Proof.
  intros H. induction l as [|x l IH]; cbn [sort List.map]; [reflexivity|].
  rewrite IH. now apply insert_sorted_map.
Qed.

Lemma consistent_ext_in {A : Type} (cmp cmp' : A -> A -> option Q)
  (l : list A) :
  (forall a b, In a l -> In b l -> cmp a b = cmp' a b) ->
  consistent cmp l = consistent cmp' l.
Proof.
  intros H. unfold consistent, never_NaN. f_equal.
  - apply forallb_ext_in. intros a Ha.
    apply forallb_ext_in. intros b Hb. now rewrite H.
  - apply forallb_ext_in. intros a Ha.
    f_equal; [unfold eqCF; now rewrite H|].
    apply forallb_ext_in. intros b Hb.
    f_equal; [unfold eqCF; now rewrite (H a b), (H b a)|].
    apply forallb_ext_in. intros c Hc.
    unfold eqCF, ltCF, gtCF.
    now rewrite (H a b), (H b c), (H a c).
Qed.

Lemma consistent_spec {A : Type} (cmp : A -> A -> option Q) (l : list A) :
  consistent cmp l = true -> consistent_order cmp l.
Proof.
  unfold consistent. intros H. apply andb_true_iff in H. destruct H as [_ H].
  rewrite forallb_forall in H.
  assert (Ha : forall a, In a l ->
            eqCF cmp a a = true
            /\ forall b, In b l ->
                 (eqCF cmp a b = true -> eqCF cmp b a = true)
                 /\ forall c, In c l ->
                      (eqCF cmp a b = true -> eqCF cmp b c = true ->
                       eqCF cmp a c = true)
                      /\ (ltCF cmp a b = true -> ltCF cmp b c = true ->
                          ltCF cmp a c = true)
                      /\ (gtCF cmp a b = true -> gtCF cmp b c = true ->
                          gtCF cmp a c = true)).
  { intros a Hin. specialize (H a Hin).
    apply andb_true_iff in H. destruct H as [Hr H]. split; [exact Hr|].
    rewrite forallb_forall in H. intros b Hb. specialize (H b Hb).
    apply andb_true_iff in H. destruct H as [Hs H].
    split; [now apply implb_true_iff|].
    rewrite forallb_forall in H. intros c Hc. specialize (H c Hc).
    apply andb_true_iff in H. destruct H as [H H3].
    apply andb_true_iff in H. destruct H as [H1 H2].
    rewrite implb_true_iff in H1, H2, H3.
    repeat split; intros X Y; [apply H1 | apply H2 | apply H3];
      now rewrite X, Y. }
  assert (Eq : forall a b, eqCF cmp a b = true <-> nan_zero (cmp a b) == 0)
    by (intros a b; apply Qeq_bool_iff).
  assert (Lt : forall a b, ltCF cmp a b = true <-> nan_zero (cmp a b) < 0)
    by (intros a b; unfold ltCF; apply (Qgtb_true 0 (nan_zero (cmp a b)))).
  assert (Gt : forall a b, gtCF cmp a b = true <-> 0 < nan_zero (cmp a b))
    by (intros a b; unfold gtCF; apply (Qgtb_true (nan_zero (cmp a b)) 0)).
  constructor.
  - intros a Hin. apply Eq. exact (proj1 (Ha a Hin)).
  - intros a b Hin Hb E. apply Eq.
    apply (proj1 (proj2 (Ha a Hin) b Hb)). now apply Eq.
  - intros a b c Hin Hb Hc E1 E2. apply Eq.
    apply (proj1 (proj2 (proj2 (Ha a Hin) b Hb) c Hc)); now apply Eq.
  - intros a b c Hin Hb Hc E1 E2. apply Lt.
    apply (proj1 (proj2 (proj2 (proj2 (Ha a Hin) b Hb) c Hc)));
      now apply Lt.
  - intros a b c Hin Hb Hc E1 E2. apply Gt.
    apply (proj2 (proj2 (proj2 (proj2 (Ha a Hin) b Hb) c Hc)));
      now apply Gt.
Qed.

Section ConsistentOrder.
Context {A : Type} (cmp : A -> A -> option Q) (l : list A).
Hypothesis Hco : consistent_order cmp l.

Local Abbreviation v := (fun a b => nan_zero (cmp a b)).

(** [a <CF b] gives [b >CF a], and the other way round. *)
Lemma co_lt_gt (a b : A) : In a l -> In b l -> v a b < 0 -> 0 < v b a.
Proof.
  intros Ha Hb Hlt.
  destruct (Q_dec (v b a) 0) as [[Hba|Hba]|Hba]; [|exact Hba|].
  - pose proof (co_lt cmp l Hco a b a Ha Hb Ha Hlt Hba) as Haa.
    pose proof (co_reflexive cmp l Hco a Ha). cbv beta in *; lra.
  - pose proof (co_symmetric cmp l Hco b a Hb Ha Hba). cbv beta in *; lra.
Qed.

Lemma co_gt_lt (a b : A) : In a l -> In b l -> 0 < v a b -> v b a < 0.
Proof.
  intros Ha Hb Hgt.
  destruct (Q_dec (v b a) 0) as [[Hba|Hba]|Hba]; [exact Hba| |].
  - pose proof (co_gt cmp l Hco a b a Ha Hb Ha Hgt Hba) as Haa.
    pose proof (co_reflexive cmp l Hco a Ha). cbv beta in *; lra.
  - pose proof (co_symmetric cmp l Hco b a Hb Ha Hba). cbv beta in *; lra.
Qed.

Lemma co_total (a b : A) :
  In a l -> In b l -> ~ v a b <= 0 -> v b a <= 0.
Proof.
  intros Ha Hb Hnot. apply Qnot_le_lt in Hnot.
  apply Qlt_le_weak. now apply co_gt_lt.
Qed.

Lemma co_transitive (a b c : A) :
  In a l -> In b l -> In c l -> v a b <= 0 -> v b c <= 0 -> v a c <= 0.
Proof.
  intros Ha Hb Hc Hab Hbc.
  apply Qnot_lt_le. intros Hac.
  pose proof (co_gt_lt a c Ha Hc Hac) as Hca.
  destruct (Q_dec (v a b) 0) as [[Hab'|Hab']|Hab']; [|cbv beta in *; lra|].
  - (* a <CF b *)
    pose proof (co_lt cmp l Hco c a b Hc Ha Hb Hca Hab') as Hcb.
    pose proof (co_lt_gt c b Hc Hb Hcb). cbv beta in *; lra.
  - (* a =CF b *)
    destruct (Q_dec (v b c) 0) as [[Hbc'|Hbc']|Hbc']; [|cbv beta in *; lra|].
    + pose proof (co_lt cmp l Hco b c a Hb Hc Ha Hbc' Hca) as Hba.
      pose proof (co_symmetric cmp l Hco a b Ha Hb Hab'). cbv beta in *; lra.
    + pose proof (co_eq cmp l Hco a b c Ha Hb Hc Hab' Hbc'). cbv beta in *; lra.
Qed.
End ConsistentOrder.

(** A stable insertion sort leaves the list in order for a comparator that
    is total and transitive on its elements. *)
Section SortedOn.
Context {A : Type} (cmp : A -> A -> Q) (P : A -> Prop).
Hypothesis total_on : forall a b, P a -> P b -> ~ cmp a b <= 0 -> cmp b a <= 0.
Hypothesis transitive_on : forall a b c, P a -> P b -> P c ->
  cmp a b <= 0 -> cmp b c <= 0 -> cmp a c <= 0.

Lemma insert_sorted_StronglySorted (x : A) (l : list A) :
  P x -> Forall P l ->
  StronglySorted (fun a b => cmp a b <= 0) l ->
  StronglySorted (fun a b => cmp a b <= 0) (insert_sorted cmp x l).
Proof.
  intros Hx Hl Hs. induction Hs as [|y l Hs IH Hall]; cbn.
  - repeat constructor.
  - pose proof (Forall_inv Hl) as Hy. pose proof (Forall_inv_tail Hl) as Hl'.
    destruct (Qle_bool (cmp x y) 0) eqn:E.
    + apply Qle_bool_iff in E.
      constructor; [constructor; assumption|].
      constructor; [exact E|].
      apply Forall_forall. intros z Hz.
      apply (transitive_on x y z Hx Hy); [| exact E |].
      * exact (proj1 (Forall_forall _ _) Hl' z Hz).
      * exact (proj1 (Forall_forall _ _) Hall z Hz).
    + constructor; [now apply IH|].
      apply Forall_forall. intros z Hz.
      apply insert_sorted_In in Hz. destruct Hz as [->|Hz].
      * apply total_on; [exact Hx | exact Hy |].
        intros Hle. apply Qle_bool_iff in Hle. congruence.
      * exact (proj1 (Forall_forall _ _) Hall z Hz).
Qed.

Lemma sort_StronglySorted (l : list A) :
  Forall P l -> StronglySorted (fun a b => cmp a b <= 0) (sort cmp l).
Proof.
  induction l as [|x l IH]; intros Hl; cbn [sort]; [constructor|].
  apply insert_sorted_StronglySorted.
  - exact (Forall_inv Hl).
  - apply Forall_forall. intros z Hz. apply sort_In in Hz.
    exact (proj1 (Forall_forall _ _) (Forall_inv_tail Hl) z Hz).
  - apply IH. exact (Forall_inv_tail Hl).
Qed.
End SortedOn.

Lemma Array_sort_consistent (rt : Runtime) {A : Type}
  (cmp : A -> A -> option Q) (l : list A) :
  consistent cmp l = true ->
  Array_sort rt cmp l = sort (fun a b => nan_zero (cmp a b)) l.
Proof. intros H. unfold Array_sort. now rewrite H. Qed.

(** With a consistent comparator every pair of the sorted array is in
    order. *)
Lemma Array_sort_sorted (rt : Runtime) {A : Type}
  (cmp : A -> A -> option Q) (l : list A) :
  consistent cmp l = true ->
  StronglySorted (fun a b => nan_zero (cmp a b) <= 0) (Array_sort rt cmp l).
Proof.
  intros H. rewrite (Array_sort_consistent rt cmp l H).
  pose proof (consistent_spec cmp l H) as Hco.
  apply (sort_StronglySorted (fun a b => nan_zero (cmp a b))
           (fun a => In a l)).
  - intros a b. apply (co_total cmp l Hco).
  - intros a b c. apply (co_transitive cmp l Hco).
  - apply Forall_forall. auto.
Qed.

Lemma Array_sort_perm (rt : Runtime) {A : Type} (cmp : A -> A -> option Q)
  (l : list A) :
  permutes rt -> Permutation (Array_sort rt cmp l) l.
Proof.
  intros Hp. unfold Array_sort.
  destruct (consistent cmp l); [apply sort_perm | apply Hp].
Qed.

Lemma Array_sort_In (rt : Runtime) {A : Type} (cmp : A -> A -> option Q)
  (l : list A) (x : A) :
  permutes rt -> In x (Array_sort rt cmp l) <-> In x l.
Proof.
  intros Hp. split; apply Permutation_in;
    [|apply Permutation_sym]; now apply Array_sort_perm.
Qed.

Lemma reference_runtime_permutes : permutes reference_runtime.
Proof. intros A cmp l. apply sort_perm. Qed.

(** A comparator that subtracts numbers is a consistent one. *)
Lemma numeric_consistent {A : Type} (f : A -> Q) (l : list A) :
  consistent (fun a b => Some (f b - f a)) l = true.
Proof.
  unfold consistent, never_NaN. apply andb_true_iff. split.
  - apply forallb_forall. intros a _. now apply forallb_forall.
  - assert (Eq : forall a b,
              eqCF (fun a b => Some (f b - f a)) a b = true <-> f b == f a).
    { intros a b. unfold eqCF. cbn [nan_zero nullish].
      rewrite Qeq_bool_iff. split; intros H; lra. }
    assert (Lt : forall a b,
              ltCF (fun a b => Some (f b - f a)) a b = true <-> f b < f a).
    { intros a b. unfold ltCF. cbn [nan_zero nullish].
      rewrite (Qgtb_true 0 (f b - f a)). split; intros H; lra. }
    assert (Gt : forall a b,
              gtCF (fun a b => Some (f b - f a)) a b = true <-> f a < f b).
    { intros a b. unfold gtCF. cbn [nan_zero nullish].
      rewrite (Qgtb_true (f b - f a) 0). split; intros H; lra. }
    apply forallb_forall. intros a _. apply andb_true_iff. split.
    { apply Eq. reflexivity. }
    apply forallb_forall. intros b _. apply andb_true_iff. split.
    { apply implb_true_iff. rewrite !Eq. intros H. now symmetry. }
    apply forallb_forall. intros c _.
    apply andb_true_iff. split; [apply andb_true_iff; split|];
      apply implb_true_iff; rewrite andb_true_iff.
    + rewrite !Eq. intros [H1 H2]. lra.
    + rewrite !Lt. intros [H1 H2]. lra.
    + rewrite !Gt. intros [H1 H2]. lra.
Qed.

(** On a list whose comparator subtracts numbers the engine sorts as the
    stable insertion sort does. *)
Lemma Array_sort_numeric (rt : Runtime) {A : Type}
  (cmp : A -> A -> option Q) (f : A -> Q) (l : list A) :
  (forall a b, In a l -> In b l -> cmp a b = Some (f b - f a)) ->
  Array_sort rt cmp l = sort (fun a b => f b - f a) l.
Proof.
  intros H.
  rewrite Array_sort_consistent
    by (rewrite (consistent_ext_in cmp (fun a b => Some (f b - f a)) l H);
        apply numeric_consistent).
  apply sort_ext_in. intros a b Ha Hb. now rewrite H.
Qed.

(** ** The raw scores the fusion records *)

Section RawScores.
Import JsMap JsMapFacts.
Variable params : HybridSearchParams.
Variable nv nk : NormalizedScores.

Lemma raw_vector_score_snoc vs x id score :
  v_changeId x <> id ->
  raw_vector_score vs id score -> raw_vector_score (vs ++ [x]) id score.
Proof.
  intros Hne. destruct score as [s|]; cbn.
  - intros (v & Hv & Hid & Hs). exists v. rewrite in_app_iff. tauto.
  - intros Hnot Hin. apply vector_ids_snoc in Hin. tauto.
Qed.

Lemma raw_keyword_score_snoc ks x id score :
  c_id (k_change x) <> id ->
  raw_keyword_score ks id score -> raw_keyword_score (ks ++ [x]) id score.
Proof.
  intros Hne. destruct score as [s|]; cbn.
  - intros (k & Hk & Hid & Hs). exists k. rewrite in_app_iff. tauto.
  - intros Hnot Hin. apply keyword_ids_snoc in Hin. tauto.
Qed.

Lemma vector_pass_raw vs :
  raw_scores_ok vs [] (forEach (processVector params nv) vs empty).
Proof.
  induction vs as [|x vs IH] using rev_ind.
  - intros id e. discriminate.
  - intros id e. rewrite forEach_snoc, processVector_eq.
    destruct (string_dec (v_changeId x) id) as [E|E].
    + subst id. rewrite get_set_same. intros [= <-].
      cbn [vector_entry vectorScore keywordScore]. split.
      * exists x. rewrite in_app_iff. cbn. tauto.
      * intros [].
    + rewrite (get_set_other _ _ _ _ E). intros Hget.
      destruct (IH id e Hget) as [Hv Hk].
      split; [now apply raw_vector_score_snoc | exact Hk].
Qed.

Lemma keyword_pass_raw vs ks m0 :
  map_ok nv nk vs [] m0 -> raw_scores_ok vs [] m0 ->
  raw_scores_ok vs ks (forEach (processKeyword params nk) ks m0).
Proof.
  intros Hok0 H0.
  induction ks as [|x ks IH] using rev_ind; [exact H0|].
  intros id e. rewrite forEach_snoc, processKeyword_eq.
  pose proof (keyword_pass_ok params nv nk vs ks m0 Hok0) as Hok.
  set (m := forEach (processKeyword params nk) ks m0) in *.
  destruct (string_dec (c_id (k_change x)) id) as [E|E].
  - subst id. rewrite get_set_same. intros [= <-].
    specialize (Hok (c_id (k_change x))).
    destruct (get m (c_id (k_change x))) as [ex|] eqn:Hget;
      cbn [keyword_entry vectorScore keywordScore].
    + destruct (IH _ _ Hget) as [Hv _]. split; [exact Hv|].
      exists x. rewrite in_app_iff. cbn. tauto.
    + split; [exact (proj1 Hok)|].
      exists x. rewrite in_app_iff. cbn. tauto.
  - rewrite (get_set_other _ _ _ _ E). intros Hget.
    destruct (IH id e Hget) as [Hv Hk].
    split; [exact Hv | now apply raw_keyword_score_snoc].
Qed.

Lemma collected_raw vs ks :
  raw_scores_ok vs ks (scoreMap_collected params nv nk vs ks).
Proof.
  apply keyword_pass_raw; [apply vector_pass_ok | apply vector_pass_raw].
Qed.

Lemma boost_raw (e : RankedResult) :
  vectorScore (boost e) = vectorScore e
  /\ keywordScore (boost e) = keywordScore e.
Proof. unfold boost. now destruct (_ && _). Qed.

(** A fused candidate carries the raw scores of hits of its id. *)
Lemma fusion_raw vs ks e :
  In e (reciprocalRankFusion params nv nk vs ks) ->
  raw_vector_score vs (changeId e) (vectorScore e)
  /\ raw_keyword_score ks (changeId e) (keywordScore e).
Proof.
  intros Hin. apply fusion_In in Hin. destruct Hin as (id & e0 & Hget & ->).
  pose proof (collected_ok params nv nk vs ks id) as Hok.
  rewrite Hget in Hok. destruct Hok as [Hid _].
  rewrite boost_changeId, Hid.
  destruct (boost_raw e0) as [-> ->].
  exact (collected_raw vs ks id e0 Hget).
Qed.

(** Every hit of a leg is a candidate of the fused ranking. *)
Lemma fusion_complete vs ks id :
  In id (vector_ids vs) \/ In id (keyword_ids ks) ->
  exists e, In e (reciprocalRankFusion params nv nk vs ks) /\ changeId e = id.
Proof.
  intros Hin.
  pose proof (collected_ok params nv nk vs ks id) as Hok.
  destruct (get (scoreMap_collected params nv nk vs ks) id) as [e0|] eqn:Hget.
  - exists (boost e0). split.
    + apply fusion_In. now exists id, e0.
    + rewrite boost_changeId. exact (proj1 Hok).
  - tauto.
Qed.

(** The fused ranking is no longer than the two legs together. *)
Lemma fusion_length vs ks :
  (length (reciprocalRankFusion params nv nk vs ks)
   <= length vs + length ks)%nat.
Proof.
  unfold reciprocalRankFusion. rewrite sort_length.
  unfold values, scoreMap_boosted. rewrite !length_map.
  rewrite <- (length_map fst).
  change (List.map fst (scoreMap_collected params nv nk vs ks))
    with (keys (scoreMap_collected params nv nk vs ks)).
  rewrite <- (length_map v_changeId vs),
    <- (length_map (fun r => c_id (k_change r)) ks), <- length_app.
  apply NoDup_incl_length; [apply collected_keys|].
  intros id Hid. apply in_app_iff.
  pose proof (collected_ok params nv nk vs ks id) as Hok.
  destruct (get (scoreMap_collected params nv nk vs ks) id) as [e0|] eqn:Hget.
  - exact (proj1 (proj2 (proj2 (proj2 (proj2 (proj2 Hok)))))).
  - exfalso. apply get_None_keys in Hget. exact (Hget Hid).
Qed.
End RawScores.

(** ** Rank fusion: the statements *)

Lemma NoDup_map_nth_error {A B : Type} (f : A -> B) (l : list A)
  (i j : nat) (x y : A) :
  NoDup (List.map f l) ->
  nth_error l i = Some x -> nth_error l j = Some y -> f x = f y ->
  i = j /\ x = y.
Proof.
  intros Hnd Hi Hj Hf.
  assert (E : i = j).
  { apply (proj1 (NoDup_nth_error (List.map f l)) Hnd).
    - rewrite length_map. apply nth_error_Some. congruence.
    - rewrite (map_nth_error f _ _ Hi), (map_nth_error f _ _ Hj).
      now rewrite Hf. }
  subst j. split; [reflexivity | congruence].
Qed.

Lemma boost_single (e : RankedResult) :
  vectorRank e = None \/ keywordRank e = None -> boost e = e.
Proof.
  unfold boost. intros [H|H]; rewrite H; cbn; [reflexivity|].
  now rewrite andb_false_r.
Qed.

(** In [reciprocalRankFusion] over rankings of distinct candidates, the
    result at 1-based rank [i + 1] of the vector list contributes
    [vectorWeight * (1 / (60 + (i + 1)))] and the result at rank [j + 1] of
    the lexical list [keywordWeight * (1 / (60 + (j + 1)))]: a candidate of
    one leg only is ranked with exactly that score, a candidate of both
    legs with the sum of the two contributions times its overlap boost, and
    each candidate occurs once in the fused ranking. *)
Lemma distinct_contributions (params : HybridSearchParams)
  (nv nk : NormalizedScores)
  (vs : list VectorSearchResult) (ks : list KeywordResult) :
  NoDup (vector_ids vs) -> NoDup (keyword_ids ks) ->
  let out := reciprocalRankFusion params nv nk vs ks in
  (forall i v, nth_error vs i = Some v ->
     exists e, In e out /\ changeId e = v_changeId v
       /\ vectorRank e = Some (i + 1)%nat
       /\ (~ In (v_changeId v) (keyword_ids ks) ->
           keywordRank e = None
           /\ rrfScore e == vectorWeight params * (1 / (60 + Qnat (i + 1))))
       /\ (forall j r, nth_error ks j = Some r ->
             c_id (k_change r) = v_changeId v ->
             keywordRank e = Some (j + 1)%nat
             /\ rrfScore e ==
                (vectorWeight params * (1 / (60 + Qnat (i + 1)))
                 + keywordWeight params * (1 / (60 + Qnat (j + 1))))
                * overlapBoost e))
  /\ (forall j r, nth_error ks j = Some r ->
        ~ In (c_id (k_change r)) (vector_ids vs) ->
        exists e, In e out /\ changeId e = c_id (k_change r)
          /\ vectorRank e = None /\ keywordRank e = Some (j + 1)%nat
          /\ rrfScore e == keywordWeight params * (1 / (60 + Qnat (j + 1))))
  /\ (forall e e', In e out -> In e' out -> changeId e = changeId e' -> e = e').
Proof.
  intros Hv Hk out. split; [|split].
  - intros i v Hi.
    pose proof (vector_pass_at params nv vs 0 JsMap.empty i v Hv Hi) as Hget.
    cbn [Nat.add] in Hget.
    destruct (in_dec string_dec (v_changeId v) (keyword_ids ks)) as [Hin|Hnot].
    + unfold keyword_ids in Hin. apply in_map_iff in Hin.
      destruct Hin as [r [Hid Hr]].
      apply In_nth_error in Hr. destruct Hr as [j Hj].
      pose proof (keyword_pass_at params nk ks 0
        (forEach (processVector params nv) vs JsMap.empty) j r Hk Hj) as Hc.
      cbn [Nat.add] in Hc. rewrite Hid in Hc at 2.
      unfold forEach in Hc at 2. rewrite Hget in Hc.
      exists (boost (keyword_entry params nk (Some (vector_entry params nv v i)) r j)).
      split; [|split; [|split; [|split]]].
      * apply fusion_In. exists (c_id (k_change r)). eexists.
        split; [exact Hc | reflexivity].
      * rewrite boost_changeId. reflexivity.
      * unfold boost. now destruct (_ && _).
      * intros Hnot. exfalso. apply Hnot. rewrite <- Hid.
        unfold keyword_ids.
        change (c_id (k_change r)) with ((fun r0 => c_id (k_change r0)) r).
        apply in_map. eapply nth_error_In; eassumption.
      * intros j' r' Hj' Hid'.
        destruct (NoDup_map_nth_error (fun r0 => c_id (k_change r0)) ks j j' r r'
                    Hk Hj Hj') as [<- <-]; [congruence|].
        unfold boost, keyword_entry, vector_entry.
        cbn [vectorRank keywordRank]. rewrite !truthy_rank_succ.
        cbn [andb set_rrfScore rrfScore keywordRank]. split; [reflexivity|].
        unfold contribution, SEARCH_DEFAULTS.RRF_K, overlapBoost.
        cbn [normalizedVectorScore normalizedKeywordScore]. reflexivity.
    + pose proof (keyword_pass_other params nk ks 0
        (forEach (processVector params nv) vs JsMap.empty) _ Hnot) as Hc.
      unfold forEach in Hc at 2. rewrite Hget in Hc.
      exists (vector_entry params nv v i).
      split; [|split; [|split; [|split]]].
      * apply fusion_In. exists (v_changeId v), (vector_entry params nv v i).
        split; [exact Hc|]. symmetry. apply boost_single. now right.
      * reflexivity.
      * reflexivity.
      * intros _. split; [reflexivity|].
        unfold vector_entry, contribution, SEARCH_DEFAULTS.RRF_K.
        cbn [rrfScore]. reflexivity.
      * intros j r Hj Hid. exfalso. apply Hnot. rewrite <- Hid.
        unfold keyword_ids.
        change (c_id (k_change r)) with ((fun r0 => c_id (k_change r0)) r).
        apply in_map. eapply nth_error_In; eassumption.
  - intros j r Hj Hnot.
    pose proof (keyword_pass_at params nk ks 0
      (forEach (processVector params nv) vs JsMap.empty) j r Hk Hj) as Hc.
    cbn [Nat.add] in Hc.
    pose proof (vector_pass_other params nv vs 0 JsMap.empty _ Hnot) as Hget.
    cbn [JsMap.get JsMap.empty] in Hget.
    unfold forEach in Hc at 2. rewrite Hget in Hc.
    exists (keyword_entry params nk None r j).
    split; [|repeat split].
    apply fusion_In. exists (c_id (k_change r)). eexists.
    split; [exact Hc|]. symmetry. apply boost_single. now left.
  - intros e e'. apply fusion_unique.
Qed.

Lemma distinct_contributions_example :
  exists e, In e (fuse default_params vector_leg_ab keyword_leg_bc)
    /\ changeId e = "a"%string
    /\ rrfScore e == 0.6 * (1 / (60 + 1)).
Proof.
  assert (Hv : NoDup (vector_ids vector_leg_ab)).
  { repeat constructor; cbn; intuition discriminate. }
  assert (Hk : NoDup (keyword_ids keyword_leg_bc)).
  { repeat constructor; cbn; intuition discriminate. }
  destruct (distinct_contributions default_params
              (normalizedVectorOf vector_leg_ab)
              (normalizedKeywordOf keyword_leg_bc)
              vector_leg_ab keyword_leg_bc Hv Hk) as [H _].
  destruct (H 0%nat (mkVSR "v1" "a" 0.9 0.1) eq_refl)
    as (e & Hin & Hid & _ & Hsingle & _).
  exists e. split; [exact Hin|]. split; [exact Hid|].
  apply Hsingle. cbn. intuition discriminate.
Defined.

(** C3, on the code.  A vector leg that returns the change ["a"] at rank 1
    and again at rank 2 leaves ["a"] with the contribution of rank 2 alone:
    the second [scoreMap.set] replaces the entry of the first, whose
    contribution [vectorWeight * (1 / (60 + 1))] is lost.  The lexical
    pass, given the same repetition, adds the second contribution to the
    first. *)
Theorem rrf_contributions :
  (exists e,
     fuse default_params vector_leg_aa [] = [e]
     /\ changeId e = "a"%string
     /\ vectorRank e = Some 2%nat
     /\ rrfScore e == 0.6 * (1 / (60 + 2))
     /\ ~ rrfScore e == 0.6 * (1 / (60 + 1)) + 0.6 * (1 / (60 + 2)))
  /\ (exists e,
        fuse default_params [] keyword_leg_aa = [e]
        /\ changeId e = "a"%string
        /\ rrfScore e == 0.4 * (1 / (60 + 1)) + 0.4 * (1 / (60 + 2))).
Proof.
  split.
  - eexists. split; [reflexivity|].
    repeat split. intros H. vm_compute in H. discriminate.
  - eexists. split; [reflexivity|]. repeat split.
Qed.

(** The overlap boost on the score map: an entry of both legs is multiplied
    by the boost factor, any other entry is left as it is. *)
Lemma boost_cases (nv nk : NormalizedScores)
  (vs : list VectorSearchResult) (ks : list KeywordResult)
  (id : string) (e0 : RankedResult) :
  entry_ok nv nk vs ks id e0 ->
  let factor := 1 + 0.2 * Qmin 1 (nv_lookup nv id * nk_lookup nk id) in
  (In id (vector_ids vs) -> In id (keyword_ids ks) ->
     normalizedVectorScore (boost e0) = Some (nv_lookup nv id)
     /\ normalizedKeywordScore (boost e0) = Some (nk_lookup nk id)
     /\ rrfScore (boost e0) == rrfScore e0 * factor)
  /\ (~ (In id (vector_ids vs) /\ In id (keyword_ids ks)) -> boost e0 = e0).
Proof.
  intros (Hid & Hvr & Hkr & Hnv & Hnk & _) factor. split.
  - intros Hv Hk.
    unfold boost.
    rewrite (proj2 Hvr Hv), (proj2 Hkr Hk). cbn [andb].
    unfold set_rrfScore, overlapBoost.
    cbn [normalizedVectorScore normalizedKeywordScore rrfScore].
    rewrite (Hnv Hv), (Hnk Hk). cbn [nullish].
    repeat split; reflexivity.
  - intros Hnot. unfold boost.
    destruct (truthy_rank (vectorRank e0)) eqn:Ev;
      destruct (truthy_rank (keywordRank e0)) eqn:Ek; cbn [andb];
      try reflexivity.
    exfalso. apply Hnot. split; [now apply Hvr | now apply Hkr].
Qed.

Lemma find_app {A : Type} (p : A -> bool) (l1 l2 : list A) :
  find p (l1 ++ l2)
  = match find p l1 with
    | Some x => Some x
    | None => find p l2
    end.
Proof.
  induction l1 as [|x l1 IH]; cbn; [reflexivity|]. now destruct (p x).
Qed.

(** [Map.get] on [new Map(entries)]: the value of the last entry under the
    key. *)
Lemma fold_set_last {V : Type} (es : list (string * V)) (m : JsMap.t V)
  (id : string) :
  JsMap.get (fold_left (fun m kv => JsMap.set m (fst kv) (snd kv)) es m) id
  = match find (fun kv => String.eqb (fst kv) id) (rev es) with
    | Some kv => Some (snd kv)
    | None => JsMap.get m id
    end.
Proof.
  revert m. induction es as [|[k v] es IH]; intros m; [reflexivity|].
  cbn [fold_left rev fst snd]. rewrite IH, find_app.
  destruct (find _ (rev es)) as [kv|]; [reflexivity|].
  cbn [find fst snd].
  destruct (String.eqb_spec k id) as [->|Hne].
  - apply JsMapFacts.get_set_same.
  - now apply JsMapFacts.get_set_other.
Qed.

Lemma find_map {A B : Type} (f : A -> B) (p : B -> bool) (l : list A) :
  find p (List.map f l) = option_map f (find (fun x => p (f x)) l).
Proof.
  induction l as [|x l IH]; cbn; [reflexivity|]. now destruct (p (f x)).
Qed.

Lemma lookup_leg_score (ns : NormalizedScores) (id : string) :
  nullish
    (JsMap.get
       (JsMap.of_entries
          (List.map (fun r => (n_id r, normalizedScore r)) (results ns)))
       id) 0
  = leg_score ns id.
Proof.
  unfold JsMap.of_entries, leg_score. rewrite fold_set_last.
  rewrite <- map_rev, find_map. cbn [fst].
  now destruct (find _ (rev (results ns))).
Qed.

Lemma nv_lookup_leg_score (nv : NormalizedScores) (id : string) :
  nv_lookup nv id = leg_score nv id.
Proof. apply lookup_leg_score. Qed.

Lemma nk_lookup_leg_score (nk : NormalizedScores) (id : string) :
  nk_lookup nk id = leg_score nk id.
Proof. apply lookup_leg_score. Qed.

(** C2. In the fusion that [search] runs, a candidate present in both the
    vector and the lexical result list has its total fusion score (the
    score collected by the two passes) multiplied by
    [1 + 0.2 * min(1, normalizedVectorScore * normalizedKeywordScore)],
    where the two normalized scores are the ones [normalizeScores] gave the
    candidate in the vector leg and in the lexical leg (0 for a leg whose
    threshold dropped it); the factor lies within [1.0, 1.2].  A candidate
    present in one leg only keeps the collected score unchanged. *)
Theorem overlap_bonus (params : HybridSearchParams)
  (vs : list VectorSearchResult) (ks : list KeywordResult) (e : RankedResult) :
  In e (fuse params vs ks) ->
  let id := changeId e in
  let nv := leg_score (normalizedVectorOf vs) id in
  let nk := leg_score (normalizedKeywordOf ks) id in
  exists e0,
    JsMap.get (scoreMap_collected params (normalizedVectorOf vs)
                 (normalizedKeywordOf ks) vs ks) id = Some e0
    /\ (In id (vector_ids vs) -> In id (keyword_ids ks) ->
        normalizedVectorScore e = Some nv
        /\ normalizedKeywordScore e = Some nk
        /\ rrfScore e == rrfScore e0 * (1 + 0.2 * Qmin 1 (nv * nk))
        /\ 1 <= 1 + 0.2 * Qmin 1 (nv * nk) <= 1.2)
    /\ (~ (In id (vector_ids vs) /\ In id (keyword_ids ks)) -> e = e0).
Proof.
  unfold fuse. intros Hin.
  apply fusion_In in Hin. destruct Hin as (id & e0 & Hget & ->).
  pose proof (collected_ok params (normalizedVectorOf vs)
                (normalizedKeywordOf ks) vs ks id) as Hok.
  rewrite Hget in Hok.
  assert (Hid : changeId e0 = id) by apply Hok.
  rewrite boost_changeId, Hid. cbv zeta.
  exists e0. split; [exact Hget|].
  destruct (boost_cases _ _ vs ks id e0 Hok) as [Hboth Hone].
  split; [|exact Hone].
  intros Hv Hk. destruct (Hboth Hv Hk) as (H1 & H2 & H3).
  rewrite nv_lookup_leg_score in H1, H3.
  rewrite nk_lookup_leg_score in H2, H3.
  split; [exact H1|]. split; [exact H2|]. split; [exact H3|].
  rewrite <- nv_lookup_leg_score, <- nk_lookup_leg_score.
  apply overlap_factor_bounds;
    first [ apply nv_lookup_unit | apply nk_lookup_unit ];
    apply normalizeScores_unit_scores.
Qed.

Lemma overlap_bonus_witness :
  exists e e0,
    In e (fuse default_params vector_leg_ca keyword_leg_bcd)
    /\ changeId e = "c"%string
    /\ leg_score (normalizedVectorOf vector_leg_ca) "c" == 1
    /\ leg_score (normalizedKeywordOf keyword_leg_bcd) "c" == 1 / 2
    /\ rrfScore e0 == 0.6 * (1 / (60 + 1)) + 0.4 * (1 / (60 + 2))
    /\ rrfScore e == rrfScore e0 * 1.1.
Proof.
  pose (e0 := mkRanked "c" (Some 1%nat) (Some 2%nat) (Some 0.9) (Some 2)
                (Some ((0.9 - 0.5) / (0.9 - 0.5))) (Some ((2 - 1) / (3 - 1)))
                (0.6 * (1 / (60 + Qnat 1)) + 0.4 * (1 / (60 + Qnat 2))) None).
  assert (Hget : JsMap.get
                   (scoreMap_collected default_params
                      (normalizedVectorOf vector_leg_ca)
                      (normalizedKeywordOf keyword_leg_bcd)
                      vector_leg_ca keyword_leg_bcd) "c" = Some e0)
    by reflexivity.
  assert (Hin : In (boost e0) (fuse default_params vector_leg_ca keyword_leg_bcd))
    by (vm_compute; left; reflexivity).
  destruct (overlap_bonus default_params vector_leg_ca keyword_leg_bcd
              (boost e0) Hin) as (e1 & Hget1 & Hboth & _).
  change (changeId (boost e0)) with "c"%string in Hget1, Hboth.
  rewrite Hget in Hget1. injection Hget1 as <-.
  destruct Hboth as (_ & _ & Hscore & _);
    [left; reflexivity | right; left; reflexivity |].
  exists (boost e0), e0.
  split; [exact Hin|]. split; [reflexivity|].
  split; [reflexivity|]. split; [reflexivity|]. split; [reflexivity|].
  rewrite Hscore. reflexivity.
Defined.


(** ** The lexical query *)

Lemma join_nonempty (sep : string) (t : string) (ts : list string) :
  t <> EmptyString -> join sep (t :: ts) <> EmptyString.
Proof.
  intros Ht. destruct ts as [|t' ts]; cbn [join]; [exact Ht|].
  destruct t; [contradiction | discriminate].
Qed.

(** When a term longer than one character remains, the lexical store
    receives the token-OR expression. *)
Lemma prepareFTSQuery_long_token (query : string) :
  (exists t, In t (fts_tokens query) /\ (1 < String.length t)%nat) ->
  prepareFTSQuery query
  = join " OR "
      (List.map (fun term => (String dquote term ++ String dquote "*")%string)
         (List.filter (fun term => (1 <? String.length term)%nat)
            (fts_tokens query)))
  /\ prepareFTSQuery query <> EmptyString.
Proof.
  intros (t & Hin & Hlen). unfold prepareFTSQuery.
  assert (Hf : In t (List.filter (fun term => (1 <? String.length term)%nat)
                       (fts_tokens query))).
  { apply filter_In. split; [exact Hin|]. now apply Nat.ltb_lt. }
  destruct (List.filter _ (fts_tokens query)) as [|t0 ts]; [contradiction|].
  cbn [List.map].
  pose proof (join_nonempty " OR "
                (String dquote t0 ++ String dquote "*")%string
                (List.map (fun term =>
                   (String dquote term ++ String dquote "*")%string) ts)) as Hne.
  destruct (join _ _) eqn:E.
  - exfalso. apply Hne; [discriminate | reflexivity].
  - split; [reflexivity | discriminate].
Qed.

Lemma join_head (sep : string) (c : ascii) (t : string) (ts : list string) :
  exists rest, join sep (String c t :: ts) = String c rest.
Proof.
  destruct ts as [|t' ts]; cbn [join]; eexists; reflexivity.
Qed.

(** C10. [prepareFTSQuery] falls back to the raw query in exactly one
    case.  When, after the special characters are blanked and the query is
    trimmed and split at white space, no term is longer than one character,
    it returns the raw query unchanged, and [keywordSearch] sends that raw
    text to the lexical store.  When a term longer than one character
    remains, it returns - and [keywordSearch] sends - the expression that
    joins the quoted long terms by OR, which differs from the raw query
    unless the raw query itself holds a double quote. *)
Theorem prepareFTSQuery_raw_fallback (query : string) :
  ((forall t, In t (fts_tokens query) -> (String.length t <= 1)%nat) ->
   prepareFTSQuery query = query
   /\ forall engine env topK,
        keywordSearch engine env query topK
        = lexical_request engine env query topK)
  /\ ((exists t, In t (fts_tokens query) /\ (1 < String.length t)%nat) ->
      let expression := join " OR " (List.map quoted (fts_terms query)) in
      prepareFTSQuery query = expression
      /\ fts_terms query <> []
      /\ (~ In dquote (chars query) -> prepareFTSQuery query <> query)
      /\ forall engine env topK,
           keywordSearch engine env query topK
           = lexical_request engine env expression topK).
Proof.
  split.
  - intros Hshort.
    assert (E : prepareFTSQuery query = query).
    { unfold prepareFTSQuery.
      assert (Hnil : List.filter (fun term => (1 <? String.length term)%nat)
                       (fts_tokens query) = []).
      { induction (fts_tokens query) as [|t ts IH]; [reflexivity|].
        cbn [List.filter].
        assert (Ht : (String.length t <= 1)%nat) by (apply Hshort; now left).
        apply Nat.ltb_ge in Ht. rewrite Ht.
        apply IH. intros t' H'. apply Hshort. now right. }
      rewrite Hnil. reflexivity. }
    split; [exact E|].
    intros engine env topK. unfold keywordSearch, lexical_request.
    now rewrite E.
  - intros Hlong. cbv zeta.
    destruct (prepareFTSQuery_long_token query Hlong) as [E Hne].
    fold quoted in E. fold (fts_terms query) in E.
    assert (Hterms : fts_terms query <> []).
    { destruct Hlong as (t & Hin & Hlen). intros Hnil.
      assert (Hf : In t (fts_terms query))
        by (apply filter_In; split; [exact Hin | now apply Nat.ltb_lt]).
      rewrite Hnil in Hf. contradiction. }
    split; [exact E|]. split; [exact Hterms|]. split.
    + intros Hq Heq. apply Hq. rewrite <- Heq, E.
      destruct (fts_terms query) as [|t0 ts]; [congruence|].
      cbn [List.map]. unfold quoted at 1. cbn [String.append].
      destruct (join_head " OR " dquote (t0 ++ String dquote "*")
                  (List.map quoted ts)) as (rest & ->).
      left. reflexivity.
    + intros engine env topK. unfold keywordSearch, lexical_request.
      now rewrite E.
Qed.

Lemma prepareFTSQuery_raw_fallback_witness :
  prepareFTSQuery "a - (b) *" = "a - (b) *"%string
  /\ prepareFTSQuery "fix parser" <> "fix parser"%string.
Proof.
  split.
  - refine (proj1 (proj1 (prepareFTSQuery_raw_fallback "a - (b) *") _)).
    intros t Hin. vm_compute in Hin.
    repeat (destruct Hin as [<-|Hin]; [vm_compute; lia|]).
    contradiction.
  - refine (proj1 (proj2 (proj2
      (proj2 (prepareFTSQuery_raw_fallback "fix parser") _))) _).
    + exists "fix"%string. split; [vm_compute; left; reflexivity|].
      vm_compute. lia.
    + vm_compute. intuition discriminate.
Defined.

(** ** findSimilar *)

(** C9. For a change id with no record in the metadata store,
    [findSimilar] rejects with the error "Change not found: <id>" and
    returns no value; in particular that outcome is not the empty list,
    which [search] does return as a successful result. *)
Theorem findSimilar_not_found (env : Env) (changeId : string) (topK : nat) :
  getChange env changeId = Ok None ->
  findSimilar env changeId topK
  = Throw (mkError ("Change not found: " ++ changeId))
  /\ (forall results, findSimilar env changeId topK <> Ok results)
  /\ search plain_engine empty_env (mkQuery "anything" None None) = Ok [].
Proof.
  intros Hget. unfold findSimilar. rewrite Hget. cbn [bind].
  split; [reflexivity|]. split; [intros results; discriminate|].
  vm_compute. reflexivity.
Qed.

Lemma findSimilar_not_found_witness :
  findSimilar empty_env "nonexistent-id" 5
  = Throw (mkError "Change not found: nonexistent-id").
Proof.
  exact (proj1 (findSimilar_not_found empty_env "nonexistent-id" 5 eq_refl)).
Defined.

(** ** The reranker *)

Section HuggingFace.
Variable backend : Backend.
Variable query : string.

Lemma hf_push_loop (docs : list RerankerDocument) (idx : nat)
  (acc : list json) :
  forEach_from
    (fun scores doc n => scores ++ [hf_score backend query n doc])
    idx docs acc
  = acc ++ hf_scores_from backend query idx docs.
Proof.
  revert idx acc. induction docs as [|doc rest IH]; intros idx acc; simpl.
  - now rewrite app_nil_r.
  - rewrite IH, <- app_assoc. reflexivity.
Qed.

Lemma hf_scores_eq (docs : list RerankerDocument) :
  hf_scores backend query docs = hf_scores_from backend query 0 docs.
Proof. unfold hf_scores, forEach. now rewrite hf_push_loop. Qed.

(** What the loop pushes is never [null]: the [??] chain ends in a
    number. *)
Lemma hf_score_not_null (n : nat) (doc : RerankerDocument) :
  hf_score backend query n doc <> JNull.
Proof.
  unfold hf_score.
  destruct (hf_fetch backend n (TextPair _ _)) as [e|st tx|[p|e]];
    try discriminate.
  - destruct (hf_fetch backend n (Separated _)) as [e|st' tx'|[p|e]];
      try discriminate.
    destruct (extractScoreFromResult p) as [[]|]; discriminate.
  - destruct (extractScoreFromResult p) as [[]|]; discriminate.
Qed.

Lemma zip_scores_pushed (docs : list RerankerDocument) (idx : nat)
  (pre : list json) :
  length pre = idx ->
  zip_scores idx (pre ++ hf_scores_from backend query idx docs) docs
  = scored_from backend query idx docs.
Proof.
  revert idx pre. induction docs as [|doc rest IH]; intros idx pre Hlen.
  - reflexivity.
  - cbn [hf_scores_from zip_scores scored_from].
    rewrite nth_error_app2 by lia.
    replace (idx - length pre)%nat with 0%nat by lia. cbn [nth_error].
    f_equal.
    + pose proof (hf_score_not_null idx doc) as Hnn.
      destruct (hf_score backend query idx doc); congruence.
    + change (pre ++ hf_score backend query idx doc
                     :: hf_scores_from backend query (S idx) rest)
        with (pre ++ [hf_score backend query idx doc]
                  ++ hf_scores_from backend query (S idx) rest).
      rewrite app_assoc. apply IH.
      rewrite length_app. cbn. lia.
Qed.

Lemma scored_from_length (docs : list RerankerDocument) (idx : nat) :
  length (scored_from backend query idx docs) = length docs.
Proof.
  revert idx. induction docs as [|doc rest IH]; intros idx; simpl; auto.
Qed.

Lemma scored_from_In (docs : list RerankerDocument) (idx n : nat)
  (doc : RerankerDocument) :
  nth_error docs n = Some doc ->
  In (mkReranked (Some (d_id doc)) (Some (hf_score backend query (idx + n) doc))
        (originalScore doc))
     (scored_from backend query idx docs).
Proof.
  revert idx n. induction docs as [|d rest IH]; intros idx n Hn.
  - destruct n; discriminate.
  - destruct n as [|n]; cbn [nth_error] in Hn; cbn [scored_from].
    + injection Hn as ->. left. now rewrite Nat.add_0_r.
    + right. replace (idx + S n)%nat with (S idx + n)%nat by lia.
      now apply IH.
Qed.

(** Every entry names a document and carries what was pushed for it. *)
Lemma scored_from_inv (docs : list RerankerDocument) (idx : nat)
  (r : RerankedValue) :
  In r (scored_from backend query idx docs) ->
  exists n doc,
    nth_error docs n = Some doc
    /\ r = mkReranked (Some (d_id doc))
             (Some (hf_score backend query (idx + n) doc)) (originalScore doc).
Proof.
  revert idx. induction docs as [|d rest IH]; intros idx H; [destruct H|].
  cbn [scored_from] in H. destruct H as [<-|H].
  - exists 0%nat, d. split; [reflexivity|]. now rewrite Nat.add_0_r.
  - destruct (IH _ H) as (n & doc & Hn & ->).
    exists (S n), doc. split; [exact Hn|].
    now replace (idx + S n)%nat with (S idx + n)%nat by lia.
Qed.

(** The value pushed for a document whose payload arrived. *)
Lemma hf_score_of_payload (n : nat) (doc : RerankerDocument) (p : json) :
  hf_payload backend query n doc = Some p ->
  hf_score backend query n doc
  = match extractScoreFromResult p with
    | Throw _ => JNum (nullish (originalScore doc) 0)
    | Ok JNull => JNum (nullish (originalScore doc) 0)
    | Ok score => score
    end.
Proof.
  unfold hf_payload, hf_score.
  destruct (hf_fetch backend n (TextPair _ _)) as [e|st tx|[p1|e]];
    try discriminate.
  - destruct (hf_fetch backend n (Separated _)) as [e|st' tx'|[p2|e]];
      try discriminate.
    now intros [= ->].
  - now intros [= ->].
Qed.

(** The value pushed for a document for which no payload arrived: the
    request failed, both statuses were not ok, or the body was no JSON. *)
Lemma hf_score_no_payload (n : nat) (doc : RerankerDocument) :
  hf_payload backend query n doc = None ->
  hf_score backend query n doc = JNum (nullish (originalScore doc) 0).
Proof.
  unfold hf_payload, hf_score.
  destruct (hf_fetch backend n (TextPair _ _)) as [e|st tx|[p1|e]];
    try discriminate; try reflexivity.
  destruct (hf_fetch backend n (Separated _)) as [e|st' tx'|[p2|e]];
    try discriminate; reflexivity.
Qed.

Lemma hf_score_unparseable (n : nat) (doc : RerankerDocument) (p : json) :
  hf_payload backend query n doc = Some p -> unparseable p ->
  hf_score backend query n doc = JNum (nullish (originalScore doc) 0).
Proof.
  intros Hp Hun. rewrite (hf_score_of_payload _ _ _ Hp).
  destruct (extractScoreFromResult p) as [score|e] eqn:E; [|reflexivity].
  now rewrite (Hun score E).
Qed.

Lemma hf_score_parsed (n : nat) (doc : RerankerDocument) (p : json) (s : Q) :
  hf_payload backend query n doc = Some p ->
  extractScoreFromResult p = Ok (JNum s) ->
  hf_score backend query n doc = JNum s.
Proof.
  intros Hp Hs. now rewrite (hf_score_of_payload _ _ _ Hp), Hs.
Qed.

Lemma rerankWithHuggingFace_keyed (svc : RerankerService)
  (docs : list RerankerDocument) (topK : nat) :
  truthy_string (apiKey (config svc)) = true ->
  rerankWithHuggingFace svc backend query docs topK
  = slice0 topK
      (Array_sort (runtime backend) (compareScores (runtime backend))
         (scored_from backend query 0 docs)).
Proof.
  intros Hkey. unfold rerankWithHuggingFace. rewrite Hkey. cbn [negb].
  rewrite hf_scores_eq.
  now rewrite <- (zip_scores_pushed docs 0 [] eq_refl).
Qed.

(** With a limit that cuts nothing the result holds the entries built, in
    some order. *)
Lemma rerankWithHuggingFace_all (svc : RerankerService)
  (docs : list RerankerDocument) (topK : nat) :
  permutes (runtime backend) ->
  truthy_string (apiKey (config svc)) = true ->
  (length docs <= topK)%nat ->
  Permutation (rerankWithHuggingFace svc backend query docs topK)
    (scored_from backend query 0 docs).
Proof.
  intros Hp Hkey Hle. rewrite (rerankWithHuggingFace_keyed _ _ _ Hkey).
  pose proof (Array_sort_perm (runtime backend)
                (compareScores (runtime backend))
                (scored_from backend query 0 docs) Hp) as Hperm.
  unfold slice0. rewrite firstn_all2; [exact Hperm|].
  rewrite (Permutation_length Hperm), scored_from_length. exact Hle.
Qed.

(** The fallback where it works.  A document for which no payload arrives
    (the request fails, the status is not ok twice, the body is no JSON), or
    whose payload makes [extractScoreFromResult] return [null] or throw, is
    ranked with its own score; a document whose payload yields a number is
    ranked with that number; no document is dropped. *)
Lemma fallback_without_score (svc : RerankerService)
  (docs : list RerankerDocument) (topK : nat) :
  permutes (runtime backend) ->
  truthy_string (apiKey (config svc)) = true ->
  (length docs <= topK)%nat ->
  let ranked := rerankWithHuggingFace svc backend query docs topK in
  length ranked = length docs
  /\ (forall j dj, nth_error docs j = Some dj ->
        match hf_payload backend query j dj with
        | Some p => unparseable p
        | None => True
        end ->
        In (as_value (fallback_entry dj)) ranked)
  /\ (forall n doc p s, nth_error docs n = Some doc ->
        hf_payload backend query n doc = Some p ->
        extractScoreFromResult p = Ok (JNum s) ->
        In (as_value (mkReranked (d_id doc) s (originalScore doc))) ranked).
Proof.
  intros Hp Hkey Hle ranked.
  pose proof (rerankWithHuggingFace_all svc docs topK Hp Hkey Hle) as Hperm.
  fold ranked in Hperm.
  split; [now rewrite (Permutation_length Hperm), scored_from_length|].
  split.
  - intros j dj Hj Hpay.
    apply (Permutation_in _ (Permutation_sym Hperm)).
    unfold as_value, fallback_entry. cbn [r_id r_score r_originalScore].
    replace (JNum (nullish (originalScore dj) 0))
      with (hf_score backend query (0 + j) dj);
      [exact (scored_from_In docs 0 j dj Hj)|].
    cbn [Nat.add].
    destruct (hf_payload backend query j dj) as [p|] eqn:E.
    + now apply (hf_score_unparseable j dj p).
    + now apply hf_score_no_payload.
  - intros n doc p s Hn Hpay Hs.
    apply (Permutation_in _ (Permutation_sym Hperm)).
    unfold as_value. cbn [r_id r_score r_originalScore].
    rewrite <- (hf_score_parsed n doc p s Hpay Hs).
    exact (scored_from_In docs 0 n doc Hn).
Qed.
End HuggingFace.

(** The fallback at work: a body that is no JSON for the document ["b"]. *)
Lemma fallback_without_score_example :
  In (as_value (fallback_entry doc_b))
     (rerankWithHuggingFace keyed_reranker
        (one_garbled_backend reference_runtime) "query" three_docs 20).
Proof.
  apply (proj1 (proj2 (fallback_without_score
                         (one_garbled_backend reference_runtime) "query"
                         keyed_reranker three_docs 20
                         reference_runtime_permutes eq_refl
                         ltac:(cbn; lia)))
           1%nat doc_b eq_refl).
  exact I.
Qed.

(** C7, at the input where the code departs from it.  The body
    [{"score": "high"}] is a payload from which no numeric relevance score
    can be extracted, and it is the payload of the document ["b"] alone.
    On every engine that leaves a sorted array with its elements,
    [rerankWithHuggingFace] returns the three documents, none dropped, the
    other two with the reranker's numbers - and ["b"] with the string
    ["high"] as its score: the entry that carries its [originalScore] as
    score is not in the result. *)
Theorem unparseable_score_kept (rt : Runtime) :
  permutes rt ->
  let ranked :=
    rerankWithHuggingFace keyed_reranker (one_bad_backend rt) "query"
      three_docs 20 in
  hf_payload (one_bad_backend rt) "query" 1 doc_b = Some high_score
  /\ no_numeric_score high_score
  /\ Permutation ranked
       [mkReranked (Some "a"%string) (Some (JNum 0.9)) (Some 0.02);
        mkReranked (Some "b"%string) (Some (JStr "high")) (Some 0.015);
        mkReranked (Some "c"%string) (Some (JNum 0.7)) (Some 0.01)]
  /\ ~ In (as_value (fallback_entry doc_b)) ranked.
Proof.
  intros Hp ranked.
  assert (Hperm : Permutation ranked
            [mkReranked (Some "a"%string) (Some (JNum 0.9)) (Some 0.02);
             mkReranked (Some "b"%string) (Some (JStr "high")) (Some 0.015);
             mkReranked (Some "c"%string) (Some (JNum 0.7)) (Some 0.01)]).
  { exact (rerankWithHuggingFace_all (one_bad_backend rt) "query"
             keyed_reranker three_docs 20 Hp eq_refl ltac:(cbn; lia)). }
  split; [reflexivity|].
  split; [intros n; discriminate|].
  split; [exact Hperm|].
  intros Hin. apply (Permutation_in _ Hperm) in Hin.
  cbn in Hin. destruct Hin as [H|[H|[H|[]]]]; discriminate.
Qed.

Lemma unparseable_score_kept_witness :
  In (mkReranked (Some "b"%string) (Some (JStr "high")) (Some 0.015))
     (rerankWithHuggingFace keyed_reranker (one_bad_backend reference_runtime)
        "query" three_docs 20)
  /\ ~ In (as_value (fallback_entry doc_b))
          (rerankWithHuggingFace keyed_reranker
             (one_bad_backend reference_runtime) "query" three_docs 20).
Proof.
  destruct (unparseable_score_kept reference_runtime
              reference_runtime_permutes) as (_ & _ & Hperm & Hnot).
  split; [|exact Hnot].
  apply (Permutation_in _ (Permutation_sym Hperm)). right. left. reflexivity.
Defined.

(** ** The order after reranking *)

Lemma StronglySorted_impl {A : Type} (R R' : A -> A -> Prop) (l : list A) :
  (forall a b, R a b -> R' a b) -> StronglySorted R l -> StronglySorted R' l.
Proof.
  intros Himp. induction 1 as [|a l Hs IH Hall]; constructor; [exact IH|].
  eapply Forall_impl; [|exact Hall]. intros b. apply Himp.
Qed.

Lemma StronglySorted_nth {A : Type} (R : A -> A -> Prop) (l : list A)
  (i j : nat) (a b : A) :
  StronglySorted R l -> (i < j)%nat ->
  nth_error l i = Some a -> nth_error l j = Some b -> R a b.
Proof.
  intros Hs. revert i j. induction Hs as [|x l Hs IH Hall]; intros i j Hij Hi Hj.
  - destruct i; discriminate.
  - destruct j as [|j]; [lia|]. cbn in Hj.
    destruct i as [|i]; cbn in Hi.
    + injection Hi as ->. rewrite Forall_forall in Hall.
      apply Hall. eapply nth_error_In; eassumption.
    + apply (IH i j); [lia | assumption | assumption].
Qed.

(** Where the comparator keeps [a] before [b], the pair is in the order
    [applyReranking] sorts by. *)
Lemma compareReranked_ordered (rt : Runtime) (a b : RankedResult) :
  nan_zero (compareReranked rt a b) <= 0 -> ordered_pair rt a b.
Proof.
  unfold compareReranked, ordered_pair.
  destruct (rerankerScore a) as [ra|], (rerankerScore b) as [rb|];
    cbn [nan_zero nullish]; try (intros H; lra).
  destruct (ToNumber rt (Some ra)), (ToNumber rt (Some rb));
    cbn [minus nan_zero nullish]; intros H; try exact I; lra.
Qed.

Section SortSorted.
Context {A : Type} (cmp : A -> A -> Q).
Hypothesis cmp_total : forall x y, ~ cmp x y <= 0 -> cmp y x <= 0.

Lemma insert_sorted_HdRel (x a : A) (l : list A) :
  cmp a x <= 0 -> HdRel (fun u v => cmp u v <= 0) a l ->
  HdRel (fun u v => cmp u v <= 0) a (insert_sorted cmp x l).
Proof.
  intros Hax Hhd. destruct l as [|y l]; simpl.
  - now constructor.
  - destruct (Qle_bool (cmp x y) 0); constructor; [exact Hax|].
    now inversion Hhd.
Qed.

Lemma insert_sorted_Sorted (x : A) (l : list A) :
  Sorted (fun u v => cmp u v <= 0) l ->
  Sorted (fun u v => cmp u v <= 0) (insert_sorted cmp x l).
Proof.
  induction 1 as [|y l Hs IH Hhd]; simpl.
  - repeat constructor.
  - destruct (Qle_bool (cmp x y) 0) eqn:E.
    + apply Qle_bool_iff in E. repeat constructor; assumption.
    + constructor; [exact IH|].
      apply insert_sorted_HdRel; [|exact Hhd].
      apply cmp_total. intros Hle. apply Qle_bool_iff in Hle. congruence.
Qed.

Lemma sort_Sorted (l : list A) :
  Sorted (fun u v => cmp u v <= 0) (sort cmp l).
Proof.
  induction l as [|x l IH]; simpl; [constructor|].
  now apply insert_sorted_Sorted.
Qed.
End SortSorted.

Lemma Sorted_iff {A : Type} (R R' : A -> A -> Prop) (l : list A) :
  (forall a b, R a b -> R' a b) -> Sorted R l -> Sorted R' l.
Proof.
  intros Himp. induction 1 as [|a l Hs IH Hhd]; constructor; [exact IH|].
  destruct Hhd; constructor. now apply Himp.
Qed.

(** [rerankerScoreMap.get(id)] is the score of the last entry the reranker
    returned under [id]. *)
Lemma score_for_returned (reranked : list RerankedValue) (id : string) :
  score_for reranked id = returned_score reranked id.
Proof.
  unfold score_for, returned_score, rerankerScoreMap, JsMap.of_entries.
  rewrite fold_set_last. cbn [JsMap.get JsMap.empty].
  induction reranked as [|e rest IH] using rev_ind; [reflexivity|].
  rewrite flat_map_app, !rev_app_distr. cbn [flat_map rev app].
  rewrite app_nil_r.
  destruct (r_id e) as [i|] eqn:Ei; cbn [rev app find fst snd].
  - rewrite Ei. destruct (String.eqb i id); [reflexivity | exact IH].
  - rewrite Ei. exact IH.
Qed.

Lemma with_scores_In (reranked : list RerankedValue)
  (ranked : list RankedResult) (r : RankedResult) :
  In r (with_scores reranked ranked) ->
  exists r0, In r0 ranked
             /\ r = set_rerankerScore r0 (score_for reranked (changeId r0)).
Proof.
  unfold with_scores. rewrite in_map_iff. intros (r0 & <- & Hin). eauto.
Qed.

Lemma rerankAndSort_eq (engine : SearchEngine) (env : Env) (query : string)
  (ranked : list RankedResult) (docs : list RerankerDocument) :
  rerankAndSort engine env query ranked docs
  = Array_sort (runtime (backend env))
      (compareReranked (runtime (backend env)))
      (with_scores
         (rerank (reranker engine) (backend env) query docs
            (Some SEARCH_DEFAULTS.MAX_RESULTS))
         ranked).
Proof. reflexivity. Qed.

Lemma rerankAndSort_perm (engine : SearchEngine) (env : Env) (query : string)
  (ranked : list RankedResult) (docs : list RerankerDocument) :
  permutes (runtime (backend env)) ->
  Permutation (rerankAndSort engine env query ranked docs)
    (with_scores
       (rerank (reranker engine) (backend env) query docs
          (Some SEARCH_DEFAULTS.MAX_RESULTS))
       ranked).
Proof. intros Hp. rewrite rerankAndSort_eq. now apply Array_sort_perm. Qed.

Lemma applyReranking_cases (engine : SearchEngine) (env : Env) (query : string)
  (ranked : list RankedResult) :
  applyReranking engine env query ranked
  = Ok (match rerank_documents env ranked with
        | Ok (doc :: docs) => rerankAndSort engine env query ranked (doc :: docs)
        | _ => ranked
        end).
Proof.
  unfold applyReranking. fold (rerank_documents env ranked).
  destruct (rerank_documents env ranked) as [[|doc docs]|e]; reflexivity.
Qed.

(** Where every candidate carries a number as reranker score, the
    comparator subtracts effective scores. *)
Lemma compareReranked_numeric (rt : Runtime) (a b : RankedResult) :
  (exists n, rerankerScore a = Some (JNum n)) ->
  (exists n, rerankerScore b = Some (JNum n)) ->
  compareReranked rt a b = Some (effectiveScore b - effectiveScore a).
Proof.
  intros [x Ha] [y Hb]. unfold compareReranked, effectiveScore.
  now rewrite Ha, Hb.
Qed.

(** C6, as the code has it.  [applyReranking] returns the candidates of the
    fused ranking, none dropped and none added, and their fusion scores as
    they were.  When no document could be prepared for the reranker the
    fused ranking is returned as it is.  Otherwise every candidate carries
    the score the reranker returned under its id (none, when it returned
    none), and the list is sorted with a pairwise rule: two candidates that
    both carry a reranker score are compared by reranker score, descending,
    and any other pair - also one where exactly one candidate carries a
    reranker score - by fusion score, descending.  Whenever that rule is a
    consistent order on the candidates, every pair of the result is in that
    order; it is one when every candidate carries a number as reranker
    score, and then the result is in descending order of the effective
    score.  (Where the rule is no consistent order, the order of the result
    is the engine's.) *)
Theorem rerank_resort (engine : SearchEngine) (env : Env) (query : string)
  (ranked : list RankedResult) :
  permutes (runtime (backend env)) ->
  exists out,
    applyReranking engine env query ranked = Ok out
    /\ ((forall doc docs, rerank_documents env ranked <> Ok (doc :: docs)) ->
        out = ranked)
    /\ (forall doc docs, rerank_documents env ranked = Ok (doc :: docs) ->
          let rt := runtime (backend env) in
          let reranked :=
            rerank (reranker engine) (backend env) query (doc :: docs)
              (Some SEARCH_DEFAULTS.MAX_RESULTS) in
          Permutation out (with_scores reranked ranked)
          /\ (forall r, In r out ->
                rerankerScore r = returned_score reranked (changeId r))
          /\ (consistent (compareReranked rt) (with_scores reranked ranked)
              = true ->
              StronglySorted (ordered_pair rt) out)
          /\ ((forall r, In r out -> exists n, rerankerScore r = Some (JNum n)) ->
              StronglySorted by_effective_score out)).
Proof.
  intros Hp. rewrite applyReranking_cases.
  eexists. split; [reflexivity|].
  destruct (rerank_documents env ranked) as [[|doc docs]|e] eqn:E.
  - split; [reflexivity|]. intros ? ? [=].
  - split; [intros Hno; exfalso; exact (Hno doc docs eq_refl)|].
    intros doc' docs' [= <- <-] rt reranked.
    pose proof (rerankAndSort_perm engine env query ranked (doc :: docs) Hp)
      as Hperm.
    fold reranked in Hperm.
    split; [exact Hperm|]. split; [|split].
    + intros r Hr. apply (Permutation_in _ Hperm) in Hr.
      destruct (with_scores_In _ _ _ Hr) as (r0 & _ & ->).
      cbn [rerankerScore set_rerankerScore changeId].
      apply score_for_returned.
    + intros Hcons. rewrite rerankAndSort_eq. fold reranked rt.
      eapply StronglySorted_impl; [apply compareReranked_ordered|].
      now apply Array_sort_sorted.
    + intros Hall.
      assert (Hall' : forall r, In r (with_scores reranked ranked) ->
                        exists n, rerankerScore r = Some (JNum n)).
      { intros r Hr. apply Hall.
        apply (Permutation_in _ (Permutation_sym Hperm)), Hr. }
      rewrite rerankAndSort_eq. fold reranked rt.
      rewrite (Array_sort_numeric rt (compareReranked rt) effectiveScore)
        by (intros a b Ha Hb; apply compareReranked_numeric; auto).
      apply (StronglySorted_impl
               (fun a b => effectiveScore b - effectiveScore a <= 0));
        [|apply (sort_StronglySorted
                   (fun a b => effectiveScore b - effectiveScore a)
                   (fun _ => True))].
      * intros a b H. unfold by_effective_score. lra.
      * intros a b _ _ H. lra.
      * intros a b c _ _ _ H1 H2. lra.
      * apply Forall_forall. auto.
  - split; [reflexivity|]. intros ? ? [=].
Qed.

(** Eleven fused candidates of which the first ten are reranked: the
    pairwise rule is a consistent order there, and the result is in that
    order. *)
Lemma rerank_resort_witness :
  exists out,
    applyReranking rerank_engine rerank_env "query"
      (fuse default_params eleven_hits []) = Ok out
    /\ StronglySorted (ordered_pair reference_runtime) out.
Proof.
  destruct (rerank_resort rerank_engine rerank_env "query"
              (fuse default_params eleven_hits [])
              reference_runtime_permutes)
    as (out & Hout & _ & H).
  exists out. split; [exact Hout|].
  eassert (E : rerank_documents rerank_env
                 (fuse default_params eleven_hits []) = Ok (_ :: _))
    by (vm_compute; reflexivity).
  destruct (H _ _ E) as (_ & _ & Hsorted & _).
  apply Hsorted. vm_compute. reflexivity.
Defined.

(** C6, the claim refuted.  Of eleven fused candidates the first ten are
    reranked and the eleventh keeps its fusion score only; each reranker
    score is below that fusion score, and still the eleventh candidate
    stays last: the result is not in descending order of the effective
    score.  The pairwise rule is a consistent order on these candidates, so
    the result is the one the language fixes for every engine. *)
Lemma rerank_not_by_effective_score :
  exists out a b ra,
    applyReranking rerank_engine rerank_env "query"
      (fuse default_params eleven_hits []) = Ok out
    /\ nth_error out 9 = Some a /\ nth_error out 10 = Some b
    /\ rerankerScore a = Some (JNum ra) /\ rerankerScore b = None
    /\ ra < rrfScore b
    /\ ~ StronglySorted by_effective_score out.
Proof.
  destruct (applyReranking rerank_engine rerank_env "query"
              (fuse default_params eleven_hits [])) as [out|e] eqn:E;
    vm_compute in E; [|discriminate].
  injection E as E.
  exists out. subst out.
  do 3 eexists.
  split; [reflexivity|].
  split; [reflexivity|]. split; [reflexivity|].
  split; [reflexivity|]. split; [reflexivity|].
  split; [reflexivity|].
  intros Hs.
  pose proof (StronglySorted_nth _ _ 9 10 _ _ Hs (Nat.lt_succ_diag_r 9)
                eq_refl eq_refl) as H.
  vm_compute in H. apply H. reflexivity.
Qed.

(** ** Query enrichment *)

Lemma word_i_cons (c : ascii) (w : string) :
  word_i (String c w) = Seq (lit_i c) (word_i w).
Proof. reflexivity. Qed.

Lemma run_word_i (w : string) (s : text) :
  run (word_i w) s
  = if prefix_i (chars w) s then [([], skipn (String.length w) s)] else [].
Proof.
  revert s. induction w as [|c w IH]; intros s.
  - reflexivity.
  - rewrite word_i_cons. cbn [run lit_i chars list_ascii_of_string prefix_i
      String.length].
    destruct s as [|b s]; [reflexivity|].
    destruct (Ascii.eqb (canonical b) (canonical c)); cbn [flat_map andb];
      [|reflexivity].
    rewrite IH. cbn [snd fst].
    fold (chars w).
    destruct (prefix_i (chars w) s); reflexivity.
Qed.

Lemma exec_from_word_i (w : string) (skipped s : text) :
  exec_from (word_i w) skipped s <> None <->
  exists before after, s = before ++ after /\ prefix_i (chars w) after = true.
Proof.
  revert skipped. induction s as [|c s IH]; intros skipped.
  - cbn [exec_from]. rewrite run_word_i.
    destruct (prefix_i (chars w) []) eqn:E.
    + split; [|discriminate]. intros _. now exists [], [].
    + split; [congruence|].
      intros (before & after & Hs & Hp).
      symmetry in Hs. apply app_eq_nil in Hs. destruct Hs as [-> ->].
      congruence.
  - cbn [exec_from]. rewrite run_word_i.
    destruct (prefix_i (chars w) (c :: s)) eqn:E.
    + split; [|discriminate]. intros _. now exists [], (c :: s).
    + rewrite IH. split.
      * intros (before & after & -> & Hp). now exists (c :: before), after.
      * intros (before & after & Hs & Hp).
        destruct before as [|b before].
        -- cbn in Hs. subst after. congruence.
        -- injection Hs as -> ->. now exists before, after.
Qed.

Lemma exec_word_i (w : string) (query : string) :
  exec (word_i w) (chars query) <> None <-> contains_word query w.
Proof. apply exec_from_word_i. Qed.

Lemma extractFilePatterns_parser :
  extractFilePatterns parser_query = ["**/parser.ts*"%string].
Proof. vm_compute. reflexivity. Qed.

Lemma parser_query_yesterday : contains_word parser_query "yesterday".
Proof.
  exists (chars "fixed bug in parser.ts "), (chars "yesterday").
  split; reflexivity.
Qed.

Lemma parser_query_no_today : ~ contains_word parser_query "today".
Proof.
  intros H. apply exec_word_i in H. apply H. vm_compute. reflexivity.
Qed.

(** The window of "yesterday": from 48 to 24 hours before the reading of
    the clock. *)
Lemma parse_yesterday (now : Z) (query : string) :
  contains_word query "yesterday" -> ~ contains_word query "today" ->
  parseTimeExpression now query
  = Some (mkRange (now - 2 * Millis.day) (now - Millis.day)).
Proof.
  intros Hy Ht.
  apply exec_word_i in Hy.
  assert (Ht' : exec (word_i "today") (chars query) = None).
  { destruct (exec (word_i "today") (chars query)) eqn:E; [|reflexivity].
    exfalso. apply Ht. apply exec_word_i. congruence. }
  unfold parseTimeExpression, time_patterns. cbn [first_match].
  rewrite Ht'.
  destruct (exec (word_i "yesterday") (chars query)); [reflexivity|].
  now contradiction Hy.
Qed.

(** C8, as the code has it.  For a query that contains the word
    "yesterday" and not the word "today", enrichment extracts the range
    from [now - 48 h] to [now - 24 h]: a window of 24 hours that ends 24
    hours before the reading of the clock.  For the query "fixed bug in
    parser.ts yesterday" it extracts that range and the one file pattern
    [**/parser.ts*]. *)
Theorem yesterday_window (now : Z) (query : string) :
  contains_word query "yesterday" -> ~ contains_word query "today" ->
  parseTimeExpression now query
  = Some (mkRange (now - 2 * Millis.day) (now - Millis.day))
  /\ timeRange (enrichFilters now query None)
     = Some (mkRange (now - 2 * 86400000) (now - 86400000))
  /\ enrichFilters now parser_query None
     = mkFilters (Some (mkRange (now - 2 * 86400000) (now - 86400000)))
         (Some ["**/parser.ts*"%string]) None None None None None.
Proof.
  intros Hy Ht. split; [now apply parse_yesterday|]. split.
  - unfold enrichFilters. rewrite (parse_yesterday now query Hy Ht).
    cbn [nullish timeRange no_filters].
    destruct (0 <? length (extractFilePatterns query))%nat; reflexivity.
  - unfold enrichFilters.
    rewrite (parse_yesterday now parser_query parser_query_yesterday
               parser_query_no_today).
    rewrite extractFilePatterns_parser. reflexivity.
Qed.

Lemma yesterday_window_witness :
  parseTimeExpression noon_june_first parser_query
  = Some (mkRange 1717070400000 1717156800000).
Proof.
  exact (proj1 (yesterday_window noon_june_first parser_query
                  parser_query_yesterday parser_query_no_today)).
Defined.

(** C8, the claim refuted.  At noon of 2024-06-01 (UTC) the range extracted
    for "fixed bug in parser.ts yesterday" runs from noon of 05-30 to noon
    of 05-31; the previous calendar day runs from midnight to midnight of
    05-31, and in no time zone does the extracted range start at the start
    of the previous calendar day. *)
Lemma yesterday_not_calendar_day :
  parseTimeExpression noon_june_first parser_query
  = Some (mkRange 1717070400000 1717156800000)
  /\ previous_calendar_day 0 noon_june_first
     = mkRange 1717113600000 1717200000000
  /\ forall tz,
       parseTimeExpression noon_june_first parser_query
       <> Some (previous_calendar_day tz noon_june_first).
Proof.
  split; [vm_compute; reflexivity|]. split; [vm_compute; reflexivity|].
  intros tz H.
  assert (E : parseTimeExpression noon_june_first parser_query
              = Some (mkRange 1717070400000 1717156800000))
    by (vm_compute; reflexivity).
  rewrite E in H.
  assert (Hs : (1717070400000
                = day_start tz noon_june_first - Millis.day)%Z).
  { exact (f_equal (fun o => match o with
                             | Some r => tr_start r
                             | None => 0%Z
                             end) H). }
  clear H E. unfold day_start in Hs.
  pose proof (Z.mod_pos_bound (noon_june_first + tz) Millis.day eq_refl) as Hb.
  assert (Hn : noon_june_first = 1717243200000%Z) by reflexivity.
  assert (Hd : Millis.day = 86400000%Z) by reflexivity.
  rewrite Hn, Hd in *. lia.
Qed.

(** ** Degradation of the vector leg *)

Section Collect.
Context {A B : Type} (env : Env) (key : A -> string)
  (make : A -> ChangeRecord -> B).

Lemma collect_throw (l : list A) (e : Error) :
  collect env key make l = Throw e ->
  exists x, In x l /\ getChange env (key x) = Throw e.
Proof.
  induction l as [|x l IH]; cbn [collect]; [discriminate|].
  destruct (getChange env (key x)) as [c|e'] eqn:E; cbn [bind].
  - destruct (collect env key make l) as [rest|e'']; cbn [bind];
      [discriminate|].
    intros [= ->]. destruct (IH eq_refl) as (y & Hy & Hg).
    exists y. split; [now right | exact Hg].
  - intros [= ->]. exists x. split; [now left | exact E].
Qed.

Lemma collect_ok (l : list A) (out : list B) :
  collect env key make l = Ok out ->
  forall b, In b out ->
    exists x c, In x l /\ getChange env (key x) = Ok (Some c)
                /\ b = make x c.
Proof.
  revert out. induction l as [|x l IH]; cbn [collect]; intros out.
  - intros [= <-] b [].
  - destruct (getChange env (key x)) as [c|e'] eqn:E; cbn [bind];
      [|discriminate].
    destruct (collect env key make l) as [rest|e'']; cbn [bind];
      [|discriminate].
    intros [= <-] b Hb.
    assert (Hrest : In b rest ->
              exists x0 c0, In x0 (x :: l)
                /\ getChange env (key x0) = Ok (Some c0) /\ b = make x0 c0).
    { intros Hin. destruct (IH rest eq_refl b Hin) as (y & c' & Hy & Hg & Hm).
      exists y, c'. split; [now right|]. now split. }
    destruct c as [c|]; [|now apply Hrest].
    destruct Hb as [<-|Hb]; [|now apply Hrest].
    exists x, c. split; [now left|]. now split.
Qed.

Lemma collect_complete (l : list A) (out : list B) (x : A)
  (c : ChangeRecord) :
  collect env key make l = Ok out -> In x l ->
  getChange env (key x) = Ok (Some c) -> In (make x c) out.
Proof.
  revert out. induction l as [|y l IH]; cbn [collect]; intros out;
    [intros _ []|].
  destruct (getChange env (key y)) as [cy|e'] eqn:E; cbn [bind];
    [|discriminate].
  destruct (collect env key make l) as [rest|e'']; cbn [bind];
    [|discriminate].
  intros [= <-] [->|Hin] Hx.
  - rewrite Hx in E. injection E as <-. now left.
  - specialize (IH rest eq_refl Hin Hx). destruct cy; [now right | exact IH].
Qed.

Lemma collect_length (l : list A) (out : list B) :
  collect env key make l = Ok out -> (length out <= length l)%nat.
Proof.
  revert out. induction l as [|x l IH]; cbn [collect]; intros out.
  - intros [= <-]. cbn. lia.
  - destruct (getChange env (key x)) as [c|e]; cbn [bind]; [|discriminate].
    destruct (collect env key make l) as [rest|e]; cbn [bind]; [|discriminate].
    intros [= <-]. specialize (IH rest eq_refl).
    destruct c; cbn; lia.
Qed.

Lemma collect_total (l : list A) :
  store_answers env -> exists out, collect env key make l = Ok out.
Proof.
  intros Hs. destruct (collect env key make l) as [out|e] eqn:E.
  - now exists out.
  - destruct (collect_throw l e E) as (x & _ & Hx).
    exfalso. exact (Hs _ _ Hx).
Qed.
End Collect.

Lemma collect_same_store {A B : Type} (env env' : Env) (key : A -> string)
  (make : A -> ChangeRecord -> B) (l : list A) :
  (forall id, getChange env' id = getChange env id) ->
  collect env' key make l = collect env key make l.
Proof.
  intros Hsame. induction l as [|x l IH]; cbn [collect]; [reflexivity|].
  now rewrite Hsame, IH.
Qed.

Lemma applyReranking_same_store (engine : SearchEngine) (env : Env)
  (query : string) (ranked : list RankedResult) :
  applyReranking engine (without_vector_leg env) query ranked
  = applyReranking engine env query ranked.
Proof.
  unfold applyReranking.
  rewrite (collect_same_store env (without_vector_leg env))
    by reflexivity.
  reflexivity.
Qed.

Lemma hydrateResults_same_store (env : Env) (ranked : list RankedResult)
  (query : string) (limit : nat) :
  hydrateResults (without_vector_leg env) ranked query limit
  = hydrateResults env ranked query limit.
Proof.
  unfold hydrateResults. now apply collect_same_store.
Qed.

Lemma vectorSearch_total (env : Env) (query : string) (topK : nat)
  (filters : option SearchFilters) :
  exists results, vectorSearch env query topK filters = Ok results.
Proof.
  unfold vectorSearch.
  destruct (embedQuery env query) as [v|e]; cbn [bind catch]; [|now eexists].
  destruct (vectorStore_search env v topK filters); cbn; now eexists.
Qed.

Lemma keywordSearch_total (engine : SearchEngine) (env : Env) (query : string)
  (topK : nat) :
  exists results, keywordSearch engine env query topK = Ok results.
Proof.
  unfold keywordSearch.
  destruct (searchChanges env _ _ topK); cbn; now eexists.
Qed.

Lemma vectorSearch_throws (env : Env) (query : string) (topK : nat)
  (filters : option SearchFilters) :
  vector_leg_throws env query topK filters ->
  vectorSearch env query topK filters = Ok [].
Proof.
  unfold vectorSearch.
  intros [(e & He)|(v & e & Hv & He)].
  - now rewrite He.
  - rewrite Hv. cbn [bind]. now rewrite He.
Qed.

Lemma boost_vectorScore (e : RankedResult) :
  vectorScore (boost e) = vectorScore e.
Proof. unfold boost. now destruct (_ && _). Qed.

(** With an empty vector leg every fused candidate stems from the lexical
    leg. *)
Lemma fusion_lexical_only (params : HybridSearchParams)
  (nv nk : NormalizedScores) (ks : list KeywordResult) (e : RankedResult) :
  In e (reciprocalRankFusion params nv nk [] ks) ->
  vectorScore e = None /\ In (changeId e) (keyword_ids ks).
Proof.
  intros Hin. apply fusion_In in Hin. destruct Hin as (id & e0 & Hget & ->).
  pose proof (collected_ok params nv nk [] ks id) as Hok.
  rewrite Hget in Hok.
  destruct Hok as (Hid & _ & _ & _ & _ & Hsrc & Hvs).
  rewrite boost_vectorScore, boost_changeId, Hid.
  split; [apply Hvs; intros [] | destruct Hsrc as [[]|H]; exact H].
Qed.

Lemma In_firstn {A : Type} (n : nat) (l : list A) (x : A) :
  In x (firstn n l) -> In x l.
Proof.
  revert l. induction n as [|n IH]; intros [|y l]; cbn; try tauto.
  intros [->|H]; [now left | right; now apply IH].
Qed.

Lemma same_candidate_refl (r : RankedResult) : same_candidate r r.
Proof. now repeat split. Qed.

Lemma same_candidate_scored (r : RankedResult) (s : option json) :
  same_candidate (set_rerankerScore r s) r.
Proof. now repeat split. Qed.

Lemma same_candidate_sym (r r0 : RankedResult) :
  same_candidate r r0 -> same_candidate r0 r.
Proof. intros (H1 & H2 & H3 & H4). now repeat split. Qed.

(** On an engine whose sort leaves an array with its elements the
    reranking stage returns the candidates it was given: none dropped, none
    added, fusion and raw scores as they were. *)
Lemma applyReranking_candidates (engine : SearchEngine) (env : Env)
  (query : string) (ranked out : list RankedResult) :
  permutes (runtime (backend env)) ->
  applyReranking engine env query ranked = Ok out ->
  length out = length ranked
  /\ (forall r, In r out -> exists r0, In r0 ranked /\ same_candidate r r0)
  /\ (forall r0, In r0 ranked -> exists r, In r out /\ same_candidate r r0).
Proof.
  intros Hp. rewrite applyReranking_cases. intros [= <-].
  assert (Hsame : length ranked = length ranked
            /\ (forall r, In r ranked ->
                  exists r0, In r0 ranked /\ same_candidate r r0)
            /\ (forall r0, In r0 ranked ->
                  exists r, In r ranked /\ same_candidate r r0)).
  { split; [reflexivity|].
    split; intros r Hr; exists r; (split; [exact Hr|]);
      apply same_candidate_refl. }
  destruct (rerank_documents env ranked) as [[|doc docs]|e];
    try exact Hsame.
  pose proof (rerankAndSort_perm engine env query ranked (doc :: docs) Hp)
    as Hperm.
  split; [|split].
  - rewrite (Permutation_length Hperm). unfold with_scores.
    apply length_map.
  - intros r Hr. apply (Permutation_in _ Hperm) in Hr.
    destruct (with_scores_In _ _ _ Hr) as (r0 & H0 & ->).
    exists r0. split; [exact H0 | apply same_candidate_scored].
  - intros r0 H0. eexists. split.
    + apply (Permutation_in _ (Permutation_sym Hperm)).
      unfold with_scores. apply in_map. exact H0.
    + apply same_candidate_scored.
Qed.

(** ** The pipeline of [search] *)

Lemma search_pipeline (engine : SearchEngine) (env : Env) (query : SearchQuery)
  (vs : list VectorSearchResult) (ks : list KeywordResult) :
  vectorSearch env (naturalLanguage query) (pool_size query)
    (search_filters env query) = Ok vs ->
  keywordSearch engine env (naturalLanguage query) (pool_size query) = Ok ks ->
  let ranked := fuse (search_params query) vs ks in
  search engine env query
  = match (if reranking_on engine && (0 <? length ranked)%nat
           then applyReranking engine env (naturalLanguage query) ranked
           else Ok ranked)
    with
    | Ok final =>
        hydrateResults env final (naturalLanguage query)
          SEARCH_DEFAULTS.MAX_RESULTS
    | Throw e => Throw e
    end.
Proof.
  intros Hv Hk ranked. unfold search. cbn [rerankTopK].
  fold (pool_size query). unfold search_filters in Hv.
  rewrite Hv. cbn [bind]. rewrite Hk. cbn [bind].
  fold (search_params query). fold (fuse (search_params query) vs ks).
  fold ranked. fold (reranking_on engine).
  destruct (if reranking_on engine && (0 <? length ranked)%nat
            then applyReranking engine env (naturalLanguage query) ranked
            else Ok ranked) as [final|e]; cbn [bind catch]; [|reflexivity].
  destruct (hydrateResults env final _ _); reflexivity.
Qed.

(** The ranking [search] hydrates: the fused candidates. *)
Lemma final_ranking (engine : SearchEngine) (env : Env) (text : string)
  (ranked : list RankedResult) :
  permutes (runtime (backend env)) ->
  exists final,
    (if reranking_on engine && (0 <? length ranked)%nat
     then applyReranking engine env text ranked
     else Ok ranked) = Ok final
    /\ length final = length ranked
    /\ (forall r, In r final ->
          exists r0, In r0 ranked /\ same_candidate r r0)
    /\ (forall r0, In r0 ranked ->
          exists r, In r final /\ same_candidate r r0).
Proof.
  intros Hp.
  destruct (reranking_on engine && (0 <? length ranked)%nat).
  - destruct (applyReranking engine env text ranked) as [out|e] eqn:E;
      [|rewrite applyReranking_cases in E; discriminate].
    exists out. split; [reflexivity|].
    exact (applyReranking_candidates engine env text ranked out Hp E).
  - exists ranked. split; [reflexivity|]. split; [reflexivity|].
    split; intros r Hr; exists r; (split; [exact Hr|]);
      apply same_candidate_refl.
Qed.

(** C5. When the vector leg throws - the embedding provider or the vector
    index fails - [vectorSearch] yields the empty list and [search] behaves
    as over an environment whose vector leg finds nothing.  No exception of
    the vector leg escapes: [search] throws only what the metadata store
    throws, and with a store that answers it returns.  What it returns is
    derived from the lexical leg alone: every result is the record of a
    lexical hit, with the absolute value of the rank of that hit as its
    keyword score, without a vector score, and with the score the fusion
    of the lexical leg with an empty vector leg gives it; and where the
    lexical leg found no more hits than the limit of 20 results, the record
    the store holds for a lexical hit is among the results.  (The engine's sort is
    taken to leave an array with its elements.) *)
Theorem search_degrades (engine : SearchEngine) (env : Env)
  (query : SearchQuery) :
  let text := naturalLanguage query in
  let filters := Some (enrichFilters (now env) text (q_filters query)) in
  permutes (runtime (backend env)) ->
  vector_leg_throws env text (pool_size query) filters ->
  vectorSearch env text (pool_size query) filters = Ok []
  /\ search engine env query = search engine (without_vector_leg env) query
  /\ (forall e, search engine env query = Throw e ->
        exists id, getChange env id = Throw e)
  /\ (store_answers env -> exists results, search engine env query = Ok results)
  /\ exists keywordResults,
       keywordSearch engine env text (pool_size query) = Ok keywordResults
       /\ forall results, search engine env query = Ok results ->
            (forall r, In r results ->
               sr_vectorScore r = None
               /\ (exists kr, In kr keywordResults
                     /\ getChange env (c_id (k_change kr))
                        = Ok (Some (sr_change r))
                     /\ sr_keywordScore r = Some (Qabs (k_rank kr)))
               /\ (exists e,
                     In e (fuse (search_params query) [] keywordResults)
                     /\ getChange env (changeId e) = Ok (Some (sr_change r))
                     /\ sr_score r = rrfScore e))
            /\ ((length keywordResults <= SEARCH_DEFAULTS.MAX_RESULTS)%nat ->
                forall kr c, In kr keywordResults ->
                  getChange env (c_id (k_change kr)) = Ok (Some c) ->
                  exists r, In r results /\ sr_change r = c).
Proof.
  intros text filters Hp Hthrows.
  pose proof (vectorSearch_throws env text (pool_size query) filters Hthrows)
    as Hvec.
  split; [exact Hvec|].
  destruct (keywordSearch_total engine env text (pool_size query))
    as (ks & Hks).
  set (ranked := fuse (search_params query) [] ks).
  destruct (final_ranking engine env text ranked Hp)
    as (final & Hfinal & Hlen & Hfrom & Hto).
  assert (Hsearch : search engine env query
                    = hydrateResults env final text SEARCH_DEFAULTS.MAX_RESULTS).
  { rewrite (search_pipeline engine env query [] ks Hvec Hks).
    fold ranked. fold text. now rewrite Hfinal. }
  assert (Hraw : forall x, In x final ->
            vectorScore x = None
            /\ (exists kr, In kr ks /\ c_id (k_change kr) = changeId x
                  /\ keywordScore x = Some (Qabs (k_rank kr)))
            /\ (exists e, In e ranked /\ changeId e = changeId x
                  /\ rrfScore x = rrfScore e)).
  { intros x Hx. destruct (Hfrom x Hx) as (r0 & H0 & Hid & Hs & Hv & Hk).
    rewrite Hid, Hv, Hk, Hs.
    destruct (fusion_raw _ _ _ [] ks r0 H0) as [Hrv Hrk].
    destruct (fusion_lexical_only _ _ _ ks r0 H0) as [Hnone Hin].
    split; [exact Hnone|].
    split; [|now exists r0].
    destruct (keywordScore r0) as [s|]; cbn in Hrk.
    - destruct Hrk as (k & Hk1 & Hk2 & ->). now exists k.
    - contradiction. }
  split; [|split; [|split]].
  - rewrite Hsearch.
    rewrite (search_pipeline engine (without_vector_leg env) query [] ks
               eq_refl Hks).
    fold ranked. fold text.
    rewrite <- (applyReranking_same_store engine env text ranked) in Hfinal.
    rewrite Hfinal. now rewrite hydrateResults_same_store.
  - intros e He. rewrite Hsearch in He. unfold hydrateResults in He.
    apply collect_throw in He. destruct He as (x & _ & Hx).
    now exists (changeId x).
  - intros Hstore. rewrite Hsearch. unfold hydrateResults.
    now apply collect_total.
  - exists ks. split; [exact Hks|].
    intros results Hres. rewrite Hsearch in Hres. unfold hydrateResults in Hres.
    split.
    + intros r Hr.
      destruct (collect_ok _ _ _ _ _ Hres r Hr) as (x & c & Hx & Hg & ->).
      cbn [sr_vectorScore sr_keywordScore sr_change].
      apply In_firstn in Hx.
      destruct (Hraw x Hx) as (Hv & (kr & Hkr & Hid & Hscore)
                                & (e & He & Heid & Hes)).
      split; [exact Hv|]. split.
      * exists kr. split; [exact Hkr|]. rewrite Hid. now split.
      * exists e. split; [exact He|]. rewrite Heid. now split.
    + intros Hfew kr c Hkr Hc.
      assert (Hall : slice0 SEARCH_DEFAULTS.MAX_RESULTS final = final).
      { unfold slice0. apply firstn_all2. rewrite Hlen.
        pose proof (fusion_length (search_params query)
                      (normalizedVectorOf []) (normalizedKeywordOf ks) [] ks)
          as Hl.
        unfold ranked, fuse. cbn [length Nat.add] in Hl. lia. }
      rewrite Hall in Hres.
      destruct (fusion_complete (search_params query) (normalizedVectorOf [])
                  (normalizedKeywordOf ks) [] ks (c_id (k_change kr)))
        as (e0 & He0 & Hid0).
      { right. unfold keyword_ids.
        change (c_id (k_change kr)) with ((fun r => c_id (k_change r)) kr).
        now apply in_map. }
      destruct (Hto e0 He0) as (x & Hx & Hid & _).
      eexists. split.
      * apply (collect_complete env changeId _ final results x c Hres Hx).
        now rewrite Hid, Hid0.
      * reflexivity.
Qed.

(** The embedding provider refuses the connection and the lexical store
    finds the changes ["b"] and ["c"]: both come back. *)
Lemma search_degrades_witness :
  exists results,
    search plain_engine refused_env (mkQuery "parser" None None) = Ok results
    /\ (exists r, In r results /\ sr_change r = change_of_id "b")
    /\ (exists r, In r results /\ sr_change r = change_of_id "c")
    /\ forall r, In r results -> sr_vectorScore r = None.
Proof.
  destruct (search_degrades plain_engine refused_env
              (mkQuery "parser" None None) reference_runtime_permutes)
    as (_ & _ & _ & Hreturns & ks & Hks & Hresults).
  - left. exists (mkError "ECONNREFUSED"). reflexivity.
  - destruct Hreturns as (results & Hres); [intros id e; discriminate|].
    injection Hks as <-.
    destruct (Hresults results Hres) as (Hfrom & Hall).
    exists results. split; [exact Hres|].
    split; [|split].
    + apply (Hall ltac:(vm_compute; lia) (mkKR (change_of_id "b") 1)).
      * left. reflexivity.
      * reflexivity.
    + apply (Hall ltac:(vm_compute; lia) (mkKR (change_of_id "c") 2)).
      * right. left. reflexivity.
      * reflexivity.
    + intros r Hr. exact (proj1 (Hfrom r Hr)).
Defined.

(* ================================================================== *)
(** * Further properties *)

(** ** The fused ranking *)

Lemma Sorted_by_fusion_score (l : list RankedResult) :
  Sorted by_fusion_score (sort (fun a b => rrfScore b - rrfScore a) l).
Proof.
  eapply Sorted_iff; [|apply sort_Sorted].
  - intros a b H. unfold by_fusion_score. cbv beta in H. lra.
  - intros x y H. apply Qnot_le_lt in H. lra.
Qed.

(** X1. The ranking [reciprocalRankFusion] returns is in descending order
    of the fusion score, whatever the legs and the weights. *)
Theorem fusion_sorted (params : HybridSearchParams)
  (nv nk : NormalizedScores)
  (vs : list VectorSearchResult) (ks : list KeywordResult) :
  StronglySorted by_fusion_score (reciprocalRankFusion params nv nk vs ks).
Proof.
  apply Sorted_StronglySorted.
  - intros a b c Hab Hbc. unfold by_fusion_score in *.
    eapply Qle_trans; eassumption.
  - unfold reciprocalRankFusion. apply Sorted_by_fusion_score.
Qed.

Lemma NoDup_map_inj_on {A B : Type} (f : A -> B) (l : list A) :
  NoDup l -> (forall x y, In x l -> In y l -> f x = f y -> x = y) ->
  NoDup (List.map f l).
Proof.
  induction 1 as [|x l Hx Hnd IH]; intros Hinj; cbn; constructor.
  - intros Hin. apply in_map_iff in Hin. destruct Hin as (y & Hy & Hin).
    assert (y = x) by (apply Hinj; [now right | now left | exact Hy]).
    subst y. contradiction.
  - apply IH. intros a b Ha Hb. apply Hinj; now right.
Qed.

Lemma collected_values_NoDup (params : HybridSearchParams)
  (nv nk : NormalizedScores)
  (vs : list VectorSearchResult) (ks : list KeywordResult) :
  NoDup (List.map changeId
           (JsMap.values (scoreMap_boosted params nv nk vs ks))).
Proof.
  unfold JsMap.values, scoreMap_boosted. rewrite !map_map. cbn [snd].
  pose proof (collected_keys params nv nk vs ks) as Hk.
  pose proof (collected_ok params nv nk vs ks) as Hok.
  assert (E : List.map (fun x : string * RankedResult => changeId (boost (snd x)))
                (scoreMap_collected params nv nk vs ks)
              = JsMap.keys (scoreMap_collected params nv nk vs ks)).
  { unfold JsMap.keys. apply map_ext_in. intros [id e] Hin. cbn [fst snd].
    rewrite boost_changeId.
    pose proof (Hok id) as H.
    rewrite (JsMapFacts.In_get _ _ _ Hk Hin) in H. apply H. }
  rewrite E. exact Hk.
Qed.

(** X2. The fused ranking holds exactly the candidates of the two legs,
    each of them once: a change id occurs in it if and only if the vector
    leg or the lexical leg returned it, thresholds and weights
    notwithstanding. *)
Theorem fusion_candidates (params : HybridSearchParams)
  (nv nk : NormalizedScores)
  (vs : list VectorSearchResult) (ks : list KeywordResult) :
  let out := reciprocalRankFusion params nv nk vs ks in
  NoDup (List.map changeId out)
  /\ forall id, In id (List.map changeId out) <->
                In id (vector_ids vs) \/ In id (keyword_ids ks).
Proof.
  intros out. split.
  - unfold out, reciprocalRankFusion.
    eapply Permutation_NoDup;
      [apply Permutation_sym, Permutation_map, sort_perm|].
    apply collected_values_NoDup.
  - intros id. rewrite in_map_iff. split.
    + intros (e & Hid & Hin). apply fusion_In in Hin.
      destruct Hin as (id' & e0 & Hget & ->).
      pose proof (collected_ok params nv nk vs ks id') as Hok.
      rewrite Hget in Hok. destruct Hok as (Hid' & _ & _ & _ & _ & Hsrc & _).
      rewrite boost_changeId in Hid. congruence.
    + intros Hsrc.
      pose proof (collected_ok params nv nk vs ks id) as Hok.
      destruct (JsMap.get (scoreMap_collected params nv nk vs ks) id)
        as [e0|] eqn:Hget.
      * exists (boost e0). split.
        -- rewrite boost_changeId. apply Hok.
        -- apply fusion_In. now exists id, e0.
      * tauto.
Qed.

(** ** The score normalizer *)

Lemma normalizeScores_results (rs : list Scored) (thr : Q) :
  results (normalizeScores rs thr)
  = List.filter (fun e => Qgeb (normalizedScore e) thr)
      (List.map (scaled (ns_min (normalizeScores rs thr))
                   (ns_max (normalizeScores rs thr))) rs).
Proof. destruct rs as [|r0 rs]; reflexivity. Qed.

Lemma scaled_unit (rs : list Scored) (thr : Q) (r : Scored) :
  In r rs ->
  0 <= normalizedScore (scaled (ns_min (normalizeScores rs thr))
                          (ns_max (normalizeScores rs thr)) r) <= 1.
Proof.
  intros Hr.
  pose proof (normalizeScores_min_max rs thr r Hr) as (Hlo & Hhi & _).
  unfold scaled. cbn [normalizedScore].
  destruct (Qgtb _ 0) eqn:E.
  - apply Qgtb_true in E. split.
    + apply Qle_shift_div_l; [exact E|]. lra.
    + apply Qle_shift_div_r; [exact E|]. lra.
  - split; lra.
Qed.

Lemma filter_all {A : Type} (f : A -> bool) (l : list A) :
  (forall x, In x l -> f x = true) -> List.filter f l = l.
Proof.
  induction l as [|x l IH]; intros H; cbn; [reflexivity|].
  rewrite (H x (or_introl eq_refl)). f_equal. apply IH.
  intros y Hy. apply H. now right.
Qed.

Lemma filter_none {A : Type} (f : A -> bool) (l : list A) :
  (forall x, In x l -> f x = false) -> List.filter f l = [].
Proof.
  induction l as [|x l IH]; intros H; cbn; [reflexivity|].
  rewrite (H x (or_introl eq_refl)). apply IH.
  intros y Hy. apply H. now right.
Qed.

Lemma Qgeb_false (x y : Q) : Qgeb x y = false <-> x < y.
Proof.
  unfold Qgeb. split; intros H.
  - apply Qnot_le_lt. intros Hle. apply Qle_bool_iff in Hle. congruence.
  - destruct (Qle_bool y x) eqn:E; [|reflexivity].
    apply Qle_bool_iff in E. exfalso. apply (Qlt_not_le _ _ H E).
Qed.

(** X3. The threshold of [normalizeScores] acts on the scaled scores: a
    threshold of at most 0 drops nothing and keeps the order, a threshold
    above 1 drops everything; when the raw scores differ, an entry with the
    greatest raw score is kept with the scaled score 1 under any threshold
    up to 1, and every entry with the least raw score is dropped under any
    positive threshold. *)
Theorem normalizeScores_threshold (rs : list Scored) (thr : Q) :
  let out := normalizeScores rs thr in
  (thr <= 0 ->
     List.map n_id (results out) = List.map s_id rs
     /\ List.map n_score (results out) = List.map s_score rs)
  /\ (1 < thr -> results out = [])
  /\ (ns_min out < ns_max out -> thr <= 1 ->
      forall r, In r rs -> s_score r == ns_max out ->
        exists e, In e (results out) /\ n_id e = s_id r
                  /\ n_score e = s_score r /\ normalizedScore e == 1)
  /\ (ns_min out < ns_max out -> 0 < thr ->
      forall e, In e (results out) -> ~ n_score e == ns_min out).
Proof.
  intros out. unfold out. rewrite normalizeScores_results.
  set (mn := ns_min (normalizeScores rs thr)).
  set (mx := ns_max (normalizeScores rs thr)).
  split; [|split; [|split]].
  - intros Hthr. rewrite filter_all.
    + rewrite !map_map. split; reflexivity.
    + intros e He. apply in_map_iff in He. destruct He as (r & <- & Hr).
      apply Qgeb_true. pose proof (scaled_unit rs thr r Hr) as H.
      fold mn mx in H. lra.
  - intros Hthr. apply filter_none.
    intros e He. apply in_map_iff in He. destruct He as (r & <- & Hr).
    apply Qgeb_false. pose proof (scaled_unit rs thr r Hr) as H.
    fold mn mx in H. lra.
  - intros Hrange Hthr r Hr Hmax.
    assert (Hpos : Qgtb (mx - mn) 0 = true) by (apply Qgtb_true; lra).
    assert (Hone : normalizedScore (scaled mn mx r) == 1).
    { unfold scaled. cbn [normalizedScore]. rewrite Hpos.
      rewrite Hmax. field. lra. }
    exists (scaled mn mx r). split; [|repeat split; exact Hone].
    apply filter_In. split; [now apply in_map|].
    apply Qgeb_true. rewrite Hone. exact Hthr.
  - intros Hrange Hthr e He Hmin.
    apply filter_In in He. destruct He as [He Hkeep].
    apply in_map_iff in He. destruct He as (r & <- & Hr).
    cbn [scaled n_score normalizedScore] in *.
    assert (Hpos : Qgtb (mx - mn) 0 = true) by (apply Qgtb_true; lra).
    rewrite Hpos in Hkeep. apply Qgeb_true in Hkeep.
    assert (Hzero : (s_score r - mn) / (mx - mn) == 0).
    { rewrite Hmin. field. lra. }
    rewrite Hzero in Hkeep. lra.
Qed.

(** ** Lexical ranks scaled as scores *)

Lemma Qnat_le (a b : nat) : (a <= b)%nat -> Qnat a <= Qnat b.
Proof.
  intros H. unfold Qnat. rewrite <- Zle_Qle. now apply Nat2Z.inj_le.
Qed.

Lemma get_of_entries_None {V : Type} (es : list (string * V)) (id : string) :
  ~ In id (List.map fst es) -> JsMap.get (JsMap.of_entries es) id = None.
Proof.
  intros Hnot.
  destruct (JsMap.get (JsMap.of_entries es) id) as [x|] eqn:E; [|reflexivity].
  exfalso. apply Hnot. apply of_entries_get in E.
  change id with (fst (id, x)). now apply in_map.
Qed.

(** With at least two hits ranked by position, the first hit is scaled to
    0 and is not among the normalized lexical scores. *)
Lemma top_hit_dropped (ks : list KeywordResult) (r0 : KeywordResult) :
  ranked_by_position ks -> NoDup (keyword_ids ks) -> (2 <= length ks)%nat ->
  nth_error ks 0 = Some r0 ->
  ~ In (c_id (k_change r0))
       (List.map n_id (results (normalizedKeywordOf ks))).
Proof.
  intros Hrank Hnd Hlen H0 Hin.
  apply in_map_iff in Hin. destruct Hin as (e & Hid & He).
  unfold normalizedKeywordOf in He.
  set (rs := List.map (fun r => mkScored (c_id (k_change r)) (k_rank r)) ks)
    in *.
  destruct (normalizeScores_entry rs _ e He) as (s & Hs & Hsid & Hsc & Hn & Hthr).
  unfold rs in Hs. apply in_map_iff in Hs. destruct Hs as (r & <- & Hr).
  cbn [s_id s_score] in *.
  (* the entry is the one of the first hit *)
  destruct (In_nth_error _ _ Hr) as (i & Hi).
  destruct (NoDup_map_nth_error (fun r => c_id (k_change r)) ks i 0 r r0
              Hnd Hi H0) as [-> ->]; [congruence|].
  (* the least rank is 1 and the greatest at least 2 *)
  destruct ks as [|k0 [|k1 ks']]; cbn in Hlen; try lia.
  injection H0 as ->.
  pose proof (Hrank 0%nat r0 eq_refl) as E0.
  pose proof (Hrank 1%nat k1 eq_refl) as E1.
  assert (In0 : In (mkScored (c_id (k_change r0)) (k_rank r0)) rs)
    by (left; reflexivity).
  assert (In1 : In (mkScored (c_id (k_change k1)) (k_rank k1)) rs)
    by (right; left; reflexivity).
  pose proof (normalizeScores_min_max rs SEARCH_DEFAULTS.MIN_KEYWORD_SCORE
                _ In0) as (Hlo0 & _ & Hmin & _).
  pose proof (normalizeScores_min_max rs SEARCH_DEFAULTS.MIN_KEYWORD_SCORE
                _ In1) as (_ & Hhi1 & _).
  cbn [s_score] in Hlo0, Hhi1.
  set (mn := ns_min (normalizeScores rs SEARCH_DEFAULTS.MIN_KEYWORD_SCORE)) in *.
  set (mx := ns_max (normalizeScores rs SEARCH_DEFAULTS.MIN_KEYWORD_SCORE)) in *.
  assert (Hmn : 1 <= mn).
  { unfold rs in Hmin. rewrite map_map in Hmin. cbn [s_score] in Hmin.
    apply in_map_iff in Hmin. destruct Hmin as (r & <- & Hr').
    destruct (In_nth_error _ _ Hr') as (j & Hj).
    rewrite (Hrank j r Hj).
    change 1 with (Qnat 1). apply Qnat_le. lia. }
  change (Qnat (0 + 1)) with 1 in E0. change (Qnat (1 + 1)) with 2 in E1.
  assert (Hpos : Qgtb (mx - mn) 0 = true) by (apply Qgtb_true; lra).
  rewrite Hpos in Hn.
  assert (Hzero : normalizedScore e == 0).
  { rewrite Hn. assert (Hd : k_rank r0 - mn == 0) by lra.
    rewrite Hd. field. lra. }
  rewrite Hzero in Hthr. unfold SEARCH_DEFAULTS.MIN_KEYWORD_SCORE in Hthr. lra.
Qed.

(** X4. [search] scales the lexical ranks (1 for the best hit) as if they
    were scores.  So with at least two lexical hits the best lexical hit
    enters fusion with the normalized keyword score 0, and its fusion
    score is the one collected from the ranks: it never receives an overlap
    boost, also when the vector leg returned it too. *)
Theorem top_lexical_hit_unboosted (params : HybridSearchParams)
  (vs : list VectorSearchResult) (ks : list KeywordResult)
  (r0 : KeywordResult) (e : RankedResult) :
  ranked_by_position ks -> NoDup (keyword_ids ks) -> (2 <= length ks)%nat ->
  nth_error ks 0 = Some r0 ->
  In e (fuse params vs ks) -> changeId e = c_id (k_change r0) ->
  normalizedKeywordScore e = Some 0
  /\ exists e0,
       JsMap.get (scoreMap_collected params (normalizedVectorOf vs)
                    (normalizedKeywordOf ks) vs ks) (changeId e) = Some e0
       /\ rrfScore e == rrfScore e0.
Proof.
  intros Hrank Hnd Hlen H0 Hin Hid.
  pose proof (top_hit_dropped ks r0 Hrank Hnd Hlen H0) as Hdrop.
  assert (Hlook : nk_lookup (normalizedKeywordOf ks) (c_id (k_change r0)) = 0).
  { unfold nk_lookup, normalizedKeywordMap.
    rewrite get_of_entries_None; [reflexivity|].
    rewrite map_map. cbn [fst]. exact Hdrop. }
  unfold fuse in Hin. apply fusion_In in Hin.
  destruct Hin as (id & e0 & Hget & ->).
  pose proof (collected_ok params (normalizedVectorOf vs)
                (normalizedKeywordOf ks) vs ks id) as Hok.
  rewrite Hget in Hok.
  assert (Hid0 : changeId e0 = id) by apply Hok.
  rewrite boost_changeId in Hid |- *. rewrite Hid0 in *. subst id.
  assert (Hk : In (c_id (k_change r0)) (keyword_ids ks)).
  { unfold keyword_ids.
    change (c_id (k_change r0)) with ((fun r => c_id (k_change r)) r0).
    apply in_map. eapply nth_error_In; eassumption. }
  assert (Hnk : normalizedKeywordScore e0 = Some 0).
  { destruct Hok as (_ & _ & _ & _ & H & _). rewrite (H Hk). now rewrite Hlook. }
  split.
  - unfold boost. destruct (_ && _); [cbn|]; exact Hnk.
  - exists e0. split; [exact Hget|].
    destruct (boost_cases _ _ vs ks _ e0 Hok) as [Hboth Hone].
    destruct (in_dec string_dec (c_id (k_change r0)) (vector_ids vs)) as [Hv|Hv].
    + destruct (Hboth Hv Hk) as (_ & _ & H). rewrite H, Hlook.
      assert (Hm : Qmin 1 (nv_lookup (normalizedVectorOf vs)
                             (c_id (k_change r0)) * 0) == 0).
      { rewrite Qmult_0_r. reflexivity. }
      rewrite Hm. ring.
    + rewrite Hone by tauto. reflexivity.
Qed.

Lemma top_lexical_hit_unboosted_witness :
  exists e, In e (fuse default_params vector_leg_ab keyword_leg_bcd)
    /\ changeId e = "b"%string /\ normalizedKeywordScore e = Some 0.
Proof.
  pose (e := mkRanked "b" (Some 2%nat) (Some 1%nat) (Some 0.5) (Some 1)
               (Some 0) (Some 0)
               ((0.6 * (1 / (60 + Qnat 2)) + 0.4 * (1 / (60 + Qnat 1)))
                * (1 + 0.2 * Qmin 1 (0 * 0))) None).
  assert (Hin : In e (fuse default_params vector_leg_ab keyword_leg_bcd))
    by (vm_compute; left; reflexivity).
  exists e. split; [exact Hin|]. split; [reflexivity|].
  refine (proj1 (top_lexical_hit_unboosted default_params vector_leg_ab
                   keyword_leg_bcd (mkKR (change_of_id "b") 1) e
                   _ _ _ eq_refl Hin eq_refl)).
  - intros i r Hi.
    destruct i as [|[|[|i]]];
      [injection Hi as <-; reflexivity ..
      |destruct i; discriminate].
  - repeat constructor; cbn; intuition discriminate.
  - cbn. lia.
Defined.

(** ** The reranker service *)

Lemma StronglySorted_firstn {A : Type} (R : A -> A -> Prop) (n : nat)
  (l : list A) :
  StronglySorted R l -> StronglySorted R (firstn n l).
Proof.
  intros Hs. revert n. induction Hs as [|x l Hs IH Hall]; intros [|n]; cbn;
    try constructor.
  - apply IH.
  - rewrite Forall_forall in *. intros y Hy. apply Hall.
    eapply In_firstn; eassumption.
Qed.





Lemma passthroughRerank_eq (docs : list RerankerDocument) (topK : nat) :
  passthroughRerank docs topK
  = List.map as_value
      (slice0 topK (sort (fun a b => r_score b - r_score a)
                      (List.map fallback_entry docs))).
Proof. reflexivity. Qed.

(** On entries that keep to the interface the engine sorts by score, as the
    stable sort does. *)
Lemma hf_sort_typed (rt : Runtime) (typed : list RerankedResult)
  (topK : nat) :
  slice0 topK
    (Array_sort rt (compareScores rt) (List.map as_value typed))
  = List.map as_value
      (slice0 topK (sort (fun a b => r_score b - r_score a) typed)).
Proof.
  rewrite (Array_sort_numeric rt (compareScores rt)
             (fun r => nullish (score_number (r_score r)) 0)).
  - rewrite (sort_map as_value _ (fun a b => r_score b - r_score a))
      by reflexivity.
    unfold slice0. apply firstn_map.
  - intros a b Ha Hb. apply in_map_iff in Ha, Hb.
    destruct Ha as (a0 & <- & _), Hb as (b0 & <- & _). reflexivity.
Qed.







Lemma scored_from_no_payload (backend : Backend) (query : string)
  (docs : list RerankerDocument) (idx : nat) :
  (forall n doc, nth_error docs n = Some doc ->
     hf_payload backend query (idx + n) doc = None) ->
  scored_from backend query idx docs
  = List.map as_value (List.map fallback_entry docs).
Proof.
  revert idx. induction docs as [|d docs IH]; intros idx Hd;
    [reflexivity|].
  cbn [scored_from List.map].
  rewrite IH.
  - rewrite hf_score_no_payload; [reflexivity|].
    specialize (Hd 0%nat d eq_refl). now rewrite Nat.add_0_r in Hd.
  - intros n doc Hn. specialize (Hd (S n) doc Hn).
    now replace (S idx + n)%nat with (idx + S n)%nat by lia.
Qed.

(** X6. When the scoring backend delivers no payload for any document -
    every request is rejected, answered with an error status or with a
    body that is not JSON - [rerankWithHuggingFace] returns what
    [passthroughRerank] returns: the documents by their own scores. *)
Theorem rerankWithHuggingFace_outage (svc : RerankerService)
  (backend : Backend) (query : string) (docs : list RerankerDocument)
  (topK : nat) :
  (forall n doc, nth_error docs n = Some doc ->
     hf_payload backend query n doc = None) ->
  rerankWithHuggingFace svc backend query docs topK
  = passthroughRerank docs topK.
Proof.
  intros Hdown.
  destruct (truthy_string (apiKey (config svc))) eqn:Hkey.
  - rewrite (rerankWithHuggingFace_keyed _ _ _ _ _ Hkey), passthroughRerank_eq.
    rewrite (scored_from_no_payload backend query docs 0 Hdown).
    apply hf_sort_typed.
  - unfold rerankWithHuggingFace. now rewrite Hkey.
Qed.

Lemma rerankWithHuggingFace_outage_witness :
  rerankWithHuggingFace keyed_reranker silent_backend "query" three_docs 2
  = List.map as_value
      [mkReranked "a"%string 0.02 (Some 0.02);
       mkReranked "b"%string 0.015 (Some 0.015)].
Proof.
  rewrite (rerankWithHuggingFace_outage keyed_reranker silent_backend "query"
             three_docs 2).
  - reflexivity.
  - intros n doc _. reflexivity.
Defined.

Lemma In_passthroughRerank (docs : list RerankerDocument) (topK : nat)
  (r : RerankedValue) :
  In r (passthroughRerank docs topK) ->
  exists d, In d docs /\ r = as_value (fallback_entry d).
Proof.
  rewrite passthroughRerank_eq. unfold slice0. intros H.
  apply in_map_iff in H. destruct H as (t & <- & H).
  apply In_firstn, sort_In, in_map_iff in H.
  destruct H as (d & <- & Hd). now exists d.
Qed.

Lemma passthrough_names (docs : list RerankerDocument) (topK : nat)
  (r : RerankedValue) :
  In r (passthroughRerank docs topK) -> names_document docs r.
Proof.
  intros H. apply In_passthroughRerank in H. destruct H as (d & Hd & ->).
  exists d. now repeat split.
Qed.

Lemma at_position_In (docs : list RerankerDocument) (i : nat)
  (d : RerankerDocument) :
  at_position docs i = Document d -> In d docs.
Proof.
  unfold at_position. destruct (nth_error docs i) as [d'|] eqn:E;
    [|discriminate].
  intros [= <-]. eapply nth_error_In; eassumption.
Qed.

Lemma at_position_document (docs : list RerankerDocument) (i : nat) :
  at_position docs i <> NotDocument.
Proof. unfold at_position. now destruct (nth_error docs i). Qed.

Lemma element_at_In (rt : Runtime) (docs : list RerankerDocument)
  (index : option json) (d : RerankerDocument) :
  element_at rt docs index = Document d -> In d docs.
Proof.
  unfold element_at.
  assert (Hkey : forall key : option string,
            match key with
            | None => Undefined
            | Some key =>
                match find (fun i => String.eqb key (numeral i))
                        (seq 0 (length docs))
                with
                | Some i => at_position docs i
                | None =>
                    if String.eqb key "length" || inherited rt key
                    then NotDocument else Undefined
                end
            end = Document d -> In d docs).
  { intros [key|]; [|discriminate].
    destruct (find _ _) as [i|]; [apply at_position_In|].
    now destruct (_ || _). }
  destruct index as [v|]; [|exact (Hkey (Some "undefined"%string))].
  destruct v as [| b | n | s | l | m].
  - exact (Hkey (property_key JNull)).
  - exact (Hkey (property_key (JBool b))).
  - destruct (as_nat n) as [i|]; [apply at_position_In | discriminate].
  - exact (Hkey (property_key (JStr s))).
  - exact (Hkey (property_key (JArr l))).
  - exact (Hkey (property_key (JObj m))).
Qed.

(** A number as index finds a document or nothing. *)
Lemma element_at_number (rt : Runtime) (docs : list RerankerDocument)
  (n : Q) :
  element_at rt docs (Some (JNum n)) <> NotDocument.
Proof.
  unfold element_at.
  destruct (as_nat n) as [i|]; [apply at_position_document | discriminate].
Qed.

Lemma In_cohere_results (rt : Runtime) (docs : list RerankerDocument)
  (rs : list json) (out : list RerankedValue) (r : RerankedValue) :
  cohere_results rt docs rs = Ok out -> In r out ->
  exists item, In item rs
    /\ match element_at rt docs (member "index" item) with
       | Document d =>
           r = mkReranked (Some (d_id d)) (member "relevance_score" item)
                 (originalScore d)
       | NotDocument =>
           r = mkReranked None (member "relevance_score" item) None
       | Undefined => False
       end.
Proof.
  revert out. induction rs as [|item rs IH]; intros out.
  - intros [= <-] [].
  - assert (Hstep :
      match element_at rt docs (member "index" item) with
      | Undefined => Throw TypeError
      | found =>
          match cohere_results rt docs rs with
          | Throw e => Throw e
          | Ok out0 =>
              Ok (match found with
                  | Document doc =>
                      mkReranked (Some (d_id doc))
                        (member "relevance_score" item) (originalScore doc)
                  | _ => mkReranked None (member "relevance_score" item) None
                  end
                  :: out0)
          end
      end = Ok out ->
      In r out ->
      exists item0, In item0 (item :: rs)
        /\ match element_at rt docs (member "index" item0) with
           | Document d =>
               r = mkReranked (Some (d_id d)) (member "relevance_score" item0)
                     (originalScore d)
           | NotDocument =>
               r = mkReranked None (member "relevance_score" item0) None
           | Undefined => False
           end).
    { destruct (element_at rt docs (member "index" item)) as [d| |] eqn:E;
        try discriminate;
        (destruct (cohere_results rt docs rs) as [out0|e]; [|discriminate]);
        intros [= <-] [<-|H];
        try (exists item; split; [now left | now rewrite E]);
        destruct (IH out0 eq_refl H) as (item0 & Hin & Hm);
        exists item0; (split; [now right | exact Hm]). }
    destruct item; try exact Hstep. discriminate.
Qed.

(** X7. What the entries [rerank] returns name.  Each entry carries the id
    and the [originalScore] of one of the documents given - always when the
    provider is not Cohere, and under Cohere when every item of the answer
    has a number as its index.  An index that is no number is looked up as
    a property name of the array of documents: what it finds there, if
    anything, is no document, and the entry has neither id nor
    [originalScore].  (The engine's sort is taken to leave an array with
    its elements.) *)
Theorem rerank_names_documents (svc : RerankerService) (backend : Backend)
  (query : string) (docs : list RerankerDocument) (topK : option nat)
  (r : RerankedValue) :
  permutes (runtime backend) ->
  In r (rerank svc backend query docs topK) ->
  (provider (config svc) <> cohere
   \/ numeric_indices (cohere_items svc backend docs topK) ->
   names_document docs r)
  /\ (names_document docs r \/ (r_id r = None /\ r_originalScore r = None)).
Proof.
  intros Hp Hin.
  assert (Hcases :
    names_document docs r
    \/ (provider (config svc) = cohere
        /\ exists item, In item (cohere_items svc backend docs topK)
             /\ element_at (runtime backend) docs (member "index" item)
                = NotDocument
             /\ r_id r = None /\ r_originalScore r = None)).
  { revert Hin. unfold rerank.
    destruct (negb (enabled svc) || (length docs =? 0)%nat).
    - intros H. apply in_map_iff in H. destruct H as (d & <- & Hd).
      left. exists d. now repeat split.
    - destruct (provider (config svc)) eqn:Hprov.
      + intros H. left.
        destruct (truthy_string (apiKey (config svc))) eqn:Hkey.
        * rewrite (rerankWithHuggingFace_keyed _ _ _ _ _ Hkey) in H.
          unfold slice0 in H. apply In_firstn in H.
          apply (proj1 (Array_sort_In (runtime backend)
                          (compareScores (runtime backend)) _ r Hp)) in H.
          apply scored_from_inv in H. destruct H as (n & d & Hn & ->).
          exists d. split; [eapply nth_error_In; eassumption|].
          now split.
        * unfold rerankWithHuggingFace in H. rewrite Hkey in H.
          now apply passthrough_names in H.
      + intros H. left. now apply passthrough_names in H.
      + unfold rerankWithCohere, cohere_items.
        destruct (negb (truthy_string (apiKey (config svc))));
          [intros H; left; now apply passthrough_names in H|].
        destruct (cohere_fetch backend _ _ _) as [e|st tx|[result|e]];
          try (intros H; left; now apply passthrough_names in H).
        destruct (member "results" result) as [[| | | |rs|]|];
          try (intros H; left; now apply passthrough_names in H).
        destruct (cohere_results (runtime backend) docs rs) as [out|e] eqn:Hc;
          [|intros H; left; now apply passthrough_names in H].
        intros H.
        destruct (In_cohere_results _ _ _ _ _ Hc H) as (item & Hitem & Hm).
        destruct (element_at (runtime backend) docs (member "index" item))
          as [d| |] eqn:E; [| |contradiction].
        * left. exists d. subst r.
          split; [exact (element_at_In _ _ _ _ E) | now split].
        * right. split; [reflexivity|]. exists item. subst r.
          now repeat split. }
  split.
  - intros Hnum. destruct Hcases as [H|(Hprov & item & Hitem & E & _)];
      [exact H|].
    destruct Hnum as [Hne|Hnum]; [contradiction|].
    destruct (Hnum item Hitem) as (n & Hn). rewrite Hn in E.
    exfalso. exact (element_at_number _ _ _ E).
  - destruct Hcases as [H|(_ & _ & _ & _ & H)]; [now left | now right].
Qed.

(** A Cohere answer that ranks the second document first, and one whose
    only item has the index ["length"]: the entry of the latter names no
    document. *)
Lemma rerank_names_documents_witness :
  names_document three_docs
    (mkReranked (Some "b"%string) (Some (JNum 0.9)) (Some 0.015))
  /\ rerank cohere_reranker length_backend "query" three_docs (Some 20%nat)
     = [mkReranked None (Some (JNum 0.9)) None].
Proof.
  split; [|reflexivity].
  refine (proj1 (rerank_names_documents cohere_reranker cohere_backend "query"
                   three_docs (Some 20%nat) _ reference_runtime_permutes _)
            _).
  - left. reflexivity.
  - right. intros item [<-|[<-|[]]]; eexists; reflexivity.
Defined.

(** ** Decoding the backend's payload *)

Lemma find_positive_cons (item : json) (rest : list json) :
  item <> JNull ->
  find_positive (item :: rest)
  = if is_positive item then Ok (Some item) else find_positive rest.
Proof. destruct item; intros H; try reflexivity. congruence. Qed.

Lemma find_positive_skip (pre rest : list json) :
  Forall not_positive pre ->
  find_positive (pre ++ rest) = find_positive rest.
Proof.
  induction 1 as [|i pre [Hnn Hi] Hpre IH]; [reflexivity|].
  cbn [app]. rewrite (find_positive_cons _ _ Hnn), Hi. exact IH.
Qed.

Lemma labelled_positive (l : string) (score : option json) (item : json) :
  labelled l score item -> item <> JNull /\ is_positive item = true.
Proof.
  intros (Hl & Hlabel & _). split.
  - intros ->. discriminate.
  - unfold is_positive. rewrite Hlabel. exact Hl.
Qed.

(** X8. [extractScoreFromResult] on a classification payload (an array
    whose first element is an array of items): past items that are not the
    positive class, the first item labelled LABEL_1, entailment or 1
    decides - its [score] property is the result as it is, a number or
    not, wherever the item stands - and a [null] item met on the way makes
    the function throw; when the deciding item has no [score], and when
    there is no such item at all, the [score] property of the first item
    is the result, and [null] when that item has none. *)
Theorem extractScore_classification (pre : list json) :
  Forall not_positive pre ->
  (forall l score item post rest, labelled l (Some score) item ->
     extractScoreFromResult (JArr (JArr (pre ++ item :: post) :: rest))
     = Ok score)
  /\ (forall post rest,
        extractScoreFromResult (JArr (JArr (pre ++ JNull :: post) :: rest))
        = Throw TypeError)
  /\ (forall l item post rest, labelled l None item ->
        extractScoreFromResult (JArr (JArr (pre ++ item :: post) :: rest))
        = Ok (nullish (score_of (hd_error (pre ++ [item]))) JNull))
  /\ (forall rest,
        extractScoreFromResult (JArr (JArr pre :: rest))
        = Ok (nullish (score_of (hd_error pre)) JNull)).
Proof.
  intros Hpre. split; [|split; [|split]].
  - intros l score item post rest Hl.
    destruct (labelled_positive _ _ _ Hl) as [Hnn Hpos].
    cbn [extractScoreFromResult]. rewrite (find_positive_skip _ _ Hpre).
    rewrite (find_positive_cons _ _ Hnn), Hpos. cbn [score_of].
    now rewrite (proj2 (proj2 Hl)).
  - intros post rest. cbn [extractScoreFromResult].
    rewrite (find_positive_skip _ _ Hpre). reflexivity.
  - intros l item post rest Hl.
    destruct (labelled_positive _ _ _ Hl) as [Hnn Hpos].
    cbn [extractScoreFromResult]. rewrite (find_positive_skip _ _ Hpre).
    rewrite (find_positive_cons _ _ Hnn), Hpos. cbn [score_of].
    rewrite (proj2 (proj2 Hl)).
    replace (hd_error (pre ++ item :: post)) with (hd_error (pre ++ [item]))
      by (destruct pre; reflexivity).
    now destruct (score_of (hd_error (pre ++ [item]))).
  - intros rest. cbn [extractScoreFromResult].
    rewrite <- (app_nil_r pre) at 1. rewrite (find_positive_skip _ _ Hpre).
    cbn [find_positive score_of].
    now destruct (score_of (hd_error pre)).
Qed.

(** The score of the positive class is a string: it comes back as it is. *)
Lemma extractScore_classification_witness :
  extractScoreFromResult
    (JArr [JArr [JObj [("label", JStr "LABEL_0"); ("score", JNum 0.9)];
                 JObj [("label", JStr "LABEL_1"); ("score", JStr "0.8")]]]%string)
  = Ok (JStr "0.8").
Proof.
  refine (proj1 (extractScore_classification
                   [JObj [("label", JStr "LABEL_0"); ("score", JNum 0.9)]]%string
                   _)
            "LABEL_1"%string (JStr "0.8") _ [] [] _).
  - repeat constructor. discriminate.
  - repeat split.
Defined.

(** ** The reranker's own normalizer *)

(** X9. [RerankerService.normalizeScores] rescales in place: it returns one
    entry per input entry, in the same order and with the same ids and
    original scores, every score within [0, 1], and every score 1 when
    all input scores are equal.  Unlike the normalizer of the search
    engine it drops nothing. *)
Theorem reranker_normalizeScores_keeps_all (rs : list RerankedResult) :
  let out := Reranker.normalizeScores rs in
  List.map r_id out = List.map r_id rs
  /\ List.map r_originalScore out = List.map r_originalScore rs
  /\ (forall r, In r out -> 0 <= r_score r <= 1)
  /\ ((forall a b, In a rs -> In b rs -> r_score a == r_score b) ->
      forall r, In r out -> r_score r == 1).
Proof.
  intros out. unfold out, Reranker.normalizeScores.
  destruct rs as [|r0 rs']; [cbn; repeat split; intros; contradiction|].
  set (rs := r0 :: rs').
  change (List.map r_score rs) with (r_score r0 :: List.map r_score rs').
  cbv iota beta zeta.
  set (mn := Math_min (r_score r0) (List.map r_score rs')).
  set (mx := Math_max (r_score r0) (List.map r_score rs')).
  assert (Hb : forall r, In r rs -> mn <= r_score r <= mx).
  { intros r [<-|Hr]; split.
    - apply Math_min_le_head. - apply Math_max_ge_head.
    - apply Math_min_le_In, in_map, Hr.
    - apply Math_max_ge_In, in_map, Hr. }
  assert (Hmn : In mn (List.map r_score rs)) by apply Math_min_In.
  assert (Hmx : In mx (List.map r_score rs)) by apply Math_max_In.
  destruct (Qeq_bool (mx - mn) 0) eqn:E.
  - rewrite !map_map. cbn [r_id r_originalScore r_score].
    repeat split; try reflexivity.
    + apply in_map_iff in H. destruct H as (x & <- & _). cbn. lra.
    + apply in_map_iff in H. destruct H as (x & <- & _). cbn. lra.
    + intros _ r Hr. apply in_map_iff in Hr. destruct Hr as (x & <- & _).
      reflexivity.
  - assert (Hne : ~ mx - mn == 0).
    { intros Heq. apply Qeq_bool_iff in Heq. congruence. }
    assert (Hpos : 0 < mx - mn).
    { pose proof (Hb r0 (or_introl eq_refl)). lra. }
    rewrite !map_map. cbn [r_id r_originalScore r_score].
    repeat split; try reflexivity.
    + apply in_map_iff in H. destruct H as (x & <- & Hx). cbn.
      apply Qle_shift_div_l; [exact Hpos|]. pose proof (Hb x Hx). lra.
    + apply in_map_iff in H. destruct H as (x & <- & Hx). cbn.
      apply Qle_shift_div_r; [exact Hpos|]. pose proof (Hb x Hx). lra.
    + intros Hall r Hr. exfalso.
      apply in_map_iff in Hmn. destruct Hmn as (a & Ea & Ha).
      apply in_map_iff in Hmx. destruct Hmx as (b & Eb & Hb').
      pose proof (Hall a b Ha Hb') as Hab. rewrite Ea, Eb in Hab. lra.
Qed.

(** ** The search pipeline *)

(** X10. What [search] returns: at most 20 results, each of them the record
    the metadata store holds for a candidate of the fused ranking of the
    two legs.  The score of the result is the fusion score of the candidate
    (also when a reranker reordered the list).  Its vector score is the
    similarity of a hit of the vector leg for that change, and is missing
    exactly when the vector leg has no hit for it; its keyword score is the
    absolute value of the rank of a hit of the lexical leg for that change,
    and is missing exactly when the lexical leg has no hit for it.  (The
    engine's sort is taken to leave an array with its elements.) *)
Theorem search_results (engine : SearchEngine) (env : Env)
  (query : SearchQuery) (results : list SearchResult) :
  permutes (runtime (backend env)) ->
  search engine env query = Ok results ->
  (length results <= 20)%nat
  /\ exists vs ks,
       vectorSearch env (naturalLanguage query) (pool_size query)
         (search_filters env query) = Ok vs
       /\ keywordSearch engine env (naturalLanguage query) (pool_size query)
          = Ok ks
       /\ forall r, In r results ->
            exists e, In e (fuse (search_params query) vs ks)
              /\ getChange env (changeId e) = Ok (Some (sr_change r))
              /\ sr_score r = rrfScore e
              /\ raw_vector_score vs (changeId e) (sr_vectorScore r)
              /\ raw_keyword_score ks (changeId e) (sr_keywordScore r).
Proof.
  intros Hp Hres.
  destruct (vectorSearch_total env (naturalLanguage query) (pool_size query)
              (search_filters env query)) as (vs & Hv).
  destruct (keywordSearch_total engine env (naturalLanguage query)
              (pool_size query)) as (ks & Hk).
  rewrite (search_pipeline engine env query vs ks Hv Hk) in Hres.
  destruct (final_ranking engine env (naturalLanguage query)
              (fuse (search_params query) vs ks) Hp)
    as (final & Hfinal & _ & Hfrom & _).
  rewrite Hfinal in Hres.
  unfold hydrateResults in Hres. split.
  - apply collect_length in Hres. unfold slice0 in Hres.
    rewrite length_firstn in Hres.
    unfold SEARCH_DEFAULTS.MAX_RESULTS in Hres. lia.
  - exists vs, ks. split; [exact Hv|]. split; [exact Hk|].
    intros r Hr.
    destruct (collect_ok _ _ _ _ _ Hres r Hr) as (x & c & Hx & Hg & ->).
    apply In_firstn in Hx.
    destruct (Hfrom x Hx) as (r0 & H0 & Hid & Hs & Hvs & Hks).
    exists r0. cbn [sr_change sr_score sr_vectorScore sr_keywordScore].
    split; [exact H0|]. rewrite <- Hid.
    split; [exact Hg|]. split; [exact Hs|].
    rewrite Hid, Hvs, Hks. unfold fuse in H0.
    exact (fusion_raw _ _ _ vs ks r0 H0).
Qed.

(** Two vector hits and two lexical hits: the change ["a"], found by the
    vector leg alone, comes back with its similarity [0.9] and without a
    keyword score. *)
Lemma search_results_witness :
  exists results r,
    search plain_engine small_env (mkQuery "parser" None None) = Ok results
    /\ In r results /\ sr_change r = change_of_id "a"
    /\ sr_vectorScore r = Some 0.9 /\ sr_keywordScore r = None
    /\ (length results <= 20)%nat.
Proof.
  destruct (search plain_engine small_env (mkQuery "parser" None None))
    as [results|e] eqn:H; [|vm_compute in H; discriminate].
  pose proof (proj1 (search_results plain_engine small_env _ results
                       reference_runtime_permutes H)) as Hlen.
  vm_compute in H. injection H as <-.
  do 2 eexists. split; [reflexivity|].
  split; [right; left; reflexivity|].
  repeat split. exact Hlen.
Defined.

Lemma collect_sorted {A B : Type} (env : Env) (key : A -> string)
  (make : A -> ChangeRecord -> B) (R : A -> A -> Prop) (R' : B -> B -> Prop)
  (l : list A) (out : list B) :
  (forall x y c c', R x y -> R' (make x c) (make y c')) ->
  StronglySorted R l -> collect env key make l = Ok out ->
  StronglySorted R' out.
Proof.
  intros Hmono Hs. revert out.
  induction Hs as [|x l Hs IH Hall]; cbn [collect]; intros out.
  - intros [= <-]. constructor.
  - destruct (getChange env (key x)) as [c|e]; cbn [bind]; [|discriminate].
    destruct (collect env key make l) as [rest|e] eqn:Hc; cbn [bind];
      [|discriminate].
    intros [= <-]. specialize (IH rest eq_refl).
    destruct c as [c|]; [|exact IH].
    constructor; [exact IH|].
    rewrite Forall_forall in *. intros b Hb.
    destruct (collect_ok _ _ _ _ _ Hc b Hb) as (y & c' & Hy & _ & ->).
    apply Hmono. now apply Hall.
Qed.

(** X11. While the reranker is not applied - it is switched off, or it has
    no credential - [search] returns its results in descending order of
    score. *)
Theorem search_sorted_without_reranker (engine : SearchEngine) (env : Env)
  (query : SearchQuery) (results : list SearchResult) :
  reranking_on engine = false ->
  search engine env query = Ok results ->
  StronglySorted by_result_score results.
Proof.
  intros Hoff Hres.
  destruct (vectorSearch_total env (naturalLanguage query) (pool_size query)
              (search_filters env query)) as (vs & Hv).
  destruct (keywordSearch_total engine env (naturalLanguage query)
              (pool_size query)) as (ks & Hk).
  rewrite (search_pipeline engine env query vs ks Hv Hk), Hoff in Hres.
  cbn [andb] in Hres. unfold hydrateResults in Hres.
  eapply (collect_sorted env changeId _ by_fusion_score by_result_score);
    [| |exact Hres].
  - intros x y c c' H. exact H.
  - unfold slice0. apply StronglySorted_firstn.
    unfold fuse, reciprocalRankFusion.
    apply Sorted_StronglySorted; [|apply Sorted_by_fusion_score].
    intros a b c Hab Hbc. unfold by_fusion_score in *.
    eapply Qle_trans; eassumption.
Qed.

Lemma search_sorted_without_reranker_witness :
  exists results,
    search plain_engine small_env (mkQuery "parser" None None) = Ok results
    /\ StronglySorted by_result_score results.
Proof.
  destruct (search plain_engine small_env (mkQuery "parser" None None))
    as [results|e] eqn:H.
  - exists results. split; [reflexivity|].
    exact (search_sorted_without_reranker plain_engine small_env _ results
             eq_refl H).
  - vm_compute in H. discriminate.
Defined.

Lemma keywordSearch_throws (engine : SearchEngine) (env : Env)
  (query : string) (topK : nat) :
  keyword_leg_throws engine env query topK ->
  keywordSearch engine env query topK = Ok [].
Proof.
  intros (e & He). unfold keywordSearch. now rewrite He.
Qed.

(** X12. When both retrieval legs throw, [search] returns the empty list:
    it does not throw, and neither the reranker nor the metadata store is
    consulted, so the outcome does not depend on their state. *)
Theorem search_both_legs_fail (engine : SearchEngine) (env : Env)
  (query : SearchQuery) :
  vector_leg_throws env (naturalLanguage query) (pool_size query)
    (search_filters env query) ->
  keyword_leg_throws engine env (naturalLanguage query) (pool_size query) ->
  search engine env query = Ok [].
Proof.
  intros Hv Hk.
  rewrite (search_pipeline engine env query [] []
             (vectorSearch_throws _ _ _ _ Hv)
             (keywordSearch_throws _ _ _ _ Hk)).
  change (length (fuse (search_params query) [] [])) with 0%nat.
  rewrite andb_false_r. reflexivity.
Qed.

Lemma search_both_legs_fail_witness :
  search rerank_engine broken_env (mkQuery "parser" None None) = Ok [].
Proof.
  apply search_both_legs_fail.
  - left. exists (mkError "ECONNREFUSED"). reflexivity.
  - exists (mkError "Database not initialized"). reflexivity.
Defined.

(** ** Switching the reranker *)

Lemma reranking_on_switched (engine : SearchEngine) (on : bool)
  (key : option string) :
  reranking_on (setRerankerEnabled engine on key)
  = on && (truthy_string key
           || truthy_string (apiKey (config (reranker engine)))).
Proof.
  unfold setRerankerEnabled, reranking_on, isEnabled.
  destruct key as [[|c k]|]; cbn; destruct on; cbn; try reflexivity;
    now destruct (truthy_string (apiKey (config (reranker engine)))).
Qed.

(** X13. The state [setRerankerEnabled] leaves: the reranker is applied
    afterwards exactly when it was switched on and a non-empty key was
    given now or is already stored; a stored key is never removed, an
    empty key given counts as none, and the workspace, the provider and
    the model stay as they are. *)
Theorem setRerankerEnabled_state (engine : SearchEngine) (on : bool)
  (key : option string) :
  let engine' := setRerankerEnabled engine on key in
  let stored := apiKey (config (reranker engine)) in
  reranking_on engine' = on && (truthy_string key || truthy_string stored)
  /\ apiKey (config (reranker engine'))
     = (if truthy_string key then key else stored)
  /\ (truthy_string stored = true ->
      truthy_string (apiKey (config (reranker engine'))) = true)
  /\ workspaceId engine' = workspaceId engine
  /\ provider (config (reranker engine')) = provider (config (reranker engine))
  /\ model (config (reranker engine')) = model (config (reranker engine)).
Proof.
  intros engine' stored. unfold engine', setRerankerEnabled, reranking_on,
    isEnabled.
  destruct key as [[|c k]|]; cbn; fold stored;
    destruct on; cbn; repeat split; try reflexivity; try tauto;
    now destruct (truthy_string stored).
Qed.

(** X14. Without a credential, switching the reranker on changes nothing:
    [search] returns what it returns with the reranker switched off, for
    every query and whatever the scoring backend would answer. *)
Theorem search_without_credential (engine : SearchEngine) (env : Env)
  (query : SearchQuery) :
  truthy_string (apiKey (config (reranker engine))) = false ->
  search (setRerankerEnabled engine true None) env query
  = search (setRerankerEnabled engine false None) env query.
Proof.
  intros Hkey.
  destruct (vectorSearch_total env (naturalLanguage query) (pool_size query)
              (search_filters env query)) as (vs & Hv).
  destruct (keywordSearch_total engine env (naturalLanguage query)
              (pool_size query)) as (ks & Hk).
  rewrite (search_pipeline (setRerankerEnabled engine true None) env query
             vs ks Hv Hk).
  rewrite (search_pipeline (setRerankerEnabled engine false None) env query
             vs ks Hv Hk).
  rewrite !reranking_on_switched, Hkey. reflexivity.
Qed.

Lemma search_without_credential_witness :
  search (setRerankerEnabled plain_engine true None) small_env
    (mkQuery "parser" None None)
  = search (setRerankerEnabled plain_engine false None) small_env
      (mkQuery "parser" None None).
Proof.
  apply search_without_credential. reflexivity.
Defined.

(** ** Highlights *)

(** X15. [generateHighlights] yields at most four entries, and none for
    an empty list of query terms; a query term that occurs in the file
    path of the change, compared without regard to case, always yields a
    [filePath] entry that shows the path and lists that term. *)
Theorem highlights_filePath (change : ChangeRecord) (terms : list string) :
  (length (generateHighlights change terms) <= 4)%nat
  /\ generateHighlights change [] = []
  /\ forall t, In t terms -> mentions (c_filePath change) t = true ->
       exists h, In h (generateHighlights change terms)
         /\ field h = "filePath"%string
         /\ snippet h = c_filePath change
         /\ In t (matchedTerms h).
Proof.
  split; [|split].
  - unfold generateHighlights. rewrite !length_app.
    repeat match goal with
           | |- context [if ?b then _ else _] => destruct b
           | |- context [match ?s with Some _ => _ | None => _ end] =>
               destruct s as [[|? ?]|]
           end; cbn; lia.
  - unfold generateHighlights. cbn [List.filter length Nat.ltb Nat.leb].
    assert (E : forall (A : Type) (f : A -> bool) (l : list A),
              List.filter (fun x => existsb f []) l
              = List.filter (fun _ => false) l) by reflexivity.
    assert (Hnil : forall (A : Type) (l : list A),
              List.filter (fun _ => false) l = []).
    { intros A l. induction l; cbn; auto. }
    cbn [existsb]. rewrite !Hnil. cbn.
    destruct (c_summary change) as [[|c s]|]; reflexivity.
  - intros t Ht Hm. unfold generateHighlights.
    set (pathMatches := List.filter (mentions (c_filePath change)) terms).
    assert (Hin : In t pathMatches) by (apply filter_In; now split).
    destruct pathMatches as [|p ps] eqn:E; [contradiction|].
    cbn [length Nat.ltb Nat.leb].
    eexists. split; [left; reflexivity|]. cbn. repeat split. exact Hin.
Qed.

(** ** findSimilar *)

(** X16. [findSimilar] on a change that has a record: without an embedding
    for it the call throws "No embedding found for change: <id>"; when it
    returns, it returns at most [topK] results, each of them a hit of the
    vector index under an id other than the reference id, with the
    similarity of the hit as score and as vector score, and without
    keyword score or highlights. *)
Theorem findSimilar_results (env : Env) (changeId : string) (topK : nat)
  (reference : ChangeRecord) :
  getChange env changeId = Ok (Some reference) ->
  (getVectorByChangeId env changeId = Ok None ->
   findSimilar env changeId topK
   = Throw (mkError ("No embedding found for change: " ++ changeId)))
  /\ (forall results, findSimilar env changeId topK = Ok results ->
        (length results <= topK)%nat
        /\ exists record similar,
             getVectorByChangeId env changeId = Ok (Some record)
             /\ vectorStore_search env (vr_vector record) (topK + 1) None
                = Ok similar
             /\ forall r, In r results ->
                  exists hit, In hit similar
                    /\ v_changeId hit <> changeId
                    /\ getChange env (v_changeId hit) = Ok (Some (sr_change r))
                    /\ sr_score r = v_score hit
                    /\ sr_vectorScore r = Some (v_score hit)
                    /\ sr_keywordScore r = None
                    /\ highlights r = None).
Proof.
  intros Href. unfold findSimilar. rewrite Href. cbn [bind]. split.
  - intros Hvec. now rewrite Hvec.
  - intros results.
    destruct (getVectorByChangeId env changeId) as [[record|]|e];
      cbn [bind]; try discriminate.
    destruct (vectorStore_search env (vr_vector record) (topK + 1) None)
      as [similar|e] eqn:Hsim; cbn [bind]; [|discriminate].
    intros Hres. split.
    + apply collect_length in Hres. unfold slice0 in Hres.
      rewrite length_firstn in Hres. lia.
    + exists record, similar.
      split; [reflexivity|]. split; [exact Hsim|].
      intros r Hr.
      destruct (collect_ok _ _ _ _ _ Hres r Hr) as (hit & c & Hx & Hg & ->).
      unfold slice0 in Hx. apply In_firstn, filter_In in Hx.
      destruct Hx as [Hin Hne].
      exists hit. cbn. repeat split; try assumption.
      apply negb_true_iff, String.eqb_neq in Hne. exact Hne.
Qed.

Lemma findSimilar_results_witness :
  findSimilar unembedded_env "a" 5
  = Throw (mkError "No embedding found for change: a").
Proof.
  exact (proj1 (findSimilar_results unembedded_env "a" 5 (change_of_id "a")
                  eq_refl) eq_refl).
Defined.

(** ** Query enrichment *)

(** X17. [enrichFilters] never overrides what the caller gave: an explicit
    time range is kept whatever the query says, the explicit file
    patterns stay in front of the extracted ones, and the language, event
    type, symbol, branch and session filters pass through unchanged.
    Without an explicit time range the parsed one, if any, is used. *)
Theorem enrichFilters_keeps_explicit (now : Z) (query : string)
  (given : SearchFilters) :
  let out := enrichFilters now query (Some given) in
  (forall range, timeRange given = Some range -> timeRange out = Some range)
  /\ (timeRange given = None ->
      timeRange out = parseTimeExpression now query)
  /\ nullish (filePatterns out) []
     = nullish (filePatterns given) [] ++ extractFilePatterns query
  /\ (extractFilePatterns query = [] -> filePatterns out = filePatterns given)
  /\ languages out = languages given
  /\ eventTypes out = eventTypes given
  /\ symbols out = symbols given
  /\ branches out = branches given
  /\ sessions out = sessions given.
Proof.
  intros out. unfold out, enrichFilters. cbn [nullish].
  destruct (extractFilePatterns query) as [|p ps] eqn:Ep;
    cbn [length Nat.ltb Nat.leb];
    destruct (parseTimeExpression now query) as [tr|];
    destruct (timeRange given) as [range|] eqn:Et;
    cbn; rewrite ?Et, ?app_nil_r;
    repeat split; intros; try congruence; try discriminate.
Qed.

Lemma existsb_eqb_In (x : string) (l : list string) :
  existsb (String.eqb x) l = true <-> In x l.
Proof.
  rewrite existsb_exists. split.
  - intros (y & Hy & E). apply String.eqb_eq in E. now subst.
  - intros H. exists x. split; [exact H | apply String.eqb_refl].
Qed.

Lemma dedupe_In (l seen : list string) (x : string) :
  In x (dedupe seen l) <-> In x l /\ ~ In x seen.
Proof.
  revert seen. induction l as [|y l IH]; intros seen; cbn [dedupe].
  - cbn. tauto.
  - destruct (existsb (String.eqb y) seen) eqn:E.
    + apply existsb_eqb_In in E. rewrite IH. cbn. split; [tauto|].
      intros [[->|H] Hn]; [contradiction | tauto].
    + assert (Hy : ~ In y seen).
      { intros H. apply existsb_eqb_In in H. congruence. }
      cbn [In]. rewrite IH. cbn [In]. split.
      * intros [->|[H Hn]]; [tauto|]. split; [tauto|]. tauto.
      * intros [[->|H] Hn]; [now left|].
        destruct (string_dec y x) as [->|Hne]; [now left|]. right.
        split; [exact H|]. intros [E'|E']; [congruence | contradiction].
Qed.

Lemma dedupe_NoDup (l seen : list string) : NoDup (dedupe seen l).
Proof.
  revert seen. induction l as [|y l IH]; intros seen; cbn [dedupe].
  - constructor.
  - destruct (existsb (String.eqb y) seen); [apply IH|].
    constructor; [|apply IH].
    rewrite dedupe_In. cbn. tauto.
Qed.

Lemma starts_with_app (p q s : text) :
  starts_with (p ++ q) s = true -> starts_with p s = true.
Proof.
  revert s. induction p as [|a p IH]; intros s; cbn; [reflexivity|].
  destruct s as [|b s]; [discriminate|].
  rewrite !andb_true_iff. intros [H1 H2]. split; [exact H1 | now apply IH].
Qed.

Lemma includes_text_prefix (s sub more : text) :
  includes_text s (sub ++ more) = true -> includes_text s sub = true.
Proof.
  induction s as [|c s IH]; cbn [includes_text]; rewrite !orb_true_iff.
  - intros [H|H]; [|discriminate]. left. eapply starts_with_app; eassumption.
  - intros [H|H]; [left; eapply starts_with_app; eassumption | right; auto].
Qed.

Lemma starts_with_includes (sub s : text) :
  starts_with sub s = true -> includes_text s sub = true.
Proof. intros H. destruct s; cbn; now rewrite H. Qed.

Lemma includes_text_tail (s sub : text) (c : ascii) :
  includes_text s (c :: sub) = true -> includes_text s sub = true.
Proof.
  induction s as [|x s IH]; cbn [includes_text starts_with].
  - discriminate.
  - rewrite orb_true_iff, andb_true_iff. intros [[_ H]|H].
    + apply orb_true_iff. right. now apply starts_with_includes.
    + apply orb_true_iff. right. now apply IH.
Qed.

(** X18. [extractFilePatterns] returns each pattern once.  The language
    keywords are looked for as substrings of the lower-cased query, so the
    glob of every keyword the query contains is among the patterns - and
    with it the glob of every keyword contained in a word of the query: a
    query with "ago" gets the Go pattern, a query with "javascript" also
    the Java pattern. *)
Theorem extractFilePatterns_keywords (query : string) :
  NoDup (extractFilePatterns query)
  /\ (forall keyword glob, In (keyword, glob) languageKeywords ->
        includes (toLowerCase query) keyword = true ->
        In glob (extractFilePatterns query))
  /\ (includes (toLowerCase query) "ago" = true ->
      In "**/*.go"%string (extractFilePatterns query))
  /\ (includes (toLowerCase query) "javascript" = true ->
      In "**/*.java"%string (extractFilePatterns query)
      /\ In "**/*.js"%string (extractFilePatterns query)).
Proof.
  assert (Hkw : forall keyword glob, In (keyword, glob) languageKeywords ->
            includes (toLowerCase query) keyword = true ->
            In glob (extractFilePatterns query)).
  { intros keyword glob Hin Hinc. unfold extractFilePatterns.
    apply dedupe_In. split; [|intros []].
    apply in_or_app. right. apply in_flat_map.
    exists (keyword, glob). split; [exact Hin|]. cbn [fst snd].
    rewrite Hinc. now left. }
  split; [apply dedupe_NoDup|]. split; [exact Hkw|]. split.
  - intros H. apply (Hkw "go"%string); [cbn; tauto|].
    unfold includes in *. exact (includes_text_tail _ _ _ H).
  - intros H. split.
    + apply (Hkw "java"%string); [cbn; tauto|].
      unfold includes in *.
      exact (includes_text_prefix _ (chars "java") (chars "script") H).
    + apply (Hkw "javascript"%string); [cbn; tauto | exact H].
Qed.

Lemma parseInt_nonneg (digits : text) : (0 <= parseInt digits)%Z.
Proof.
  unfold parseInt.
  assert (H : forall acc, (0 <= acc)%Z ->
            (0 <= fold_left (fun a c => a * 10 + Z.of_nat (code c - 48)) digits
                    acc)%Z).
  { induction digits as [|c ds IH]; intros acc Ha; cbn; [exact Ha|].
    apply IH. lia. }
  apply H. lia.
Qed.

Lemma first_match_handler {A : Type} (P : A -> Prop)
  (patterns : list (regex * (list text -> A))) (s : text) (a : A) :
  Forall (fun ph => forall caps, P (snd ph caps)) patterns ->
  first_match patterns s = Some a -> P a.
Proof.
  induction 1 as [|[re h] ps Hh Hps IH]; cbn [first_match]; [discriminate|].
  destruct (exec re s) as [f|]; [|exact IH].
  intros [= <-]. apply Hh.
Qed.

(** X19. Every range [parseTimeExpression] returns lies in the past of the
    clock reading and is not inverted: its start is at most its end, and
    its end at most [now]. *)
Theorem parseTimeExpression_past (now : Z) (expr : string) (range : TimeRange) :
  parseTimeExpression now expr = Some range -> past_window now range.
Proof.
  unfold parseTimeExpression. apply first_match_handler.
  unfold time_patterns, past_window, Millis.week, Millis.month, Millis.day.
  repeat constructor; cbn [snd tr_start tr_end]; try lia;
    pose proof (parseInt_nonneg (nth 0 caps [])); lia.
Qed.

Lemma parseTimeExpression_past_witness :
  past_window noon_june_first (mkRange 1717070400000 1717156800000).
Proof.
  apply (parseTimeExpression_past noon_june_first parser_query).
  vm_compute. reflexivity.
Defined.

(** ** Text processing *)

Lemma chars_str (t : text) : chars (str t) = t.
Proof. apply list_ascii_of_string_of_list_ascii. Qed.

Lemma length_chars (s : string) : length (chars s) = String.length s.
Proof. induction s; cbn; auto. Qed.

(** *** The matcher consumes a prefix *)

Lemma iterate_suffix (step : text -> list outcome) :
  (forall s o, In o (step s) -> exists pre, s = pre ++ snd o) ->
  forall n s o, In o (iterate step n s) -> exists pre, s = pre ++ snd o.
Proof.
  intros Hstep. induction n as [|n IH]; intros s o; cbn [iterate].
  - intros [<-|[]]. now exists [].
  - rewrite in_app_iff, in_flat_map. intros [(o1 & H1 & H2)|[<-|[]]].
    + destruct (length (snd o1) <? length s)%nat; [|contradiction].
      destruct (Hstep _ _ H1) as (p1 & E1).
      destruct (IH _ _ H2) as (p2 & E2).
      exists (p1 ++ p2). now rewrite <- app_assoc, <- E2.
    + now exists [].
Qed.

Lemma run_suffix (r : regex) :
  forall s o, In o (run r s) -> exists pre, s = pre ++ snd o.
Proof.
  induction r as [|p|r1 IH1 r2 IH2|r1 IH1 r2 IH2|r1 IH1|r1 IH1|r1 IH1|r1 IH1];
    intros s o; cbn [run].
  - intros [<-|[]]. now exists [].
  - destruct s as [|c s]; [intros []|].
    destruct (p c); [|intros []]. intros [<-|[]]. now exists [c].
  - rewrite in_flat_map. intros (o1 & H1 & H2).
    apply in_map_iff in H2. destruct H2 as (o2 & <- & H2).
    destruct (IH1 _ _ H1) as (p1 & E1). destruct (IH2 _ _ H2) as (p2 & E2).
    exists (p1 ++ p2). cbn [snd]. now rewrite <- app_assoc, <- E2.
  - rewrite in_app_iff. intros [H|H]; [now apply IH1 | now apply IH2].
  - rewrite in_app_iff. intros [H|[<-|[]]]; [now apply IH1 | now exists []].
  - now apply iterate_suffix.
  - rewrite in_flat_map. intros (o1 & H1 & H2).
    apply in_map_iff in H2. destruct H2 as (o2 & <- & H2).
    destruct (IH1 _ _ H1) as (p1 & E1).
    destruct (iterate_suffix _ IH1 _ _ _ H2) as (p2 & E2).
    exists (p1 ++ p2). cbn [snd]. now rewrite <- app_assoc, <- E2.
  - rewrite in_map_iff. intros (o1 & <- & H1). cbn [snd]. now apply IH1.
Qed.

Lemma iterate_nonempty (step : text -> list outcome) (n : nat) (s : text) :
  iterate step n s <> [].
Proof.
  destruct n; cbn [iterate]; [discriminate|].
  intros H. apply app_eq_nil in H. destruct H as [_ H]. discriminate.
Qed.

(** One or more characters of a class: a match consumes input, and there
    is a match wherever the input starts with a character of the class. *)
Lemma run_Plus_Chr (p : ascii -> bool) (s : text) :
  (forall o, In o (run (Plus (Chr p)) s) ->
     (length (snd o) < length s)%nat /\ exists pre, s = pre ++ snd o)
  /\ (run (Plus (Chr p)) s = [] ->
      match s with
      | [] => True
      | c :: _ => p c = false
      end).
Proof.
  split.
  - intros o Ho. pose proof (run_suffix _ _ _ Ho) as Hsuf. split; [|exact Hsuf].
    cbn [run] in Ho. destruct s as [|c s]; [contradiction|].
    destruct (p c); [|contradiction].
    cbn [flat_map snd] in Ho. rewrite app_nil_r in Ho.
    apply in_map_iff in Ho. destruct Ho as (o2 & <- & H2). cbn [snd].
    destruct (iterate_suffix (run (Chr p)) (run_suffix (Chr p)) _ _ _ H2)
      as (pre & E).
    apply (f_equal (@length ascii)) in E. rewrite length_app in E.
    cbn [length]. lia.
  - destruct s as [|c s]; [trivial|]. cbn [run].
    destruct (p c); [|reflexivity].
    cbn [flat_map snd]. rewrite app_nil_r. intros H.
    apply map_eq_nil in H. now apply iterate_nonempty in H.
Qed.

(** *** Splitting at runs of a class *)

Lemma Forall_suffix {A : Type} (P : A -> Prop) (pre l : list A) :
  Forall P (pre ++ l) -> Forall P l.
Proof. rewrite Forall_app. tauto. Qed.

Lemma split_fuel_pieces (p : ascii -> bool) (P : ascii -> Prop)
  (fuel : nat) (cur s : text) :
  (length s < fuel)%nat ->
  Forall P s -> Forall (fun c => P c /\ p c = false) cur ->
  Forall (Forall (fun c => P c /\ p c = false))
    (split_fuel fuel (Plus (Chr p)) cur s).
Proof.
  revert cur s. induction fuel as [|fuel IH]; intros cur s Hlen Hs Hcur;
    [lia|].
  cbn [split_fuel]. destruct s as [|c s'].
  - constructor; [|constructor]. now apply Forall_rev.
  - destruct (run_Plus_Chr p (c :: s')) as [Hmatch Hnone].
    destruct (run (Plus (Chr p)) (c :: s')) as [|o os].
    + apply IH; [cbn in Hlen; lia | now inversion Hs |].
      constructor; [|exact Hcur]. split; [now inversion Hs | now apply Hnone].
    + destruct (Hmatch o (or_introl eq_refl)) as (Hshort & pre & E).
      assert (Hneq : (length (snd o) =? length (c :: s'))%nat = false)
        by (apply Nat.eqb_neq; lia).
      rewrite Hneq. cbn [andb].
      constructor; [now apply Forall_rev|].
      apply IH; [lia | | constructor].
      rewrite E in Hs. eapply Forall_suffix; eassumption.
Qed.

Lemma split_pieces (p : ascii -> bool) (P : ascii -> Prop) (s t : string) :
  Forall P (chars s) -> In t (split (Plus (Chr p)) s) ->
  Forall (fun c => P c /\ p c = false) (chars t).
Proof.
  intros Hs Ht. unfold split in Ht.
  destruct (chars s) as [|c cs] eqn:E.
  - cbn in Ht. destruct Ht as [<-|[]]. constructor.
  - rewrite <- E in *. apply in_map_iff in Ht. destruct Ht as (piece & <- & Hp).
    rewrite chars_str.
    assert (H : Forall (Forall (fun c => P c /\ p c = false))
                  (split_fuel (2 * String.length s + 1) (Plus (Chr p)) []
                     (chars s))).
    { apply split_fuel_pieces; [rewrite length_chars; lia | exact Hs |
                                constructor]. }
    exact (proj1 (Forall_forall _ _) H piece Hp).
Qed.

(** *** Replacing the characters of a class *)

Lemma exec_from_Chr (p : ascii -> bool) (s skipped : text) :
  (exec_from (Chr p) skipped s = None /\ Forall (fun c => p c = false) s)
  \/ exists pre c post,
       s = pre ++ c :: post /\ Forall (fun c => p c = false) pre
       /\ p c = true
       /\ exec_from (Chr p) skipped s
          = Some (mkFound (rev skipped ++ pre) [c] [] post).
Proof.
  revert skipped. induction s as [|c s IH]; intros skipped.
  - left. split; [reflexivity | constructor].
  - cbn [exec_from run]. destruct (p c) eqn:Hc.
    + right. exists [], c, s. rewrite app_nil_r. cbn [snd fst].
      replace (length (c :: s) - length s)%nat with 1%nat
        by (change (length (c :: s)) with (S (length s)); lia).
      split; [reflexivity|]. split; [constructor|]. split; [exact Hc|].
      reflexivity.
    + destruct (IH (c :: skipped)) as [[Hn Hall]|(pre & c' & post & E & Hpre & Hc' & Hx)].
      * left. split; [exact Hn | now constructor].
      * right. exists (c :: pre), c', post. subst s.
        split; [reflexivity|]. split; [now constructor|].
        split; [exact Hc'|].
        rewrite Hx. cbn [rev]. now rewrite <- app_assoc.
Qed.

Lemma flat_map_id {A : Type} (f : A -> list A) (l : list A) :
  Forall (fun x => f x = [x]) l -> flat_map f l = l.
Proof.
  induction 1 as [|x l Hx Hl IH]; cbn; [reflexivity|]. now rewrite Hx, IH.
Qed.

Lemma replace_all_fuel_Chr (p : ascii -> bool) (rep : text) (fuel : nat)
  (s : text) :
  (length s < fuel)%nat ->
  replace_all_fuel fuel (Chr p) rep s
  = flat_map (fun c => if p c then rep else [c]) s.
Proof.
  revert s. induction fuel as [|fuel IH]; intros s Hlen; [lia|].
  cbn [replace_all_fuel]. unfold exec.
  destruct (exec_from_Chr p s [])
    as [[Hn Hall]|(pre & c & post & E & Hpre & Hc & Hx)].
  - rewrite Hn. symmetry. apply flat_map_id.
    eapply Forall_impl; [|exact Hall]. intros a Ha. cbn beta. now rewrite Ha.
  - rewrite Hx. cbn [f_before f_match f_after rev app].
    rewrite E, flat_map_app. cbn [flat_map]. rewrite Hc.
    rewrite flat_map_id.
    + rewrite IH; [reflexivity|].
      rewrite E, length_app in Hlen. cbn in Hlen. lia.
    + eapply Forall_impl; [|exact Hpre]. intros a Ha. cbn beta. now rewrite Ha.
Qed.

(** Replacing a class of characters by one character, globally, maps the
    string character by character. *)
Lemma replace_all_Chr (p : ascii -> bool) (b : ascii) (s : string) :
  chars (replace_all (Chr p) (String b EmptyString) s)
  = List.map (fun c => if p c then b else c) (chars s).
Proof.
  unfold replace_all. rewrite chars_str, replace_all_fuel_Chr.
  - cbn [chars list_ascii_of_string].
    induction (chars s) as [|c l IH]; cbn; [reflexivity|].
    rewrite IH. now destruct (p c).
  - rewrite length_chars. lia.
Qed.

Lemma Forall_drop_space (P : ascii -> Prop) (s : text) :
  Forall P s -> Forall P (drop_space s).
Proof.
  induction 1 as [|c s Hc Hs IH]; cbn; [constructor|].
  destruct (is_space c); [exact IH | now constructor].
Qed.

Lemma Forall_trim (P : ascii -> Prop) (s : string) :
  Forall P (chars s) -> Forall P (chars (trim s)).
Proof.
  intros H. unfold trim, trim_text. rewrite chars_str.
  apply Forall_rev, Forall_drop_space, Forall_rev, Forall_drop_space, H.
Qed.

(** X20. The expression [prepareFTSQuery] builds is safe to quote: it is
    the raw query when no term is kept, and otherwise the kept terms, each
    in double quotes with a star, joined by OR - and every kept term is
    longer than one character and holds no double quote, no other special
    character and no white space. *)
Theorem prepareFTSQuery_sanitized (query : string) :
  (fts_terms query = [] -> prepareFTSQuery query = query)
  /\ (fts_terms query <> [] ->
      prepareFTSQuery query = join " OR " (List.map quoted (fts_terms query)))
  /\ forall t, In t (fts_terms query) ->
       (1 < String.length t)%nat /\ Forall fts_clean (chars t).
Proof.
  split; [|split].
  - intros Hnil. unfold prepareFTSQuery. fold (fts_terms query).
    now rewrite Hnil.
  - intros Hne.
    destruct (fts_terms query) as [|t0 ts] eqn:E; [contradiction|].
    assert (Hlong : exists t, In t (fts_tokens query)
                              /\ (1 < String.length t)%nat).
    { exists t0. assert (Hin : In t0 (fts_terms query))
        by (rewrite E; now left).
      apply filter_In in Hin. destruct Hin as [Hin Hl].
      split; [exact Hin | now apply Nat.ltb_lt]. }
    destruct (prepareFTSQuery_long_token query Hlong) as [Heq _].
    rewrite Heq. fold (fts_terms query). now rewrite E.
  - intros t Ht. apply filter_In in Ht. destruct Ht as [Ht Hl].
    split; [now apply Nat.ltb_lt|].
    unfold fts_tokens in Ht.
    apply (split_pieces is_space (fun c => fts_special c = false)) in Ht;
      [exact Ht|].
    apply Forall_trim. unfold re_fts_special. rewrite replace_all_Chr.
    apply Forall_forall. intros c Hc. apply in_map_iff in Hc.
    destruct Hc as (x & <- & _).
    fold (fts_special x). destruct (fts_special x) eqn:Ex;
      [reflexivity | exact Ex].
Qed.

Lemma lower_char_not_upper (c : ascii) : is_upper (lower_char c) = false.
Proof.
  destruct c as [[] [] [] [] [] [] [] []]; reflexivity.
Qed.

(** X21. The terms [extractQueryTerms] hands to highlighting are longer
    than two characters and consist of lower-case letters, digits and
    underscores only. *)
Theorem extractQueryTerms_words (query : string) (t : string) :
  In t (extractQueryTerms query) ->
  (2 < String.length t)%nat /\ Forall term_char (chars t).
Proof.
  unfold extractQueryTerms. intros Ht.
  apply filter_In in Ht. destruct Ht as [Ht Hl].
  split; [now apply Nat.ltb_lt|].
  apply (split_pieces is_space
           (fun c => is_word c || is_space c = true /\ is_upper c = false))
    in Ht.
  - eapply Forall_impl; [|exact Ht].
    intros c [[Hw Hu] Hs]. rewrite Hs, orb_false_r in Hw. now split.
  - rewrite replace_all_Chr. apply Forall_forall.
    intros c Hc. apply in_map_iff in Hc. destruct Hc as (x & <- & Hx).
    unfold toLowerCase in Hx. rewrite chars_str in Hx.
    apply in_map_iff in Hx. destruct Hx as (y & <- & _).
    destruct (is_word (lower_char y) || is_space (lower_char y)) eqn:E;
      cbn [negb].
    + split; [exact E | apply lower_char_not_upper].
    + split; reflexivity.
Qed.

Lemma extractQueryTerms_words_witness :
  Forall term_char (chars "parser").
Proof.
  refine (proj2 (extractQueryTerms_words "Fix the-bug in (Parser) a" "parser" _)).
  vm_compute. tauto.
Defined.

(* ------------------------------------------------------------------ *)
(** * Retrying and the embedding cache *)

Lemma retry_from_succeeds {T : Type} (fn : nat -> Result T)
  (maxRetries : nat) (baseDelay : Z) (k : nat) (a : T) :
  (k < maxRetries)%nat ->
  (forall j, (j < k)%nat -> fails (fn j)) ->
  fn k = Ok a ->
  forall d attempt remaining last asleep,
    (attempt + d = k)%nat -> (attempt + remaining = maxRetries)%nat ->
    retry_from fn maxRetries baseDelay remaining attempt last asleep
    = mkAttempted (Fulfilled a) (S k)
        (asleep + baseDelay * (2 ^ Z.of_nat k - 2 ^ Z.of_nat attempt))%Z.
Proof.
  intros Hk Hfail Hok.
  induction d as [|d IH]; intros attempt remaining last asleep Hd Hrem.
  - assert (attempt = k) by lia. subst attempt.
    destruct remaining as [|remaining]; [lia|].
    cbn [retry_from]. rewrite Hok. f_equal. lia.
  - destruct remaining as [|remaining]; [lia|].
    cbn [retry_from].
    destruct (Hfail attempt ltac:(lia)) as [e He]. rewrite He.
    assert (Hlt : (attempt <? maxRetries - 1)%nat = true)
      by (apply Nat.ltb_lt; lia).
    rewrite Hlt.
    rewrite (IH (S attempt) remaining (Some e)) by lia.
    f_equal. rewrite Nat2Z.inj_succ, Z.pow_succ_r by lia. lia.
Qed.

Lemma retry_from_gives_up {T : Type} (fn : nat -> Result T)
  (maxRetries : nat) (baseDelay : Z) (e : Error) :
  (forall j, (j < maxRetries)%nat -> fails (fn j)) ->
  fn (maxRetries - 1)%nat = Throw e ->
  forall remaining attempt last asleep,
    (0 < remaining)%nat -> (attempt + remaining = maxRetries)%nat ->
    retry_from fn maxRetries baseDelay remaining attempt last asleep
    = mkAttempted (RejectedWith (Some e)) maxRetries
        (asleep + baseDelay
                  * (2 ^ Z.of_nat (maxRetries - 1) - 2 ^ Z.of_nat attempt))%Z.
Proof.
  intros Hfail Hlast.
  induction remaining as [|remaining IH]; intros attempt last asleep Hpos Hrem;
    [lia|].
  cbn [retry_from].
  destruct (Hfail attempt ltac:(lia)) as [e' He']. rewrite He'.
  destruct remaining as [|remaining].
  - assert (Hat : attempt = (maxRetries - 1)%nat) by lia.
    assert (Hge : (attempt <? maxRetries - 1)%nat = false)
      by (apply Nat.ltb_ge; lia).
    rewrite Hge. cbn [retry_from].
    rewrite Hat in He'. rewrite Hlast in He'. injection He' as <-.
    replace (S attempt) with maxRetries by lia.
    f_equal. rewrite Hat. lia.
  - assert (Hlt : (attempt <? maxRetries - 1)%nat = true)
      by (apply Nat.ltb_lt; lia).
    rewrite Hlt.
    rewrite (IH (S attempt) (Some e')) by lia.
    f_equal. rewrite Nat2Z.inj_succ, Z.pow_succ_r by lia. lia.
Qed.

(** X22. [retry] with exponential backoff.  When the call succeeds for the
    first time at attempt [k] (counted from 0) below [maxRetries], [retry]
    is fulfilled with that value after [k + 1] calls and a total sleep of
    [baseDelay * (2^k - 1)] milliseconds.  When all [maxRetries] calls
    throw, it is rejected with the error of the last call, after exactly
    [maxRetries] calls and a sleep of [baseDelay * (2^(maxRetries-1) - 1)]:
    there is no sleep after the last failure.  With [maxRetries] 0 the
    function is never called, and the rejection carries [undefined]. *)
Theorem retry_backoff {T : Type} (fn : nat -> Result T) (maxRetries : nat)
  (baseDelay : Z) :
  (forall k a, (k < maxRetries)%nat ->
     (forall j, (j < k)%nat -> fails (fn j)) -> fn k = Ok a ->
     retry fn maxRetries baseDelay
     = mkAttempted (Fulfilled a) (S k)
         (baseDelay * (2 ^ Z.of_nat k - 1))%Z)
  /\ (forall e, (0 < maxRetries)%nat ->
        (forall j, (j < maxRetries)%nat -> fails (fn j)) ->
        fn (maxRetries - 1)%nat = Throw e ->
        retry fn maxRetries baseDelay
        = mkAttempted (RejectedWith (Some e)) maxRetries
            (baseDelay * (2 ^ Z.of_nat (maxRetries - 1) - 1))%Z)
  /\ (maxRetries = 0%nat ->
      retry fn maxRetries baseDelay = mkAttempted (RejectedWith None) 0 0%Z).
Proof.
  split; [|split].
  - intros k a Hk Hfail Hok. unfold retry.
    rewrite (retry_from_succeeds fn maxRetries baseDelay k a Hk Hfail Hok
               k 0%nat maxRetries None 0%Z) by lia.
    f_equal.
  - intros e Hpos Hfail Hlast. unfold retry.
    rewrite (retry_from_gives_up fn maxRetries baseDelay e Hfail Hlast
               maxRetries 0%nat None 0%Z) by lia.
    f_equal.
  - intros ->. reflexivity.
Qed.

(** *** The cache of the embedding service *)

Lemma get_delete_other (cache : JsMap.t (list Q)) (k k' : string) :
  k <> k' ->
  JsMap.get (Embedding.delete cache k) k' = JsMap.get cache k'.
Proof.
  intros Hne. induction cache as [|[k0 v0] cache IH]; [reflexivity|].
  cbn [Embedding.delete filter fst JsMap.get].
  destruct (String.eqb_spec k0 k) as [->|Hk0]; cbn [negb].
  - fold (Embedding.delete cache k). rewrite IH.
    destruct (String.eqb_spec k' k) as [->|_]; [congruence | reflexivity].
  - fold (Embedding.delete cache k). cbn [JsMap.get]. now rewrite IH.
Qed.

Lemma first_key_set (cache : JsMap.t (list Q)) (k : string) (v : list Q)
  (firstKey : string) (rest : list string) :
  JsMap.get cache k = None ->
  (1 < length (JsMap.set cache k v))%nat ->
  JsMap.keys (JsMap.set cache k v) = firstKey :: rest ->
  firstKey <> k.
Proof.
  destruct cache as [|[k0 v0] cache]; cbn [JsMap.set JsMap.get length].
  - lia.
  - destruct (String.eqb_spec k k0) as [->|Hne]; [discriminate|].
    intros _ _. cbn [JsMap.keys List.map fst]. intros [= <- _]. congruence.
Qed.

Lemma get_limit_set (cache : JsMap.t (list Q)) (k : string) (v : list Q) :
  JsMap.get cache k = None ->
  JsMap.get (Embedding.limit (JsMap.set cache k v)) k = Some v.
Proof.
  intros Hmiss. unfold Embedding.limit.
  destruct (1000 <? length (JsMap.set cache k v))%nat eqn:Hfull;
    [|apply JsMapFacts.get_set_same].
  apply Nat.ltb_lt in Hfull.
  destruct (JsMap.keys (JsMap.set cache k v)) as [|firstKey rest] eqn:Hkeys;
    [apply JsMapFacts.get_set_same|].
  destruct (truthy_string (Some firstKey));
    [|apply JsMapFacts.get_set_same].
  rewrite get_delete_other; [apply JsMapFacts.get_set_same|].
  apply (first_key_set cache k v firstKey rest Hmiss); [lia | exact Hkeys].
Qed.

(** X23. [EmbeddingService.embed] answers a repeated text from its cache:
    once [embed] has been fulfilled for a text, a further call for the same
    text is fulfilled with the same vector and leaves the service as it is,
    whatever the provider would answer by then - the provider is not asked,
    and the entry just stored is never the one the size limit deletes. *)
Theorem embed_cached (generateContentHash : string -> string)
  (svc svc' : Embedding.EmbeddingService) (text : string) (vector : list Q) :
  Embedding.embed generateContentHash svc text = (Fulfilled vector, svc') ->
  forall p : Embedding.Provider,
    Embedding.embed generateContentHash (with_provider svc' p) text
    = (Fulfilled vector, with_provider svc' p).
Proof.
  unfold Embedding.embed. intros Hfirst p.
  cbn [with_provider Embedding.provider Embedding.embeddingCache].
  destruct (Embedding.provider svc) as [p0|]; [|discriminate].
  destruct (JsMap.get (Embedding.embeddingCache svc)
              (generateContentHash text)) as [cached|] eqn:Hget.
  - injection Hfirst as <- <-. now rewrite Hget.
  - destruct (settled (retry (p0 text) 3 1000)) as [embedding|reason];
      [|discriminate].
    injection Hfirst as <- <-.
    cbn [Embedding.embeddingCache].
    now rewrite (get_limit_set _ _ embedding Hget).
Qed.

Lemma embed_cached_witness :
  Embedding.embed example_hash (fresh_service flaky_provider) "fix parser"
  = (Fulfilled [0.5; 0.25],
     Embedding.mkService (Some flaky_provider) "huggingface"
       [("h:fix parser"%string, [0.5; 0.25])])
  /\ Embedding.embed example_hash
       (with_provider
          (Embedding.mkService (Some flaky_provider) "huggingface"
             [("h:fix parser"%string, [0.5; 0.25])])
          dead_provider) "fix parser"
     = (Fulfilled [0.5; 0.25],
        with_provider
          (Embedding.mkService (Some flaky_provider) "huggingface"
             [("h:fix parser"%string, [0.5; 0.25])])
          dead_provider).
Proof.
  assert (H : Embedding.embed example_hash (fresh_service flaky_provider)
                "fix parser"
              = (Fulfilled [0.5; 0.25],
                 Embedding.mkService (Some flaky_provider) "huggingface"
                   [("h:fix parser"%string, [0.5; 0.25])]))
    by reflexivity.
  split; [exact H|].
  exact (embed_cached example_hash _ _ _ _ H dead_provider).
Defined.

Lemma length_delete_head (cache : JsMap.t (list Q)) (k : string)
  (v : list Q) :
  (length (Embedding.delete ((k, v) :: cache) k) <= length cache)%nat.
Proof.
  cbn [Embedding.delete filter fst]. rewrite String.eqb_refl. cbn [negb].
  apply filter_length_le.
Qed.

Lemma keys_delete_incl (cache : JsMap.t (list Q)) (k : string) :
  incl (JsMap.keys (Embedding.delete cache k)) (JsMap.keys cache).
Proof.
  intros x Hx. unfold JsMap.keys in *. apply in_map_iff in Hx.
  destruct Hx as ([k0 v0] & <- & Hin). apply filter_In in Hin.
  apply in_map_iff. exists (k0, v0). tauto.
Qed.

Lemma limit_bound (cache : JsMap.t (list Q)) :
  (length cache <= 1001)%nat ->
  Forall (fun key => key <> EmptyString) (JsMap.keys cache) ->
  (length (Embedding.limit cache) <= 1000)%nat.
Proof.
  intros Hlen Hkeys. unfold Embedding.limit.
  destruct (1000 <? length cache)%nat eqn:Hfull.
  - destruct cache as [|[k v] cache]; [cbn; lia|].
    cbn [JsMap.keys List.map fst].
    apply Forall_inv in Hkeys. cbn [fst] in Hkeys.
    destruct k as [|c k]; [congruence|]. cbn [truthy_string].
    etransitivity; [apply length_delete_head|]. cbn [length] in Hlen. lia.
  - apply Nat.ltb_ge in Hfull. exact Hfull.
Qed.

Lemma limit_keys_incl (cache : JsMap.t (list Q)) :
  incl (JsMap.keys (Embedding.limit cache)) (JsMap.keys cache).
Proof.
  unfold Embedding.limit.
  destruct (1000 <? length cache)%nat; [|apply incl_refl].
  destruct (JsMap.keys cache) as [|firstKey rest] eqn:Hkeys;
    [rewrite Hkeys; apply incl_refl|].
  destruct (truthy_string (Some firstKey));
    [|rewrite Hkeys; apply incl_refl].
  rewrite <- Hkeys. apply keys_delete_incl.
Qed.

Lemma length_set_le (cache : JsMap.t (list Q)) (k : string) (v : list Q) :
  (length (JsMap.set cache k v) <= S (length cache))%nat.
Proof.
  induction cache as [|[k0 v0] cache IH]; cbn [JsMap.set length]; [lia|].
  destruct (String.eqb k k0); cbn [length]; lia.
Qed.

(** X24. The cache of [EmbeddingService.embed] stays bounded: on a service
    whose cache holds at most 1000 entries, none under the empty key, a
    call of [embed] for a text whose hash is not empty - fulfilled or
    rejected - leaves a cache of at most 1000 entries, none under the
    empty key, and every key it holds was there before or is the hash of
    the text. *)
Theorem embed_cache_bounded (generateContentHash : string -> string)
  (svc svc' : Embedding.EmbeddingService) (text : string)
  (result : Settled (list Q)) :
  cache_within_limit svc ->
  generateContentHash text <> EmptyString ->
  Embedding.embed generateContentHash svc text = (result, svc') ->
  cache_within_limit svc'
  /\ incl (JsMap.keys (Embedding.embeddingCache svc'))
       (generateContentHash text :: JsMap.keys (Embedding.embeddingCache svc)).
Proof.
  intros [Hlen Hkeys] Hhash. unfold Embedding.embed.
  assert (Hsame : cache_within_limit svc
            /\ incl (JsMap.keys (Embedding.embeddingCache svc))
                 (generateContentHash text
                  :: JsMap.keys (Embedding.embeddingCache svc)))
    by (split; [split; assumption | apply incl_tl, incl_refl]).
  destruct (Embedding.provider svc) as [p|];
    [|intros [= <- <-]; exact Hsame].
  destruct (JsMap.get (Embedding.embeddingCache svc)
              (generateContentHash text)) as [cached|];
    [intros [= <- <-]; exact Hsame|].
  destruct (settled (retry (p text) 3 1000)) as [embedding|reason];
    [|intros [= <- <-]; exact Hsame].
  intros [= <- <-]. clear Hsame.
  set (cache := Embedding.embeddingCache svc) in *.
  set (key := generateContentHash text) in *.
  assert (Hset : incl (JsMap.keys (JsMap.set cache key embedding))
                   (key :: JsMap.keys cache)).
  { intros x Hx. rewrite JsMapFacts.keys_set in Hx.
    destruct (JsMap.get cache key); [now right|].
    apply in_app_or in Hx. destruct Hx as [Hx|[<-|[]]]; [now right | now left]. }
  assert (Hall : Forall (fun k => k <> EmptyString)
                   (JsMap.keys (JsMap.set cache key embedding))).
  { apply Forall_forall. intros x Hx. apply Hset in Hx.
    destruct Hx as [<-|Hx]; [exact Hhash|].
    exact (proj1 (Forall_forall _ _) Hkeys x Hx). }
  unfold cache_within_limit. cbn [Embedding.embeddingCache].
  split; [split|].
  - apply limit_bound; [|exact Hall].
    pose proof (length_set_le cache key embedding). lia.
  - apply Forall_forall. intros x Hx. apply limit_keys_incl in Hx.
    exact (proj1 (Forall_forall _ _) Hall x Hx).
  - intros x Hx. apply limit_keys_incl in Hx. now apply Hset.
Qed.

Lemma embed_cache_bounded_witness :
  cache_within_limit
    (snd (Embedding.embed example_hash (fresh_service flaky_provider)
            "fix parser")).
Proof.
  refine (proj1 (embed_cache_bounded example_hash
                   (fresh_service flaky_provider) _ "fix parser" _ _ _ _)).
  - split; [cbn; lia | constructor].
  - discriminate.
  - reflexivity.
Defined.

(* ------------------------------------------------------------------ *)
(** * Batches, paths, labels *)

Lemma slice_forward {T : Type} (array : list T) (i size : Z) :
  (0 <= i)%Z -> (0 < size)%Z -> (i < Z.of_nat (length array))%Z ->
  slice array i (i + size)
  = firstn (Z.to_nat size) (skipn (Z.to_nat i) array).
Proof.
  intros Hi Hsize Hlt. unfold slice, relative_index.
  destruct (Z.ltb_spec i 0) as [|_]; [lia|].
  destruct (Z.ltb_spec (i + size) 0) as [|_]; [lia|].
  rewrite (Z.min_l i) by lia.
  destruct (Z.le_ge_cases (i + size) (Z.of_nat (length array))) as [Hle|Hge].
  - rewrite Z.min_l by lia. f_equal. f_equal. lia.
  - rewrite Z.min_r by lia.
    rewrite !firstn_all2; [reflexivity | |]; rewrite length_skipn; lia.
Qed.

Lemma batchArray_from_partition {T : Type} (array : list T) (batchSize : Z) :
  (0 < batchSize)%Z ->
  forall fuel i batches,
    (0 <= i)%Z -> (0 < fuel)%nat ->
    (Z.of_nat (length array) - i < Z.of_nat fuel)%Z ->
    exists rest,
      batchArray_from fuel array batchSize i batches = Some (batches ++ rest)
      /\ concat rest = skipn (Z.to_nat i) array
      /\ Forall (batch_within batchSize) rest
      /\ ((Z.of_nat (length array) <= i)%Z -> rest = [])
      /\ (forall pre last, rest = pre ++ [last] ->
            Forall (full_batch batchSize) pre).
Proof.
  intros Hsize. induction fuel as [|fuel IH]; intros i batches Hi Hpos Hfuel;
    [lia|].
  cbn [batchArray_from].
  destruct (Z.ltb_spec i (Z.of_nat (length array))) as [Hlt|Hge].
  - destruct (IH (i + batchSize)%Z
                (batches ++ [slice array i (i + batchSize)]))
      as (rest & Hrun & Hcat & Hall & Hend & Hfull); [lia | lia | lia |].
    exists (slice array i (i + batchSize) :: rest).
    rewrite Hrun, <- app_assoc. cbn [app].
    rewrite slice_forward in * by assumption.
    set (chunk := firstn (Z.to_nat batchSize) (skipn (Z.to_nat i) array))
      in *.
    assert (Hlen : length chunk
                   = Nat.min (Z.to_nat batchSize)
                       (length array - Z.to_nat i)).
    { unfold chunk. now rewrite length_firstn, length_skipn. }
    split; [reflexivity|]. split; [|split; [|split]].
    + cbn [concat]. rewrite Hcat. unfold chunk.
      replace (Z.to_nat (i + batchSize))
        with (Z.to_nat batchSize + Z.to_nat i)%nat by lia.
      rewrite <- skipn_skipn. apply firstn_skipn.
    + constructor; [|exact Hall]. unfold batch_within. lia.
    + lia.
    + intros pre last Heq. destruct pre as [|first pre].
      * constructor.
      * cbn [app] in Heq. injection Heq as <- Hrest.
         constructor; [|now apply (Hfull pre last)].
         unfold full_batch.
         destruct (Z.le_ge_cases (Z.of_nat (length array)) (i + batchSize))
           as [Hover|Hunder]; [|lia].
         rewrite (Hend Hover) in Hrest. now destruct pre.
  - exists []. rewrite app_nil_r, skipn_all2 by lia.
    repeat split; try constructor.
    intros pre last Heq. now destruct pre.
Qed.

(** X25. [batchArray] with a positive batch size cuts the array into
    consecutive batches: the loop ends (within [length array + 1] tests of
    its condition), the batches concatenated give the array back, every
    batch holds at least one and at most [batchSize] elements, and every
    batch but the last holds exactly [batchSize]. *)
Theorem batchArray_partition {T : Type} (array : list T) (batchSize : Z)
  (fuel : nat) :
  (0 < batchSize)%Z -> (length array < fuel)%nat ->
  exists batches,
    batchArray fuel array batchSize = Some batches
    /\ concat batches = array
    /\ Forall (batch_within batchSize) batches
    /\ forall pre last, batches = pre ++ [last] ->
         Forall (full_batch batchSize) pre.
Proof.
  intros Hsize Hfuel.
  destruct (batchArray_from_partition array batchSize Hsize fuel 0%Z [])
    as (rest & Hrun & Hcat & Hall & _ & Hfull); [lia | lia | lia |].
  exists rest. unfold batchArray. rewrite Hrun. cbn [app].
  repeat split; assumption.
Qed.

Lemma batchArray_partition_witness :
  exists batches,
    batchArray 6 [1%nat; 2%nat; 3%nat; 4%nat; 5%nat] 2 = Some batches
    /\ concat batches = [1%nat; 2%nat; 3%nat; 4%nat; 5%nat]
    /\ Forall (batch_within 2) batches
    /\ forall pre last, batches = pre ++ [last] ->
         Forall (full_batch 2) pre.
Proof.
  apply batchArray_partition; [lia | cbn; lia].
Defined.

Lemma batchArray_from_stuck {T : Type} (array : list T) (batchSize : Z) :
  (batchSize <= 0)%Z -> array <> [] ->
  forall fuel i batches,
    (i <= 0)%Z -> batchArray_from fuel array batchSize i batches = None.
Proof.
  intros Hsize Hne. induction fuel as [|fuel IH]; intros i batches Hi;
    [reflexivity|].
  cbn [batchArray_from].
  destruct (Z.ltb_spec i (Z.of_nat (length array))) as [_|Hge].
  - apply IH. lia.
  - destruct array; [congruence | cbn [length] in Hge; lia].
Qed.

(** X26. [batchArray] with a batch size of 0 or less never returns on an
    array that is not empty: the index never passes the length, so the loop
    is still running after any number of steps. *)
Theorem batchArray_stuck {T : Type} (array : list T) (batchSize : Z)
  (fuel : nat) :
  (batchSize <= 0)%Z -> array <> [] ->
  batchArray fuel array batchSize = None.
Proof.
  intros Hsize Hne. unfold batchArray.
  apply batchArray_from_stuck; [assumption | assumption | lia].
Qed.

Lemma batchArray_stuck_witness :
  batchArray 1000 ["a"%string; "b"%string] 0 = None.
Proof.
  apply batchArray_stuck; [lia | discriminate].
Defined.

(** *** Paths *)

Lemma chars_normalizePath (s : string) :
  chars (normalizePath s) = List.map unslash (chars s).
Proof. unfold normalizePath, lit. apply replace_all_Chr. Qed.

Lemma str_chars (s : string) : str (chars s) = s.
Proof. apply string_of_list_ascii_of_string. Qed.

Lemma chars_append (a b : string) :
  chars (a ++ b)%string = chars a ++ chars b.
Proof. induction a as [|c a IH]; cbn; [reflexivity|]. now f_equal. Qed.

Lemma starts_with_prefix (p s : text) : starts_with p (p ++ s) = true.
Proof.
  induction p as [|c p IH]; cbn; [reflexivity|].
  now rewrite Ascii.eqb_refl, IH.
Qed.

Lemma unslash_no_backslash (c : ascii) : unslash c <> backslash.
Proof.
  unfold unslash. destruct (Ascii.eqb_spec backslash c) as [<-|Hne];
    [discriminate | congruence].
Qed.

Lemma normalizePath_no_backslash (s : string) :
  no_backslash (normalizePath s).
Proof.
  unfold no_backslash. rewrite chars_normalizePath.
  apply Forall_forall. intros c Hc. apply in_map_iff in Hc.
  destruct Hc as (c0 & <- & _). apply unslash_no_backslash.
Qed.

(** X27. [getRelativePath] cuts the root and the one character after it,
    whatever that character is: for a path made of the root, a character
    and a rest, the result is the normalized rest.  So a file below the
    root gets its path relative to the root, with either separator - and a
    file in a sibling directory whose name merely starts with the name of
    the root loses the character after that prefix as well.  A path that
    does not start with the root comes back normalized, and no result
    holds a backslash. *)
Theorem getRelativePath_cuts_root (root rest path : string) (c : ascii) :
  getRelativePath (root ++ String c rest) root = normalizePath rest
  /\ getRelativePath root root = EmptyString
  /\ (startsWith (normalizePath path) (normalizePath root) = false ->
      getRelativePath path root = normalizePath path)
  /\ no_backslash (getRelativePath path root).
Proof.
  assert (Hcut : forall r s : string,
            substring_from (String.length (normalizePath r) + 1)
              (normalizePath (r ++ s))
            = str (skipn 1 (List.map unslash (chars s)))).
  { intros r s. unfold substring_from.
    rewrite chars_normalizePath, chars_append, map_app.
    rewrite <- length_chars, chars_normalizePath.
    rewrite Nat.add_comm, <- skipn_skipn.
    rewrite skipn_app, skipn_all, Nat.sub_diag. reflexivity. }
  assert (Hstart : forall r s : string,
            startsWith (normalizePath (r ++ s)) (normalizePath r) = true).
  { intros r s. unfold startsWith.
    rewrite !chars_normalizePath, chars_append, map_app.
    apply starts_with_prefix. }
  split; [|split; [|split]].
  - unfold getRelativePath. cbv zeta. rewrite Hstart, Hcut.
    cbn [chars list_ascii_of_string List.map skipn].
    fold (chars rest). rewrite <- chars_normalizePath. apply str_chars.
  - assert (Hroot : (root ++ EmptyString)%string = root)
      by (induction root as [|a r IH]; cbn; [reflexivity | now rewrite IH]).
    pose proof (Hstart root EmptyString) as Hs.
    pose proof (Hcut root EmptyString) as Hc.
    rewrite Hroot in Hs, Hc.
    unfold getRelativePath. cbv zeta. rewrite Hs, Hc. reflexivity.
  - intros Hno. unfold getRelativePath. cbv zeta. now rewrite Hno.
  - unfold getRelativePath. cbv zeta.
    destruct (startsWith (normalizePath path) (normalizePath root));
      [|apply normalizePath_no_backslash].
    unfold no_backslash, substring_from. rewrite chars_str.
    pose proof (normalizePath_no_backslash path) as Hall.
    unfold no_backslash in Hall.
    rewrite <- (firstn_skipn
                  (String.length (normalizePath root) + 1)
                  (chars (normalizePath path))) in Hall.
    apply Forall_app in Hall. tauto.
Qed.

(** *** Labels *)

(** X28. The label of [formatRelativeTime] for the lowest and the highest
    age: a time stamp less than a minute old, or in the future, reads
    "just now"; from 28 days on the label counts months of 30 days, so an
    age of 28 or 29 days reads "0 month ago", and from 30 days on it is the
    number of whole 30-day months, at least 1. *)
Theorem formatRelativeTime_months (now timestamp : Z) :
  ((now - timestamp < 60000)%Z ->
   formatRelativeTime now timestamp = "just now"%string)
  /\ ((28 * Millis.day <= now - timestamp < 30 * Millis.day)%Z ->
      formatRelativeTime now timestamp = "0 month ago"%string)
  /\ ((30 * Millis.day <= now - timestamp)%Z ->
      let months := ((now - timestamp) / Millis.month)%Z in
      (1 <= months)%Z
      /\ formatRelativeTime now timestamp
         = (show months ++ " month" ++ plural months ++ " ago")%string).
Proof.
  unfold formatRelativeTime, Millis.month, Millis.day.
  set (diff := (now - timestamp)%Z).
  split; [|split].
  - intros Hlt.
    destruct (Z.ltb_spec (diff / 1000) 60) as [_|Hge]; [reflexivity|].
    exfalso. revert Hge. Z.div_mod_to_equations. lia.
  - intros Hrange.
    destruct (Z.ltb_spec (diff / 1000) 60) as [H|_];
      [exfalso; revert H; Z.div_mod_to_equations; lia|].
    destruct (Z.ltb_spec (diff / 1000 / 60) 60) as [H|_];
      [exfalso; revert H; Z.div_mod_to_equations; lia|].
    destruct (Z.ltb_spec (diff / 1000 / 60 / 60) 24) as [H|_];
      [exfalso; revert H; Z.div_mod_to_equations; lia|].
    destruct (Z.ltb_spec (diff / 1000 / 60 / 60 / 24) 7) as [H|_];
      [exfalso; revert H; Z.div_mod_to_equations; lia|].
    destruct (Z.ltb_spec (diff / 1000 / 60 / 60 / 24 / 7) 4) as [H|_];
      [exfalso; revert H; Z.div_mod_to_equations; lia|].
    assert (Hzero : (diff / 1000 / 60 / 60 / 24 / 30 = 0)%Z)
      by (Z.div_mod_to_equations; lia).
    rewrite Hzero. reflexivity.
  - intros Hrange. cbv zeta.
    assert (Hmonths : (diff / 1000 / 60 / 60 / 24 / 30
                       = diff / (30 * (24 * 60 * 60 * 1000)))%Z)
      by (Z.div_mod_to_equations; lia).
    split; [Z.div_mod_to_equations; lia|].
    destruct (Z.ltb_spec (diff / 1000) 60) as [H|_];
      [exfalso; revert H; Z.div_mod_to_equations; lia|].
    destruct (Z.ltb_spec (diff / 1000 / 60) 60) as [H|_];
      [exfalso; revert H; Z.div_mod_to_equations; lia|].
    destruct (Z.ltb_spec (diff / 1000 / 60 / 60) 24) as [H|_];
      [exfalso; revert H; Z.div_mod_to_equations; lia|].
    destruct (Z.ltb_spec (diff / 1000 / 60 / 60 / 24) 7) as [H|_];
      [exfalso; revert H; Z.div_mod_to_equations; lia|].
    destruct (Z.ltb_spec (diff / 1000 / 60 / 60 / 24 / 7) 4) as [H|_];
      [exfalso; revert H; Z.div_mod_to_equations; lia|].
    now rewrite Hmonths.
Qed.

Lemma length_str (t : text) : String.length (str t) = length t.
Proof. now rewrite <- length_chars, chars_str. Qed.

Lemma length_append (a b : string) :
  String.length (a ++ b) = (String.length a + String.length b)%nat.
Proof. induction a as [|c a IH]; cbn; [reflexivity | now rewrite IH]. Qed.

(** X29. [truncateText]: a text of at most [maxLength] characters comes
    back unchanged.  A longer one is cut to its first [maxLength - 3]
    characters followed by three dots, which makes exactly [maxLength]
    characters when [maxLength] is 3 or more; below 3 the result is the
    three dots alone, longer than [maxLength]. *)
Theorem truncateText_length (text : string) (maxLength : Z) :
  ((Z.of_nat (String.length text) <= maxLength)%Z ->
   truncateText text maxLength = text)
  /\ ((maxLength < Z.of_nat (String.length text))%Z ->
      truncateText text maxLength
      = (substring0 (maxLength - 3) text ++ "...")%string
      /\ ((3 <= maxLength)%Z ->
          Z.of_nat (String.length (truncateText text maxLength)) = maxLength)
      /\ ((maxLength < 3)%Z -> truncateText text maxLength = "..."%string)).
Proof.
  unfold truncateText. split.
  - intros Hle.
    destruct (Z.leb_spec (Z.of_nat (String.length text)) maxLength);
      [reflexivity | lia].
  - intros Hlt.
    destruct (Z.leb_spec (Z.of_nat (String.length text)) maxLength);
      [lia|].
    split; [reflexivity|]. split.
    + intros Hge. unfold substring0.
      rewrite length_append, length_str, length_firstn, length_chars.
      cbn [String.length]. lia.
    + intros Hsmall. unfold substring0.
      replace (Z.to_nat (maxLength - 3)) with 0%nat by lia. reflexivity.
Qed.

(* ------------------------------------------------------------------ *)
(** * Mean pooling *)

Module PoolFacts.
Import HuggingFaceEmbeddingProvider.

Lemma length_add_token (d : nat) (result : list number) (token : list Q) :
  length (add_token d result token) = d.
Proof. unfold add_token. now rewrite length_map, length_seq. Qed.

Lemma nth_add_token (d i : nat) (result : list number) (token : list Q) :
  (i < d)%nat ->
  nth i (add_token d result token) None
  = plus (nth i result None) (nth_error token i).
Proof.
  intros Hi. unfold add_token.
  rewrite (nth_indep _ None (plus (nth 0 result None) (nth_error token 0)))
    by (now rewrite length_map, length_seq).
  rewrite (map_nth (fun i => plus (nth i result None) (nth_error token i))).
  now rewrite seq_nth.
Qed.

Lemma plus_NaN (entries : list (option Q)) :
  fold_left plus entries None = None.
Proof. induction entries as [|e entries IH]; cbn; [reflexivity | exact IH]. Qed.

Lemma fold_add_token (d i : nat) (tokens : list (list Q)) :
  (i < d)%nat ->
  forall result,
    nth i (fold_left (add_token d) tokens result) None
    = fold_left plus (List.map (fun token => nth_error token i) tokens)
        (nth i result None).
Proof.
  intros Hi. induction tokens as [|token tokens IH]; intros result;
    [reflexivity|].
  cbn [fold_left List.map]. rewrite IH. now rewrite nth_add_token.
Qed.

Lemma length_fold_add_token (d : nat) (tokens : list (list Q)) :
  forall result, length result = d ->
    length (fold_left (add_token d) tokens result) = d.
Proof.
  induction tokens as [|token tokens IH]; intros result Hlen; [exact Hlen|].
  cbn [fold_left]. apply IH, length_add_token.
Qed.

Lemma fold_plus_column (i : nat) (tokens : list (list Q)) :
  forall x,
    fold_left plus (List.map (fun token => nth_error token i) tokens)
      (Some x)
    = match column i tokens with
      | Some col => Some (fold_left Qplus col x)
      | None => None
      end.
Proof.
  induction tokens as [|token tokens IH]; intros x; [reflexivity|].
  cbn [List.map fold_left column].
  destruct (nth_error token i) as [y|]; cbn [plus].
  - rewrite IH. now destruct (column i tokens).
  - apply plus_NaN.
Qed.

Lemma nth_over (n i : nat) (result : list number) :
  nth i (List.map (over n) result) None = over n (nth i result None).
Proof. exact (map_nth (over n) result None i). Qed.

End PoolFacts.

(** X30. [meanPool] on one vector per token: the pooled vector has the
    length of the first token, and its entry at an index is the mean of
    the entries the tokens hold there - their sum over the number of
    tokens - or [NaN] as soon as one token is too short to hold one;
    entries beyond the length of the first token are ignored.  A body that
    is a vector already comes back as it is. *)
Theorem meanPool_mean (first : list Q) (rest : list (list Q))
  (vector : list Q) :
  let tokens := first :: rest in
  let pooled := HuggingFaceEmbeddingProvider.meanPool
                  (HuggingFaceEmbeddingProvider.Nested tokens) in
  length pooled = length first
  /\ (forall i, (i < length first)%nat ->
        nth_error pooled i
        = Some match column i tokens with
               | Some col => Some (total col / Qnat (length tokens))
               | None => None
               end)
  /\ HuggingFaceEmbeddingProvider.meanPool
       (HuggingFaceEmbeddingProvider.Flat vector)
     = List.map Some vector.
Proof.
  intros tokens pooled.
  assert (Hlen : length pooled = length first).
  { unfold pooled, tokens, HuggingFaceEmbeddingProvider.meanPool.
    cbv beta iota zeta. rewrite length_map. apply PoolFacts.length_fold_add_token.
    apply repeat_length. }
  split; [exact Hlen|]. split; [|reflexivity].
  intros i Hi.
  rewrite (nth_error_nth' pooled None) by lia. f_equal.
  unfold pooled, tokens, HuggingFaceEmbeddingProvider.meanPool.
  cbv beta iota zeta. fold tokens.
  rewrite PoolFacts.nth_over, PoolFacts.fold_add_token by exact Hi.
  rewrite nth_repeat_lt by exact Hi.
  rewrite PoolFacts.fold_plus_column.
  destruct (column i tokens); reflexivity.
Qed.
